(** * The Obsidian vault server ([src/index.ts]), embedded and verified

    The server exposes a directory of notes through six tools
    ([read_note], [write_note], [append_to_note], [patch_note],
    [search_notes], [list_notes]) and a resource listing.  This file embeds

    - the JavaScript string primitives the handlers call ([Js]),
    - Node's POSIX [path] functions ([Path]),
    - the file system the handlers observe ([Disk]) and the [fs/promises]
      calls they make on it ([Fs]),
    - the [glob] enumeration ([Glob]) and [JSON.stringify] ([JSON]),
    - the handlers themselves and their dispatcher (section [Server]),
    - the start of the program ([Startup]), the list of tools
      ([listTools]) and the reading of a resource ([readResource]),

    and then states and proves the properties of the handlers.

    Conventions.  A JavaScript string is a sequence of UTF-16 code units;
    the development covers the code units 0..255 (Basic Latin and Latin-1
    Supplement), one [ascii] per code unit.  Among these there is no
    surrogate, so that a text written as UTF-8 is read back unchanged,
    and lower-casing maps every code unit to one code unit.  A file is
    identified with the text [readFile(_, "utf-8")] returns for it.
    Paths handed to the file system are the normalised absolute paths
    [path.resolve] produces; they are taken to hold no null character,
    which Node refuses with an error of its own before any system call.
    A request carries an arguments object whose members have the types
    the handlers cast them to, the [limit] of [list_notes] being an
    integer.  The order in which [glob] lists the notes is left open by
    the package; the model fixes one, and the theorems on the search and
    the listings hold whatever the order is. *)

From Stdlib Require Import Ascii ZArith Lia DecimalString.
From Stdlib Require String.
From stdpp Require Import gmap strings list fin_maps.

Local Open Scope Z_scope.

(** ** JavaScript strings *)

Module Js.

(** [s.length] *)
Definition length (s : string) : Z := Z.of_nat (String.length s).

Fixpoint take (n : nat) (s : string) : string :=
  match n, s with
  | S n', String c s' => String c (take n' s')
  | _, _ => ""
  end.

Fixpoint drop (n : nat) (s : string) : string :=
  match n, s with
  | S n', String _ s' => drop n' s'
  | _, _ => s
  end.

(** [s.startsWith(p)] *)
Fixpoint startsWith (s p : string) : bool :=
  match p, s with
  | "", _ => true
  | String a p', String b s' => if Ascii.eqb a b then startsWith s' p' else false
  | String _ _, "" => false
  end.

(** [StringIndexOf(s, t, 0)] of ECMA-262: the least position at which [t]
    occurs in [s], if any. *)
Fixpoint StringIndexOf (s t : string) : option nat :=
  if startsWith s t then Some 0%nat
  else match s with
       | "" => None
       | String _ s' => S <$> StringIndexOf s' t
       end.

(** [s.indexOf(t)], with JavaScript's [-1] for "not found". *)
Definition indexOf (s t : string) : Z :=
  match StringIndexOf s t with
  | Some i => Z.of_nat i
  | None => -1
  end.

(** [s.includes(t)] *)
Definition includes (s t : string) : bool :=
  negb (indexOf s t =? -1).

(** [s.substring(a, b)]: both ends are clamped to [0, s.length] and
    swapped when they come in the wrong order. *)
Definition substring (s : string) (a b : Z) : string :=
  let len := length s in
  let finalStart := Z.min (Z.max a 0) len in
  let finalEnd := Z.min (Z.max b 0) len in
  let from := Z.min finalStart finalEnd in
  let to := Z.max finalStart finalEnd in
  take (Z.to_nat (to - from)) (drop (Z.to_nat from) s).

(** [GetSubstitution] of ECMA-262 for a string pattern: there are no
    captures, so of the dollar forms only [$$], [$&], [$`] and [$'] are
    special; [$1], [$<] and a lone [$] stand for themselves. *)
Fixpoint GetSubstitution (matched preceding following template : string) : string :=
  match template with
  | "" => ""
  | String "$" (String "$" rest) =>
      "$" +:+ GetSubstitution matched preceding following rest
  | String "$" (String "&" rest) =>
      matched +:+ GetSubstitution matched preceding following rest
  | String "$" (String "`" rest) =>
      preceding +:+ GetSubstitution matched preceding following rest
  | String "$" (String "'" rest) =>
      following +:+ GetSubstitution matched preceding following rest
  | String c rest =>
      String c (GetSubstitution matched preceding following rest)
  end.

(** [s.replace(pattern, replacement)] with a string [pattern]: only the
    first occurrence is replaced, and the replacement is a template. *)
Definition replace (s pattern replacement : string) : string :=
  match StringIndexOf s pattern with
  | None => s
  | Some pos =>
      let preceding := take pos s in
      let following := drop (pos + String.length pattern) s in
      preceding
        +:+ GetSubstitution pattern preceding following replacement
        +:+ following
  end.

Fixpoint map (f : ascii → ascii) (s : string) : string :=
  match s with
  | "" => ""
  | String c s' => String (f c) (map f s')
  end.

(** [s.replace(/\n/g, " ")] *)
Definition replace_newlines (s : string) : string :=
  map (λ c, if Ascii.eqb c "010" then " "%char else c) s.

(** Lower-casing of one code unit in the range 0..255: [A]..[Z] and the
    Latin-1 capitals U+00C0..U+00DE (without the multiplication sign
    U+00D7) move up by 32. *)
Definition lower_unit (c : ascii) : ascii :=
  let n := N_of_ascii c in
  if ((65 <=? n) && (n <=? 90) ||
      (192 <=? n) && (n <=? 222) && negb (n =? 215))%N
  then ascii_of_N (n + 32) else c.

(** [s.toLowerCase()] *)
Definition toLowerCase (s : string) : string := map lower_unit s.

(** [String(n)] for an integer. *)
Definition of_Z (n : Z) : string := NilEmpty.string_of_int (Z.to_int n).

End Js.

(** ** Node's [path] module (POSIX flavour) *)

Module Path.

Definition is_sep (c : ascii) : bool := Ascii.eqb c "/".

(** [s.split("/")] *)
Fixpoint split (s : string) : list string :=
  match s with
  | "" => [""]
  | String c s' =>
      if is_sep c then "" :: split s'
      else match split s' with
           | seg :: segs => String c seg :: segs
           | [] => [String c ""]
           end
  end.

Fixpoint join (segs : list string) : string :=
  match segs with
  | [] => ""
  | [seg] => seg
  | seg :: segs' => seg +:+ "/" +:+ join segs'
  end.

Definition isAbsolute (p : string) : bool :=
  match p with
  | String c _ => is_sep c
  | "" => false
  end.

(** One step of [normalizeString] with [allowAboveRoot = false]; [stack]
    holds the segments kept so far, the last one first. *)
Definition normalize_step (stack : list string) (seg : string) : list string :=
  if bool_decide (seg = "") || bool_decide (seg = ".") then stack
  else if bool_decide (seg = "..") then tail stack
  else seg :: stack.

Definition normalize (segs : list string) : list string :=
  rev (fold_left normalize_step segs []).

(** [path.resolve(from, to)] for an absolute [from]: the arguments are
    taken from the right until an absolute one is met, the pieces are
    joined with [/] and the result is normalised.  ([process.cwd()] is
    consulted only when no argument is absolute, which does not happen
    for the calls of this program.) *)
Definition resolve (from to : string) : string :=
  let resolvedPath :=
    if bool_decide (to = "") then from +:+ "/"
    else if isAbsolute to then to +:+ "/"
    else from +:+ "/" +:+ to +:+ "/" in
  "/" +:+ join (normalize (split resolvedPath)).

Fixpoint has_non_sep (s : string) : bool :=
  match s with
  | "" => false
  | String c s' => negb (is_sep c) || has_non_sep s'
  end.

(** The [end] index of [path.dirname]: the position, counted from [i],
    of the last separator that is followed by a character other than a
    separator.  Node finds it scanning from the right and never looks at
    position 0. *)
Fixpoint dirname_end (s : string) (i : nat) : option nat :=
  match s with
  | "" => None
  | String c s' =>
      match dirname_end s' (S i) with
      | Some e => Some e
      | None => if is_sep c && has_non_sep s' then Some i else None
      end
  end.

(** [path.dirname(p)] *)
Definition dirname (p : string) : string :=
  match p with
  | "" => "."
  | String c rest =>
      match dirname_end rest 1 with
      | None => if is_sep c then "/" else "."
      | Some e =>
          if is_sep c && bool_decide (e = 1%nat) then "//"
          else Js.take e p
      end
  end.

(** The directories above [p], the nearest first: [dirname p],
    [dirname (dirname p)], ... *)
Fixpoint ancestors_upto (fuel : nat) (p : string) : list string :=
  match fuel with
  | O => []
  | S fuel' => dirname p :: ancestors_upto fuel' (dirname p)
  end.

Definition ancestors (p : string) : list string :=
  ancestors_upto (String.length p) p.

End Path.

(** ** The disk: what the handlers can observe of the file system

    The disk maps the normalised absolute path of every existing entry to
    a regular file with its text or to a directory; the root directory [/]
    always exists.  Symbolic links, permissions and resource limits (the
    length of a name among them) are outside the model. *)

Module Disk.

Inductive node :=
| File (data : string)
| Dir.

Inductive errno := ENOENT | ENOTDIR | EISDIR | EEXIST.

(** What Node reports of a failed system call. *)
Record error := Err { code : errno; syscall : string; target : option string }.

Definition lookup (d : gmap string node) (p : string) : option node :=
  if bool_decide (p = "/") then Some Dir else d !! p.

(** The error of walking to an absent path: [ENOTDIR] when the nearest
    existing ancestor is a regular file, [ENOENT] otherwise. *)
Fixpoint walk_errno (fuel : nat) (d : gmap string node) (p : string) : errno :=
  match fuel with
  | O => ENOENT
  | S fuel' =>
      match lookup d (Path.dirname p) with
      | Some (File _) => ENOTDIR
      | Some Dir => ENOENT
      | None => walk_errno fuel' d (Path.dirname p)
      end
  end.

Definition absent (d : gmap string node) (call p : string) : error :=
  Err (walk_errno (String.length p) d p) call (Some p).

(** [stat(2)] *)
Definition stat (d : gmap string node) (p : string) : error + node :=
  match lookup d p with
  | Some n => inr n
  | None => inl (absent d "stat" p)
  end.

(** [open(2)] for reading followed by [read(2)] of the whole file. *)
Definition read (d : gmap string node) (p : string) : error + string :=
  match lookup d p with
  | Some (File data) => inr data
  | Some Dir => inl (Err EISDIR "read" None)
  | None => inl (absent d "open" p)
  end.

(** [open(2)] with [O_CREAT]: the existing text of the file, or [None]
    for a file that the call creates in an existing directory. *)
Definition open_create (d : gmap string node) (p : string) : error + option string :=
  match lookup d p with
  | Some (File data) => inr (Some data)
  | Some Dir => inl (Err EISDIR "open" (Some p))
  | None =>
      match lookup d (Path.dirname p) with
      | Some Dir => inr None
      | _ => inl (absent d "open" p)
      end
  end.

(** Flag [w]: create or truncate, then write. *)
Definition write (d : gmap string node) (p data : string) : error + gmap string node :=
  match open_create d p with
  | inr _ => inr (<[p := File data]> d)
  | inl e => inl e
  end.

(** Flag [a]: create if absent, then write at the end. *)
Definition append (d : gmap string node) (p data : string) : error + gmap string node :=
  match open_create d p with
  | inr (Some old) => inr (<[p := File (old +:+ data)]> d)
  | inr None => inr (<[p := File data]> d)
  | inl e => inl e
  end.

(** Recursive directory creation, the way Node does it: make the
    directory, and when its parent is missing make the parent first.
    [None] when a regular file is in the way. *)
Fixpoint mkdirp (fuel : nat) (d : gmap string node) (p : string) : option (gmap string node) :=
  match lookup d p with
  | Some Dir => Some d
  | Some (File _) => None
  | None =>
      match fuel with
      | O => None
      | S fuel' => d' ← mkdirp fuel' d (Path.dirname p); Some (<[p := Dir]> d')
      end
  end.

Definition mkdir_recursive (d : gmap string node) (p : string) : error + gmap string node :=
  match mkdirp (String.length p) d p with
  | Some d' => inr d'
  | None =>
      inl (Err (match lookup d p with Some (File _) => EEXIST | _ => ENOTDIR end)
               "mkdir" (Some p))
  end.

End Disk.

(** ** Exceptions, the world, and the monad of handlers *)

(** The values the program throws: [new Error(message)], the SDK's
    [new McpError(code, message)], and the system errors of [fs]. *)
Inductive exn :=
| Error (message : string)
| McpError (code : Z) (message : string)
| SystemError (e : Disk.error).

Definition errno_text (c : Disk.errno) : string :=
  match c with
  | Disk.ENOENT => "ENOENT: no such file or directory"
  | Disk.ENOTDIR => "ENOTDIR: not a directory"
  | Disk.EISDIR => "EISDIR: illegal operation on a directory"
  | Disk.EEXIST => "EEXIST: file already exists"
  end.

(** [error.message].  The SDK's [McpError] passes
    [`MCP error ${code}: ${message}`] to [Error]. *)
Definition message (e : exn) : string :=
  match e with
  | Error m => m
  | McpError code m => "MCP error " +:+ Js.of_Z code +:+ ": " +:+ m
  | SystemError (Disk.Err c call target) =>
      errno_text c +:+ ", " +:+ call +:+
      match target with
      | Some p => " '" +:+ p +:+ "'"
      | None => ""
      end
  end.

Inductive fs_call :=
| SysStat (p : string)
| SysReadFile (p : string)
| SysWriteFile (p data : string)
| SysAppendFile (p data : string)
| SysMkdir (p : string)
| SysScan (cwd : string).

(** The world a handler runs in: the disk, and the log of the file-system
    calls made so far (the oldest first). *)
Record world := World { disk : gmap string Disk.node; trace : list fs_call }.

Inductive outcome (A : Type) :=
| Return (a : A)
| Throw (e : exn).
Arguments Return {A} a.
Arguments Throw {A} e.

(** An [async] function: it runs against the world and either returns
    (its promise is fulfilled) or throws (its promise is rejected). *)
Definition M (A : Type) : Type := world → outcome A * world.

Global Instance M_ret : MRet M := λ A a w, (Return a, w).
Global Instance M_bind : MBind M := λ A B f m w,
  match m w with
  | (Return a, w') => f a w'
  | (Throw e, w') => (Throw e, w')
  end.

Definition throw {A} (e : exn) : M A := λ w, (Throw e, w).

(** [try { body } catch (error) { handler }] *)
Definition try_catch {A} (body : M A) (handler : exn → M A) : M A := λ w,
  match body w with
  | (Return a, w') => (Return a, w')
  | (Throw e, w') => handler e w'
  end.

(** A function that may throw but has no effect, used inside a handler. *)
Definition lift {A} (o : outcome A) : M A := λ w, (o, w).

Definition log (c : fs_call) (w : world) : world :=
  World (disk w) (trace w ++ [c]).

(** ** [fs/promises] *)

Module Fs.

Definition query {A} (c : fs_call) (f : gmap string Disk.node → Disk.error + A) : M A := λ w,
  match f (disk w) with
  | inr a => (Return a, log c w)
  | inl e => (Throw (SystemError e), log c w)
  end.

Definition update (c : fs_call)
    (f : gmap string Disk.node → Disk.error + gmap string Disk.node) : M unit := λ w,
  match f (disk w) with
  | inr d' => (Return (), World d' (trace w ++ [c]))
  | inl e => (Throw (SystemError e), log c w)
  end.

Definition stat (p : string) : M Disk.node :=
  query (SysStat p) (λ d, Disk.stat d p).

(** [stats.isFile()] *)
Definition isFile (stats : Disk.node) : bool :=
  match stats with
  | Disk.File _ => true
  | Disk.Dir => false
  end.

Definition readFile (p : string) : M string :=
  query (SysReadFile p) (λ d, Disk.read d p).

Definition writeFile (p data : string) : M unit :=
  update (SysWriteFile p data) (λ d, Disk.write d p data).

Definition appendFile (p data : string) : M unit :=
  update (SysAppendFile p data) (λ d, Disk.append d p data).

(** [fs.mkdir(p, { recursive: true })] *)
Definition mkdir (p : string) : M unit :=
  update (SysMkdir p) (λ d, Disk.mkdir_recursive d p).

End Fs.

(** ** The [glob] package

    [glob(pattern, { cwd, ignore })] lists the entries below [cwd] whose
    path relative to [cwd] matches [pattern] and none of the [ignore]
    patterns.  Matching is minimatch's: [*] stands for any run of
    characters inside one segment, [**] for any run of whole segments.
    With the default [dot: false] neither of them matches a segment that
    starts with a dot, unless the pattern segment itself starts with a
    literal dot; [ignore] patterns are always matched in [dot: true]
    mode. *)

Module Glob.

Inductive token :=
| Star
| Lit (c : ascii).

Inductive part :=
| GlobStar
| Seg (ts : list token).

Fixpoint parse_segment (s : string) : list token :=
  match s with
  | "" => []
  | String c s' => (if Ascii.eqb c "*" then Star else Lit c) :: parse_segment s'
  end.

Definition parse (pattern : string) : list part :=
  (λ s, if bool_decide (s = "**") then GlobStar else Seg (parse_segment s))
    <$> Path.split pattern.

Fixpoint match_tokens (ts : list token) (s : string) : bool :=
  match ts with
  | [] => bool_decide (s = "")
  | Lit c :: ts' =>
      match s with
      | String c' s' => Ascii.eqb c c' && match_tokens ts' s'
      | "" => false
      end
  | Star :: ts' =>
      (fix star (s : string) : bool :=
         match_tokens ts' s ||
         match s with
         | String _ s' => star s'
         | "" => false
         end) s
  end.

Definition hidden (segment : string) : bool := Js.startsWith segment ".".

Definition explicit_dot (ts : list token) : bool :=
  match ts with
  | Lit c :: _ => Ascii.eqb c "."
  | _ => false
  end.

Definition match_segment (dot : bool) (ts : list token) (s : string) : bool :=
  (dot || explicit_dot ts || negb (hidden s)) && match_tokens ts s.

Fixpoint match_path (dot : bool) (pattern : list part) (segs : list string) : bool :=
  match pattern with
  | [] => bool_decide (segs = [])
  | Seg ts :: pattern' =>
      match segs with
      | s :: segs' => match_segment dot ts s && match_path dot pattern' segs'
      | [] => false
      end
  | GlobStar :: pattern' =>
      (fix star (segs : list string) : bool :=
         match_path dot pattern' segs ||
         match segs with
         | s :: segs' => (dot || negb (hidden s)) && star segs'
         | [] => false
         end) segs
  end.

(** [minimatch(p, pattern, { dot })] *)
Definition minimatch (dot : bool) (pattern p : string) : bool :=
  match_path dot (parse pattern) (Path.split p).

Record options := Options { cwd : string; ignore : list string }.

(** The path of the entry [key] relative to [cwd], for an entry below
    [cwd]. *)
Definition relative (cwd key : string) : option string :=
  let base := if bool_decide (cwd = "/") then "/" else cwd +:+ "/" in
  if Js.startsWith key base && negb (bool_decide (key = base))
  then Some (Js.drop (String.length base) key)
  else None.

Definition selected (pattern : string) (opts : options) (p : string) : bool :=
  minimatch false pattern p
  && negb (existsb (λ ign, minimatch true ign p) (ignore opts)).

(** The entries of the disk in the order of enumeration, which the
    package leaves unspecified: here it is the order of [map_to_list]. *)
Definition entries (opts : options) (d : gmap string Disk.node) : list string :=
  omap (relative (cwd opts)) (map_to_list d).*1.

Definition matches (pattern : string) (opts : options) (d : gmap string Disk.node)
    : list string :=
  List.filter (selected pattern opts) (entries opts d).

Definition glob (pattern : string) (opts : options) : M (list string) := λ w,
  (Return (matches pattern opts (disk w)), log (SysScan (cwd opts)) w).

End Glob.

(** ** [JSON.stringify(value, null, 2)] for the two shapes the handlers
    serialise: an array of strings and an array of [{ path, snippet }]. *)

Module JSON.

Definition nl : string := String "010" "".
Definition dquote : string := String "034" "".

Definition hex (n : N) : ascii :=
  if (n <? 10)%N then ascii_of_N (48 + n) else ascii_of_N (87 + n).

(** One code unit of [QuoteJSONString]. *)
Definition quote_unit (c : ascii) : string :=
  let n := N_of_ascii c in
  if (n =? 8)%N then "\b"
  else if (n =? 9)%N then "\t"
  else if (n =? 10)%N then "\n"
  else if (n =? 12)%N then "\f"
  else if (n =? 13)%N then "\r"
  else if (n =? 34)%N then "\" +:+ dquote
  else if (n =? 92)%N then "\\"
  else if (n <? 32)%N then "\u00" +:+ String (hex (n / 16)) (String (hex (n mod 16)) "")
  else String c "".

Fixpoint quote_units (s : string) : string :=
  match s with
  | "" => ""
  | String c s' => quote_unit c +:+ quote_units s'
  end.

Definition quote (s : string) : string := dquote +:+ quote_units s +:+ dquote.

Fixpoint items (indent : string) (xs : list string) : string :=
  match xs with
  | [] => ""
  | [x] => indent +:+ x
  | x :: xs' => indent +:+ x +:+ "," +:+ nl +:+ items indent xs'
  end.

(** An array whose elements are already serialised. *)
Definition array (xs : list string) : string :=
  match xs with
  | [] => "[]"
  | _ => "[" +:+ nl +:+ items "  " xs +:+ nl +:+ "]"
  end.

(** An object with the given keys, as an element of a top-level array. *)
Definition object (fields : list (string * string)) : string :=
  "{" +:+ nl
    +:+ items "    " ((λ kv, quote kv.1 +:+ ": " +:+ quote kv.2) <$> fields)
    +:+ nl +:+ "  }".

End JSON.

(** ** The server *)

(** The result of a tool call: [{ content: [{ type: "text", text }] }],
    with [isError: true] on the error path. *)
Record CallToolResult := ToolResult { text : string; isError : bool }.

(** [request.params.arguments], read at the types the handlers cast it
    to: the object is present, the members the handler reads are strings,
    and [limit] is absent or an integer. *)
Record Arguments := Args {
  path : string;
  content : string;
  old_text : string;
  new_text : string;
  query : string;
  limit : option Z
}.

(** An element of the array [search_notes] builds. *)
Record SearchResult := Hit { hit_path : string; snippet : string }.

(** An element of the resource listing. *)
Record Resource := { uri : string; name : string; mimeType : string }.

(** [ErrorCode.MethodNotFound] of the protocol. *)
Definition MethodNotFound : Z := -32601.

(** JavaScript's test [s ? _ : _] on a string: only the empty string is
    falsy. *)
Definition truthy (s : string) : bool := negb (String.eqb s "").

(** [xs.slice(0, k)] *)
Definition slice0 {A} (xs : list A) (k : Z) : list A :=
  if k <? 0 then take (Z.to_nat (Z.max (Z.of_nat (length xs) + k) 0)) xs
  else take (Z.to_nat k) xs.

Section Server.

(** The vault root, [path.resolve(process.argv[2])]. *)
Variable ABSOLUTE_VAULT_PATH : string.

Definition getSafePath (relativePath : string) : outcome string :=
  let targetPath := Path.resolve ABSOLUTE_VAULT_PATH relativePath in
  if negb (Js.startsWith targetPath ABSOLUTE_VAULT_PATH)
  then Throw (Error "Access denied: Path is outside the vault")
  else Return targetPath.

Definition read_note (args : Arguments) : M CallToolResult :=
  let notePath := path args in
  safePath ← lift (getSafePath notePath);
  try_catch
    (stats ← Fs.stat safePath;
     if negb (Fs.isFile stats) then throw (Error "Path exists but is not a file")
     else
       content ← Fs.readFile safePath;
       mret (ToolResult content false))
    (λ error, mret (ToolResult ("Error reading file: " +:+ message error) true)).

Definition write_note (args : Arguments) : M CallToolResult :=
  let notePath := path args in
  safePath ← lift (getSafePath notePath);
  Fs.mkdir (Path.dirname safePath);;
  Fs.writeFile safePath (content args);;
  mret (ToolResult ("Successfully wrote to " +:+ notePath) false).

Definition append_to_note (args : Arguments) : M CallToolResult :=
  let notePath := path args in
  safePath ← lift (getSafePath notePath);
  Fs.appendFile safePath (JSON.nl +:+ content args);;
  mret (ToolResult ("Successfully appended to " +:+ notePath) false).

Definition patch_note (args : Arguments) : M CallToolResult :=
  let notePath := path args in
  safePath ← lift (getSafePath notePath);
  content ← Fs.readFile safePath;
  if negb (Js.includes content (old_text args))
  then throw (Error "Could not find old_text in file")
  else
    let newContent := Js.replace content (old_text args) (new_text args) in
    Fs.writeFile safePath newContent;;
    mret (ToolResult ("Successfully patched " +:+ notePath) false).

(** The context snippet of a file for a query; empty when the content
    does not match. *)
Definition context_snippet (content query : string) : string :=
  let index := Js.indexOf (Js.toLowerCase content) (Js.toLowerCase query) in
  if negb (index =? -1) then
    let start := Z.max 0 (index - 50) in
    let end_ := Z.min (Js.length content) (index + Js.length query + 50) in
    Js.replace_newlines (Js.substring content start end_)
  else "".

(** The test of the loop of [search_notes]. *)
Definition is_match (file content query : string) : bool :=
  Js.includes (Js.toLowerCase content) (Js.toLowerCase query)
  || Js.includes (Js.toLowerCase file) (Js.toLowerCase query).

(** What the loop pushes for a matching file. *)
Definition search_hit (file content query : string) : SearchResult :=
  let snippet := context_snippet content query in
  Hit file (if truthy snippet then "..." +:+ snippet +:+ "..."
            else "Matched in filename").

(** The loop [for (const file of files)] of [search_notes], from the
    state in which [results] holds what was pushed so far. *)
Fixpoint search_loop (query : string) (files : list string) (results : list SearchResult)
    : M (list SearchResult) :=
  match files with
  | [] => mret results
  | file :: files' =>
      safePath ← lift (getSafePath file);
      content ← Fs.readFile safePath;
      if is_match file content query then
        let results' := results ++ [search_hit file content query] in
        if Z.of_nat (length results') >=? 20 then mret results'
        else search_loop query files' results'
      else search_loop query files' results
  end.

(** The part of [search_notes] before serialisation. *)
Definition search_results (query : string) : M (list SearchResult) :=
  files ← Glob.glob "**/*.md" (Glob.Options ABSOLUTE_VAULT_PATH ["node_modules/**"]);
  search_loop query files [].

Definition stringify_results (results : list SearchResult) : string :=
  JSON.array ((λ r, JSON.object [("path", hit_path r); ("snippet", snippet r)]) <$> results).

Definition search_notes (args : Arguments) : M CallToolResult :=
  results ← search_results (query args);
  mret (ToolResult (stringify_results results) false).

(** The part of [list_notes] before serialisation. *)
Definition list_results (args : Arguments) : M (list string) :=
  let limit := default 50 (limit args) in
  files ← Glob.glob "**/*.md"
    (Glob.Options ABSOLUTE_VAULT_PATH ["node_modules/**"; ".git/**"; ".obsidian/**"]);
  mret (slice0 files limit).

Definition list_notes (args : Arguments) : M CallToolResult :=
  sliced ← list_results args;
  mret (ToolResult (JSON.array (JSON.quote <$> sliced)) false).

(** The handler of [CallToolRequestSchema]. *)
Definition callTool (name : string) (args : Arguments) : M CallToolResult :=
  try_catch
    (if String.eqb name "read_note" then read_note args
     else if String.eqb name "write_note" then write_note args
     else if String.eqb name "append_to_note" then append_to_note args
     else if String.eqb name "patch_note" then patch_note args
     else if String.eqb name "search_notes" then search_notes args
     else if String.eqb name "list_notes" then list_notes args
     else throw (McpError MethodNotFound ("Unknown tool: " +:+ name)))
    (λ error, mret (ToolResult ("Error: " +:+ message error) true)).

(** The handler of [ListResourcesRequestSchema]. *)
Definition listResources : M (list Resource) :=
  files ← Glob.glob "**/*.md"
    (Glob.Options ABSOLUTE_VAULT_PATH ["node_modules/**"; ".git/**"; ".obsidian/**"]);
  mret ((λ file, {| uri := "obsidian:///" +:+ file; name := file;
                    mimeType := "text/markdown" |}) <$> files).

End Server.

(** ** Notions used in the statements *)

(** [t] occurs in [s] at position [i]. *)
Definition occurs_at (t s : string) (i : nat) : Prop :=
  ∃ pre post, s = pre +:+ t +:+ post ∧ String.length pre = i.

(** [t] is a substring of [s]. *)
Definition occurs (t s : string) : Prop := ∃ i, occurs_at t s i.

(** The first occurrence of [t] in [s] is at position [i]. *)
Definition first_at (t s : string) (i : nat) : Prop :=
  occurs_at t s i ∧ ∀ j, (j < i)%nat → ¬ occurs_at t s j.

Fixpoint dollar_free (s : string) : bool :=
  match s with
  | "" => true
  | String c s' => negb (Ascii.eqb c "$") && dollar_free s'
  end.

Fixpoint has_sep (s : string) : bool :=
  match s with
  | "" => false
  | String c s' => Path.is_sep c || has_sep s'
  end.

(** A segment of a normalised path: not empty, not [.] or [..], without
    separator. *)
Definition plain (seg : string) : Prop :=
  seg ≠ "" ∧ seg ≠ "." ∧ seg ≠ ".." ∧ has_sep seg = false.

(** The normalised segments of a path, and containment of [p] in the
    directory tree rooted at [dir]. *)
Definition segments (p : string) : list string := Path.normalize (Path.split p).

Definition inside_tree (dir p : string) : Prop := segments dir `prefix_of` segments p.

Definition is_file (d : gmap string Disk.node) (p : string) : bool :=
  match Disk.lookup d p with
  | Some (Disk.File _) => true
  | _ => false
  end.

Definition is_dir (d : gmap string Disk.node) (p : string) : bool :=
  match Disk.lookup d p with
  | Some Disk.Dir => true
  | _ => false
  end.

(** No directory above [p] is taken by a regular file. *)
Definition no_file_above (d : gmap string Disk.node) (p : string) : bool :=
  forallb (λ q, negb (is_file d q)) (Path.ancestors p).

(** The text [search_notes] reads for a candidate. *)
Definition content_of (root : string) (d : gmap string Disk.node) (file : string)
    : option string :=
  match getSafePath root file with
  | Return p =>
      match Disk.read d p with
      | inr content => Some content
      | inl _ => None
      end
  | Throw _ => None
  end.

(** What a candidate contributes to the results of a search. *)
Definition hit_of (root : string) (d : gmap string Disk.node) (query file : string)
    : option SearchResult :=
  content ← content_of root d file;
  if is_match file content query then Some (search_hit file content query) else None.

(** The reads of the notes [files], in order. *)
Definition reads (root : string) (files : list string) : list fs_call :=
  (λ file, SysReadFile (Path.resolve root file)) <$> files.

(** The candidates of [search_notes], and those of [list_notes] and of the
    resource listing. *)
Definition search_candidates (root : string) (d : gmap string Disk.node) : list string :=
  Glob.matches "**/*.md" (Glob.Options root ["node_modules/**"]) d.

Definition list_candidates (root : string) (d : gmap string Disk.node) : list string :=
  Glob.matches "**/*.md"
    (Glob.Options root ["node_modules/**"; ".git/**"; ".obsidian/**"]) d.

(** The part of [content] from 50 characters before position [i] to 50
    characters after the [n] characters that start at [i], as far as the
    content reaches. *)
Definition context_window (content : string) (i n : nat) : string :=
  Js.drop (i - 50) (Js.take (i + n + 50) content).

Definition md_pattern : list Glob.part :=
  [Glob.GlobStar; Glob.Seg [Glob.Star; Glob.Lit "."; Glob.Lit "m"; Glob.Lit "d"]].

(** The tools that take a [path] argument. *)
Definition path_tools : list string :=
  ["read_note"; "write_note"; "append_to_note"; "patch_note"].

Definition tools : list string :=
  path_tools ++ ["search_notes"; "list_notes"].

Definition access_denied : CallToolResult :=
  ToolResult "Error: Access denied: Path is outside the vault" true.

(** ** Example vaults *)

Definition no_args : Arguments := Args "" "" "" "" "" None.

(** A vault [/data/vault] next to a directory [/data/vault2]. *)
Definition sibling_disk : gmap string Disk.node :=
  list_to_map [("/data", Disk.Dir); ("/data/vault", Disk.Dir); ("/data/vault2", Disk.Dir)].

(** A vault with one note [x.md] holding the text [x x], and a
    directory [notes]. *)
Definition small_disk : gmap string Disk.node :=
  list_to_map [("/data", Disk.Dir); ("/data/vault", Disk.Dir);
               ("/data/vault/notes", Disk.Dir);
               ("/data/vault/x.md", Disk.File "x x")].

(** The vault of the example of the specification: [a.md] contains
    [hello world], and [hello.md] matches by its name only. *)
Definition hello_disk : gmap string Disk.node :=
  list_to_map [("/data", Disk.Dir); ("/data/vault", Disk.Dir);
               ("/data/vault/a.md", Disk.File "hello world");
               ("/data/vault/hello.md", Disk.File "nothing here")].

(** A vault with one empty note. *)
Definition empty_note_disk : gmap string Disk.node :=
  list_to_map [("/data", Disk.Dir); ("/data/vault", Disk.Dir);
               ("/data/vault/empty.md", Disk.File "")].

(** A vault with the 21 notes [n1.md] ... [n21.md], each holding [todo]. *)
Definition crowded_disk : gmap string Disk.node :=
  list_to_map
    (("/data", Disk.Dir) :: ("/data/vault", Disk.Dir) ::
     ((λ i : nat, ("/data/vault/n" +:+ Js.of_Z (Z.of_nat i) +:+ ".md", Disk.File "todo"))
        <$> seq 1 21)).

Definition crowded_run : outcome (list SearchResult) * world :=
  search_results "/data/vault" "todo" (World crowded_disk []).

Definition crowded_hits : list SearchResult :=
  match crowded_run.1 with
  | Return rs => rs
  | Throw _ => []
  end.

Definition hello_run : outcome (list SearchResult) * world :=
  search_results "/data/vault" "hello" (World hello_disk []).

Definition hello_hits : list SearchResult :=
  match hello_run.1 with
  | Return rs => rs
  | Throw _ => []
  end.

(** A vault with a note and a directory whose name ends in [.md]. *)
Definition directory_note_disk : gmap string Disk.node :=
  list_to_map [("/data", Disk.Dir); ("/data/vault", Disk.Dir);
               ("/data/vault/archive.md", Disk.Dir);
               ("/data/vault/a.md", Disk.File "todo")].

(** A vault with a note, and notes inside [.git] and [.obsidian]. *)
Definition hidden_disk : gmap string Disk.node :=
  list_to_map [("/data", Disk.Dir); ("/data/vault", Disk.Dir);
               ("/data/vault/.git", Disk.Dir);
               ("/data/vault/.git/notes.md", Disk.File "todo");
               ("/data/vault/.obsidian", Disk.Dir);
               ("/data/vault/.obsidian/workspace.md", Disk.File "todo");
               ("/data/vault/a.md", Disk.File "todo")].

(** ** The start of the program *)

Module Startup.

(** One step of [normalizeString] with [allowAboveRoot = true]. *)
Definition normalize_step_above (stack : list string) (seg : string) : list string :=
  if bool_decide (seg = "") || bool_decide (seg = ".") then stack
  else if bool_decide (seg = "..") then
    match stack with
    | top :: rest => if bool_decide (top = "..") then ".." :: stack else rest
    | [] => [".."]
    end
  else seg :: stack.

Definition normalize_above (segs : list string) : list string :=
  rev (fold_left normalize_step_above segs []).

(** The loop of [path.resolve(...paths)]: the arguments from the right,
    then [process.cwd()], until the path built so far is absolute. *)
Fixpoint resolve_loop (paths_rev : list string) (cwd resolvedPath : string) : string * bool :=
  match paths_rev with
  | [] =>
      if bool_decide (cwd = "") then (resolvedPath, false)
      else (cwd +:+ "/" +:+ resolvedPath, Path.isAbsolute cwd)
  | path :: paths_rev' =>
      if bool_decide (path = "") then resolve_loop paths_rev' cwd resolvedPath
      else if Path.isAbsolute path then (path +:+ "/" +:+ resolvedPath, true)
      else resolve_loop paths_rev' cwd (path +:+ "/" +:+ resolvedPath)
  end.

(** [path.resolve(...paths)] in a process whose working directory is
    [cwd]. *)
Definition resolve (cwd : string) (paths : list string) : string :=
  let '(resolvedPath, resolvedAbsolute) := resolve_loop (rev paths) cwd "" in
  if resolvedAbsolute then "/" +:+ Path.join (Path.normalize (Path.split resolvedPath))
  else
    let relative := Path.join (normalize_above (Path.split resolvedPath)) in
    if bool_decide (relative = "") then "." else relative.

(** The first lines of the program: [process.argv[2]] must be there and
    not be empty, or the process exits with status 1; otherwise the root
    of the vault is [path.resolve(VAULT_PATH)]. *)
Definition start (cwd : string) (argv2 : option string) : nat + string :=
  match argv2 with
  | None => inl 1%nat
  | Some VAULT_PATH =>
      if bool_decide (VAULT_PATH = "") then inl 1%nat
      else inr (resolve cwd [VAULT_PATH])
  end.

End Startup.

(** ** The list of tools *)

(** A tool as [ListTools] advertises it: its name, its description, the
    properties of its input schema with their types, and the properties
    the schema requires (none for [list_notes], whose schema has no
    [required]). *)
Record Tool := {
  tool_name : string;
  tool_description : string;
  tool_properties : list (string * string);
  tool_required : list string
}.

(** The handler of [ListToolsRequestSchema]. *)
Definition listTools : list Tool :=
  [ {| tool_name := "read_note";
       tool_description := "Read the content of a note in the Obsidian vault";
       tool_properties := [("path", "string")];
       tool_required := ["path"] |};
    {| tool_name := "write_note";
       tool_description := "Create or overwrite a note in the Obsidian vault";
       tool_properties := [("path", "string"); ("content", "string")];
       tool_required := ["path"; "content"] |};
    {| tool_name := "append_to_note";
       tool_description := "Append text to the end of an existing note";
       tool_properties := [("path", "string"); ("content", "string")];
       tool_required := ["path"; "content"] |};
    {| tool_name := "patch_note";
       tool_description := "Replace specific text in a note with new text";
       tool_properties := [("path", "string"); ("old_text", "string"); ("new_text", "string")];
       tool_required := ["path"; "old_text"; "new_text"] |};
    {| tool_name := "search_notes";
       tool_description := "Search for notes containing a specific query string";
       tool_properties := [("query", "string")];
       tool_required := ["query"] |};
    {| tool_name := "list_notes";
       tool_description := "List all markdown files in the vault";
       tool_properties := [("limit", "number")];
       tool_required := [] |} ].

(** ** Reading a resource *)

(** An element of [contents] in the answer to [ReadResource]. *)
Record ResourceContents := {
  contents_uri : string;
  contents_mimeType : string;
  contents_text : string
}.

(** [s.replace(/^\//, "")] *)
Definition strip_leading_slash (s : string) : string :=
  match s with
  | String c s' => if Path.is_sep c then s' else s
  | "" => ""
  end.

Section ReadResource.

Variable ABSOLUTE_VAULT_PATH : string.

(** [new URL(uri).pathname] and [decodeURIComponent(s)], which return a
    string or throw ([TypeError], [URIError]).  The WHATWG URL parser and
    the decoder are not embedded: the handler is modelled for whatever
    they do. *)
Variable URL_pathname : string → outcome string.
Variable decodeURIComponent : string → outcome string.

(** The handler of [ReadResourceRequestSchema]. *)
Definition readResource (uri : string) : M ResourceContents :=
  pathname ← lift (URL_pathname uri);
  decoded ← lift (decodeURIComponent pathname);
  let relativePath := strip_leading_slash decoded in
  safePath ← lift (getSafePath ABSOLUTE_VAULT_PATH relativePath);
  content ← Fs.readFile safePath;
  mret {| contents_uri := uri; contents_mimeType := "text/markdown";
          contents_text := content |}.

End ReadResource.

(** ** Notions used in the further properties *)

(** The answer to a call of a tool the dispatcher does not know. *)
Definition unknown_tool_result (name : string) : CallToolResult :=
  ToolResult ("Error: MCP error -32601: Unknown tool: " +:+ name) true.

(** The tools that write. *)
Definition writers : list string := ["write_note"; "append_to_note"; "patch_note"].

(** [m] relates the disk it starts on to the disk it leaves by [R],
    whether it returns or throws. *)
Definition keeps (R : relation (gmap string Disk.node)) {A} (m : M A) : Prop :=
  ∀ w, R (disk w) (disk (m w).2).

(** Every entry other than [p] is still there, unchanged. *)
Definition same_except (p : string) (d d' : gmap string Disk.node) : Prop :=
  ∀ q n, q ≠ p → Disk.lookup d q = Some n → Disk.lookup d' q = Some n.

(** Every entry is still there and has kept its kind: a note is a note,
    a directory a directory. *)
Definition same_kinds (d d' : gmap string Disk.node) : Prop :=
  ∀ q n, Disk.lookup d q = Some n →
         ∃ n', Disk.lookup d' q = Some n' ∧ Fs.isFile n' = Fs.isFile n.

(** A file-system call on a path the guard has accepted, on the
    directory of such a path, or a scan of the vault. *)
Definition guarded (root : string) (c : fs_call) : Prop :=
  match c with
  | SysScan cwd => cwd = root
  | SysMkdir q => ∃ rel p, getSafePath root rel = Return p ∧ q = Path.dirname p
  | SysStat p | SysReadFile p | SysWriteFile p _ | SysAppendFile p _ =>
      ∃ rel, getSafePath root rel = Return p
  end.

(** [m] adds to the log only calls that satisfy [P], whether it returns
    or throws. *)
Definition logs (P : fs_call → Prop) {A} (m : M A) : Prop :=
  ∀ w, ∃ cs, trace (m w).2 = trace w ++ cs ∧ Forall P cs.

(** The text of the note at [p]; empty when there is no note there. *)
Definition text_at (d : gmap string Disk.node) (p : string) : string :=
  match Disk.lookup d p with
  | Some (Disk.File data) => data
  | _ => ""
  end.

(** A string without line feed. *)
Fixpoint single_line (s : string) : bool :=
  match s with
  | "" => true
  | String c s' => negb (Ascii.eqb c "010") && single_line s'
  end.

(** [p] is an absolute path in normal form: a slash followed by plain
    segments separated by single slashes. *)
Definition normal (p : string) : bool :=
  String.eqb ("/" +:+ Path.join (segments p)) p.

(** Every entry of the disk is filed under an absolute path in normal
    form. *)
Definition normal_keys (d : gmap string Disk.node) : bool :=
  forallb normal (map_to_list d).*1.

(** ** A tactic for the case analyses of the dispatcher

    [settle_outcome Hthrow Hin] closes a case of what a tool returns or
    throws; [Hthrow] tells what the guard throws and [Hin] that the six
    names are tools. *)
Ltac settle_outcome Hthrow Hin :=
  repeat match goal with
         | H : getSafePath _ _ = Throw ?e |- _ =>
             pose proof (proj2 (proj1 (Hthrow _ _ _) H)); clear H; subst e
         end;
  first [ done
        | intros _; split; [done|];
          first [by eexists | by exists (Error "Path exists but is not a file")]
        | left; split; [apply Hin; repeat constructor|done]
        | right; left; done
        | right; right; left; split; [apply Hin; repeat constructor|by eexists] ].

(** ** The embedded primitives on examples *)

Example resolve_inside :
  Path.resolve "/data/vault" "Daily/2024-01-01.md" = "/data/vault/Daily/2024-01-01.md".
Proof. reflexivity. Qed.

Example resolve_traversal : Path.resolve "/data/vault" "../../etc/passwd" = "/etc/passwd".
Proof. reflexivity. Qed.

Example resolve_absolute : Path.resolve "/data/vault" "/etc//passwd/." = "/etc/passwd".
Proof. reflexivity. Qed.

Example resolve_empty : Path.resolve "/data/vault" "" = "/data/vault".
Proof. reflexivity. Qed.

Example resolve_above_root : Path.resolve "/data/vault" "../../../.." = "/".
Proof. reflexivity. Qed.

Example dirname_note : Path.dirname "/data/vault/a.md" = "/data/vault".
Proof. reflexivity. Qed.

Example dirname_top : Path.dirname "/a" = "/".
Proof. reflexivity. Qed.

Example dirname_slashes : Path.dirname "/a//b//" = "/a/".
Proof. reflexivity. Qed.

Example replace_first_only : Js.replace "x x" "x" "y" = "y x".
Proof. reflexivity. Qed.

Example replace_template : Js.replace "a-b-c" "-" "[$&$$$`$'$1]" = "a[-$ab-c$1]b-c".
Proof. reflexivity. Qed.

Example substring_swaps : Js.substring "abcdef" 4 2 = "cd".
Proof. reflexivity. Qed.

Example toLowerCase_ascii : Js.toLowerCase "Hello World.MD" = "hello world.md".
Proof. reflexivity. Qed.

Example minimatch_nested : Glob.minimatch false "**/*.md" "Daily/2024/01.md" = true.
Proof. reflexivity. Qed.

Example minimatch_hidden_directory :
  Glob.minimatch false "**/*.md" ".obsidian/workspace.md" = false
  ∧ Glob.minimatch true "**/*.md" ".obsidian/workspace.md" = true.
Proof. split; reflexivity. Qed.

Example minimatch_ignore : Glob.minimatch true "node_modules/**" "node_modules/a/b.md" = true.
Proof. reflexivity. Qed.

Example denied_example :
  callTool "/data/vault" "read_note" (Args "../../etc/passwd" "" "" "" "" None)
    (World small_disk [])
  = (Return access_denied, World small_disk []).
Proof. reflexivity. Qed.

Example list_notes_example :
  (callTool "/data/vault" "list_notes" (Args "" "" "" "" "" (Some 1))
     (World hello_disk [])).1
  = Return (ToolResult (JSON.array [JSON.quote "a.md"]) false).
Proof. vm_compute. reflexivity. Qed.

(** ** Facts about strings *)

Section StringFacts.

Implicit Types s t u p : string.

Lemma string_app_cons c s t : String c s +:+ t = String c (s +:+ t).
Proof. reflexivity. Qed.

Lemma string_app_nil_r s : s +:+ "" = s.
Proof. induction s as [|c s IH]; [done|]. by rewrite string_app_cons, IH. Qed.

Lemma string_app_assoc s t u : (s +:+ t) +:+ u = s +:+ t +:+ u.
Proof. induction s as [|c s IH]; [done|]. by rewrite !string_app_cons, IH. Qed.

Lemma string_length_app s t :
  String.length (s +:+ t) = (String.length s + String.length t)%nat.
Proof. induction s as [|c s IH]; [done|]. rewrite string_app_cons. simpl. by rewrite IH. Qed.

Lemma string_take_drop n s : Js.take n s +:+ Js.drop n s = s.
Proof.
  revert s. induction n as [|n IH]; intros [|c s]; try done.
  simpl. by rewrite string_app_cons, IH.
Qed.

Lemma string_length_take n s : String.length (Js.take n s) = (n `min` String.length s)%nat.
Proof.
  revert s. induction n as [|n IH]; intros [|c s]; try done.
  simpl. by rewrite IH.
Qed.

Lemma string_length_drop n s : String.length (Js.drop n s) = (String.length s - n)%nat.
Proof. revert s. induction n as [|n IH]; intros [|c s]; try done. simpl. apply IH. Qed.

Lemma string_take_app_length s t : Js.take (String.length s) (s +:+ t) = s.
Proof.
  induction s as [|c s IH]; [by destruct t|].
  rewrite string_app_cons. simpl. by rewrite IH.
Qed.

Lemma string_drop_app_length s t : Js.drop (String.length s) (s +:+ t) = t.
Proof. induction s as [|c s IH]; [done|]. rewrite string_app_cons. simpl. apply IH. Qed.

Lemma string_drop_drop n m s : Js.drop n (Js.drop m s) = Js.drop (m + n) s.
Proof.
  revert s. induction m as [|m IH]; intros s; [done|].
  destruct s as [|c s]; [by destruct n|]. simpl. apply IH.
Qed.

Lemma string_drop_all n s : (String.length s ≤ n)%nat → Js.drop n s = "".
Proof.
  revert s. induction n as [|n IH]; intros [|c s] Hn; simpl in *; try done; try lia.
  apply IH. lia.
Qed.

Lemma string_length_zero s : String.length s = 0%nat → s = "".
Proof. by destruct s. Qed.

Lemma string_length_map f s : String.length (Js.map f s) = String.length s.
Proof. induction s as [|c s IH]; [done|]. simpl. by rewrite IH. Qed.

Lemma startsWith_app s t : Js.startsWith (s +:+ t) s = true.
Proof.
  induction s as [|c s IH]; [by destruct t|].
  rewrite string_app_cons. simpl. by rewrite Ascii.eqb_refl.
Qed.

Lemma startsWith_inv s p : Js.startsWith s p = true → s = p +:+ Js.drop (String.length p) s.
Proof.
  revert s. induction p as [|a p IH]; intros s Hs; [done|].
  destruct s as [|b s]; [done|]. simpl in Hs.
  destruct (Ascii.eqb_spec a b) as [->|]; [|done].
  rewrite string_app_cons. simpl. f_equal. by apply IH.
Qed.

Lemma startsWith_spec s p : Js.startsWith s p = true ↔ ∃ t, s = p +:+ t.
Proof.
  split.
  - intros Hs. eexists. by apply startsWith_inv.
  - intros [t ->]. apply startsWith_app.
Qed.

Lemma occurs_at_iff t s i :
  occurs_at t s i ↔ (i ≤ String.length s)%nat ∧ Js.startsWith (Js.drop i s) t = true.
Proof.
  split.
  - intros (pre & post & -> & <-). split.
    + rewrite string_length_app. lia.
    + rewrite string_drop_app_length. apply startsWith_app.
  - intros [Hi Hs]. apply startsWith_inv in Hs.
    exists (Js.take i s), (Js.drop (String.length t) (Js.drop i s)). split.
    + rewrite <- Hs. symmetry. apply string_take_drop.
    + rewrite string_length_take. lia.
Qed.

Lemma StringIndexOf_unfold s t :
  Js.StringIndexOf s t =
    if Js.startsWith s t then Some 0%nat
    else match s with
         | "" => None
         | String _ s' => S <$> Js.StringIndexOf s' t
         end.
Proof. by destruct s. Qed.

Lemma StringIndexOf_bound s t i :
  Js.StringIndexOf s t = Some i → (i ≤ String.length s)%nat.
Proof.
  revert i. induction s as [|c s IH]; intros i; rewrite StringIndexOf_unfold.
  - destruct (Js.startsWith "" t); intros; simplify_eq/=; lia.
  - destruct (Js.startsWith (String c s) t); [intros; simplify_eq; lia|].
    destruct (Js.StringIndexOf s t) as [k|]; intros; simplify_eq/=.
    specialize (IH _ eq_refl). lia.
Qed.

(** [StringIndexOf] finds the first occurrence. *)
Lemma StringIndexOf_Some s t i :
  Js.StringIndexOf s t = Some i ↔ first_at t s i.
Proof.
  unfold first_at. setoid_rewrite occurs_at_iff.
  revert i. induction s as [|c s IH]; intros i; rewrite StringIndexOf_unfold.
  - destruct (Js.startsWith "" t) eqn:Ht.
    + split.
      * intros [= <-]. split; [done|]. intros; lia.
      * intros [[Hi _] _]. f_equal. simpl in Hi. lia.
    + split; [done|]. intros [[Hi Hs] _].
      assert (i = 0%nat) as -> by (simpl in Hi; lia).
      change (Js.drop 0 "") with "" in Hs. congruence.
  - destruct (Js.startsWith (String c s) t) eqn:Ht.
    + split.
      * intros [= <-]. split; [split; [lia|done]|]. intros; lia.
      * intros [_ Hmin]. destruct i as [|i]; [done|].
        destruct (Hmin 0%nat); [lia|]. split; [lia|done].
    + split.
      * destruct (Js.StringIndexOf s t) as [k|] eqn:Hk; [|done].
        intros [= <-]. destruct (proj1 (IH k) eq_refl) as [[Hk' Hs] Hmin].
        split; [split; [simpl; lia|done]|].
        intros [|j] Hj [? Hj'].
        { change (Js.drop 0 (String c s)) with (String c s) in Hj'. congruence. }
        apply (Hmin j); [lia|]. split; [simpl in *; lia|done].
      * intros [[Hi Hs] Hmin]. destruct i as [|i].
        { change (Js.drop 0 (String c s)) with (String c s) in Hs. congruence. }
        rewrite (proj2 (IH i)); [done|].
        split; [split; [simpl in *; lia|done]|].
        intros j Hj [? Hj']. apply (Hmin (S j)); [lia|]. split; [simpl; lia|done].
Qed.

Lemma StringIndexOf_None_inv s t j :
  Js.StringIndexOf s t = None → (j ≤ String.length s)%nat →
  Js.startsWith (Js.drop j s) t = false.
Proof.
  revert j. induction s as [|c s IH]; intros j; rewrite StringIndexOf_unfold.
  - destruct (Js.startsWith "" t) eqn:Ht; [done|]. intros _ Hj.
    by assert (j = 0%nat) as -> by (simpl in Hj; lia).
  - destruct (Js.startsWith (String c s) t) eqn:Ht; [done|].
    destruct (Js.StringIndexOf s t) as [k|] eqn:Hk; [done|]. intros _ Hj.
    destruct j as [|j]; [done|]. apply (IH j eq_refl). simpl in Hj. lia.
Qed.

(** [StringIndexOf] fails exactly when there is no occurrence. *)
Lemma StringIndexOf_None s t : Js.StringIndexOf s t = None ↔ ¬ occurs t s.
Proof.
  split.
  - intros Hnone [i [Hi Hs]%occurs_at_iff].
    rewrite (StringIndexOf_None_inv _ _ _ Hnone Hi) in Hs. done.
  - intros Hno. destruct (Js.StringIndexOf s t) as [k|] eqn:Hk; [|done].
    destruct Hno. exists k. by apply StringIndexOf_Some in Hk as [? _].
Qed.

(** [includes] decides the substring relation. *)
Lemma includes_spec s t : Js.includes s t = true ↔ occurs t s.
Proof.
  unfold Js.includes, Js.indexOf.
  destruct (Js.StringIndexOf s t) as [k|] eqn:Hk.
  - split; [|intros _; apply negb_true_iff, Z.eqb_neq; lia].
    intros _. exists k. by apply StringIndexOf_Some in Hk as [? _].
  - split; [done|]. intros Hocc. by apply StringIndexOf_None in Hk.
Qed.

Lemma includes_false s t : Js.includes s t = false ↔ ¬ occurs t s.
Proof. rewrite <- includes_spec. by destruct (Js.includes s t). Qed.

(** A decomposition of [s] around an occurrence determines the pieces
    [take] and [drop] cut out. *)
Lemma occurrence_pieces pre t post :
  Js.take (String.length pre) (pre +:+ t +:+ post) = pre
  ∧ Js.drop (String.length pre + String.length t) (pre +:+ t +:+ post) = post.
Proof.
  split; [apply string_take_app_length|].
  by rewrite <- string_drop_drop, !string_drop_app_length.
Qed.

Lemma GetSubstitution_literal matched preceding following template :
  dollar_free template = true →
  Js.GetSubstitution matched preceding following template = template.
Proof.
  induction template as [|c r IH]; [done|].
  intros [Hc Hr]%andb_true_iff.
  assert (Js.GetSubstitution matched preceding following (String c r)
          = String c (Js.GetSubstitution matched preceding following r)) as ->.
  { destruct c as [[] [] [] [] [] [] [] []]; done. }
  by rewrite IH.
Qed.

(** [replace] cuts the string at the first occurrence of the pattern
    and puts the expanded template in its place. *)
Lemma replace_first s pattern replacement pre post :
  s = pre +:+ pattern +:+ post →
  first_at pattern s (String.length pre) →
  Js.replace s pattern replacement =
    pre +:+ Js.GetSubstitution pattern pre post replacement +:+ post.
Proof.
  intros -> Hfirst. unfold Js.replace.
  apply StringIndexOf_Some in Hfirst as ->.
  by destruct (occurrence_pieces pre pattern post) as [-> ->].
Qed.

Lemma replace_absent s pattern replacement :
  ¬ occurs pattern s → Js.replace s pattern replacement = s.
Proof. intros Hno%StringIndexOf_None. unfold Js.replace. by rewrite Hno. Qed.

End StringFacts.

(** ** The path guard *)

Section Guard.

Variable root : string.

Lemma getSafePath_Return rel p :
  getSafePath root rel = Return p ↔
  p = Path.resolve root rel ∧ Js.startsWith p root = true.
Proof.
  unfold getSafePath.
  destruct (Js.startsWith (Path.resolve root rel) root) eqn:Hs; simpl.
  - split; [by intros [= <-]|]. by intros [-> _].
  - split; [done|]. intros [-> ?]. congruence.
Qed.

Lemma getSafePath_Throw rel e :
  getSafePath root rel = Throw e ↔
  Js.startsWith (Path.resolve root rel) root = false
  ∧ e = Error "Access denied: Path is outside the vault".
Proof.
  unfold getSafePath.
  destruct (Js.startsWith (Path.resolve root rel) root) eqn:Hs; simpl.
  - split; [done|]. by intros [? _].
  - split; [by intros [= <-]|]. by intros [_ ->].
Qed.

(** A resolution that does not extend the root as a string is refused. *)
Lemma getSafePath_denied rel :
  (¬ ∃ t, Path.resolve root rel = root +:+ t) →
  getSafePath root rel = Throw (Error "Access denied: Path is outside the vault").
Proof.
  intros Hno. apply getSafePath_Throw. split; [|done].
  destruct (Js.startsWith (Path.resolve root rel) root) eqn:Hs; [|done].
  destruct Hno. by apply startsWith_spec.
Qed.

(** Whatever the guard returns extends the root as a string. *)
Lemma getSafePath_prefix rel p :
  getSafePath root rel = Return p → ∃ t, p = root +:+ t.
Proof. intros [_ Hs]%getSafePath_Return. by apply startsWith_spec. Qed.

(** A tool whose path is refused answers with the error result and makes
    no file-system call at all: the world, log included, is the one it
    started in. *)
Lemma denied_without_effect name args e w :
  name ∈ path_tools →
  getSafePath root (path args) = Throw e →
  callTool root name args w = (Return access_denied, w).
Proof.
  intros Hname Hp. pose proof Hp as [_ ->]%getSafePath_Throw.
  unfold path_tools in Hname. unfold callTool, try_catch.
  repeat (apply elem_of_cons in Hname as [->|Hname]);
    [| | | |by apply elem_of_nil in Hname]; simpl;
    unfold read_note, write_note, append_to_note, patch_note, mbind, M_bind, lift;
    by rewrite Hp.
Qed.

(** The dispatcher never rejects: every call, of a known tool or not,
    is answered with an ordinary result. *)
Lemma callTool_returns name args w :
  ∃ r w', callTool root name args w = (Return r, w').
Proof.
  unfold callTool, try_catch.
  match goal with |- context [ match ?b w with _ => _ end ] => destruct (b w) as [[r|e] w'] end;
    eauto.
Qed.

Lemma unknown_tool name args w :
  name ∉ tools →
  callTool root name args w =
    (Return (ToolResult ("Error: MCP error -32601: Unknown tool: " +:+ name) true), w).
Proof.
  intros Hname. unfold callTool, try_catch.
  repeat match goal with
         | |- context [ String.eqb name ?t ] =>
             destruct (String.eqb_spec name t) as [->|_];
             [destruct Hname; unfold tools, path_tools; set_solver|]
         end.
  reflexivity.
Qed.

End Guard.

(** ** Normalised paths and the neighbours of the vault *)

Lemma split_cons c s :
  Path.split (String c s) =
    if Path.is_sep c then "" :: Path.split s
    else match Path.split s with
         | seg :: segs => String c seg :: segs
         | [] => [String c ""]
         end.
Proof. reflexivity. Qed.

Lemma split_segment x rest :
  has_sep x = false → Path.split (x +:+ "/" +:+ rest) = x :: Path.split rest.
Proof.
  induction x as [|c x IH]; [done|].
  intros [Hc Hx]%orb_false_iff. rewrite string_app_cons, split_cons, Hc.
  by rewrite IH.
Qed.

Lemma split_last x : has_sep x = false → Path.split x = [x].
Proof.
  induction x as [|c x IH]; [done|].
  intros [Hc Hx]%orb_false_iff. by rewrite split_cons, Hc, IH.
Qed.

Lemma split_join segs :
  segs ≠ [] → Forall (λ seg, has_sep seg = false) segs →
  Path.split (Path.join segs) = segs.
Proof.
  induction segs as [|x [|y segs] IH]; [done| |].
  - intros _ [Hx _]%Forall_cons. by apply split_last.
  - intros _ [Hx Hall]%Forall_cons.
    change (Path.join (x :: y :: segs)) with (x +:+ "/" +:+ Path.join (y :: segs)).
    rewrite split_segment by done. by rewrite IH.
Qed.

Lemma join_app xs ys :
  xs ≠ [] → ys ≠ [] → Path.join (xs ++ ys) = Path.join xs +:+ "/" +:+ Path.join ys.
Proof.
  induction xs as [|x [|x' xs] IH]; [done| |]; intros _ Hys.
  - by destruct ys.
  - change (Path.join ((x :: x' :: xs) ++ ys))
      with (x +:+ "/" +:+ Path.join ((x' :: xs) ++ ys)).
    rewrite IH by done.
    change (Path.join (x :: x' :: xs)) with (x +:+ "/" +:+ Path.join (x' :: xs)).
    by rewrite !string_app_assoc.
Qed.

Lemma join_cons x segs :
  segs ≠ [] → Path.join (x :: segs) = x +:+ "/" +:+ Path.join segs.
Proof. by destruct segs. Qed.

Lemma join_snoc_extend xs b s :
  Path.join (xs ++ [b +:+ s]) = Path.join (xs ++ [b]) +:+ s.
Proof.
  destruct xs as [|x xs]; [done|].
  rewrite !join_app by done. simpl. by rewrite !string_app_assoc.
Qed.

Lemma normalize_step_plain stack seg :
  plain seg → Path.normalize_step stack seg = seg :: stack.
Proof.
  intros (? & ? & ? & _). unfold Path.normalize_step.
  by rewrite !bool_decide_eq_false_2.
Qed.

Lemma fold_normalize_plain segs stack :
  Forall plain segs →
  fold_left Path.normalize_step segs stack = rev segs ++ stack.
Proof.
  revert stack. induction segs as [|seg segs IH]; intros stack; [done|].
  intros [Hseg Hall]%Forall_cons. simpl.
  rewrite normalize_step_plain, IH by done. by rewrite <- (assoc_L (++)).
Qed.

Lemma plain_no_sep segs : Forall plain segs → Forall (λ seg, has_sep seg = false) segs.
Proof. intros Hall. eapply Forall_impl; [exact Hall|]. by intros seg (_ & _ & _ & ?). Qed.

(** The segments of a normalised absolute path. *)
Lemma segments_normalised segs :
  Forall plain segs → segments ("/" +:+ Path.join segs) = segs.
Proof.
  intros Hall. unfold segments, Path.normalize.
  change ("/" +:+ Path.join segs) with ("" +:+ "/" +:+ Path.join segs).
  rewrite split_segment by done. simpl.
  destruct segs as [|x segs]; [done|].
  rewrite split_join by (done || by apply plain_no_sep).
  rewrite fold_normalize_plain by done. by rewrite app_nil_r, rev_involutive.
Qed.

Lemma has_sep_app s t : has_sep (s +:+ t) = has_sep s || has_sep t.
Proof.
  induction s as [|c s IH]; [done|]. rewrite string_app_cons. simpl.
  by rewrite IH, orb_assoc.
Qed.

Lemma string_app_nil_inv s t : s +:+ t = "" → s = "" ∧ t = "".
Proof.
  destruct s as [|c s]; [|by rewrite string_app_cons].
  change ("" +:+ t) with t. by intros ->.
Qed.

Lemma plain_extend b s : plain b → has_sep s = false → plain (b +:+ s).
Proof.
  intros (Hb & Hdot & Hdots & Hsep) Hs. split_and!.
  - by intros [-> _]%string_app_nil_inv.
  - destruct b as [|c b]; [done|]. rewrite string_app_cons.
    by intros [= -> [-> ->]%string_app_nil_inv].
  - destruct b as [|c b]; [done|]. rewrite string_app_cons.
    intros [= -> Heq]. destruct b as [|c' b]; [done|].
    rewrite string_app_cons in Heq. injection Heq as -> Heq.
    by apply string_app_nil_inv in Heq as [-> ->].
  - by rewrite has_sep_app, Hsep, Hs.
Qed.

(** Any directory next to the vault whose name extends the name of the
    vault passes the guard: from the vault [/xs/b], the relative path
    [../bs/file] resolves to [/xs/bs/file], which extends the root as a
    string and lies outside its directory tree. *)
Lemma sibling_accepted xs b s file :
  Forall plain (xs ++ [b]) → has_sep s = false → s ≠ "" → plain file →
  let root := "/" +:+ Path.join (xs ++ [b]) in
  let target := root +:+ s +:+ "/" +:+ file in
  getSafePath root ("../" +:+ b +:+ s +:+ "/" +:+ file) = Return target
  ∧ ¬ inside_tree root target.
Proof.
  intros Hroot Hs Hne Hfile root target.
  pose proof Hroot as [Hxs [Hb _]%Forall_cons]%Forall_app.
  pose proof (plain_extend b s Hb Hs) as Hbs.
  assert (target = "/" +:+ Path.join (xs ++ [b +:+ s; file])) as Htarget.
  { unfold target, root.
    replace (xs ++ [b +:+ s; file]) with ((xs ++ [b +:+ s]) ++ [file])
      by (by rewrite <- (assoc_L (++))).
    rewrite (join_app (xs ++ [b +:+ s]) [file]); [|by intros [_ ?]%app_eq_nil|done].
    rewrite join_snoc_extend. simpl. by rewrite !string_app_assoc. }
  assert (Path.resolve root ("../" +:+ b +:+ s +:+ "/" +:+ file) = target) as Hresolve.
  { rewrite Htarget. unfold Path.resolve.
    rewrite bool_decide_eq_false_2 by done.
    change (Path.isAbsolute ("../" +:+ b +:+ s +:+ "/" +:+ file)) with false.
    cbv beta iota zeta.
    assert (root +:+ "/" +:+ ("../" +:+ b +:+ s +:+ "/" +:+ file) +:+ "/"
            = Path.join (("" :: xs ++ [b]) ++ [".."; b +:+ s; file; ""])) as ->.
    { rewrite join_app by done. unfold root.
      rewrite (join_cons "" (xs ++ [b])) by (by intros [_ ?]%app_eq_nil).
      rewrite !join_cons by done. by rewrite !string_app_assoc. }
    rewrite split_join; [|done|].
    2:{ apply Forall_app. split; [constructor; [done|by apply plain_no_sep]|].
        destruct Hbs as (_ & _ & _ & ?), Hfile as (_ & _ & _ & ?).
        by repeat constructor. }
    unfold Path.normalize. simpl. rewrite fold_left_app. simpl.
    change (Path.normalize_step [] "") with (@nil string).
    rewrite (fold_normalize_plain (xs ++ [b])) by done.
    rewrite rev_app_distr, app_nil_r. simpl.
    change (Path.normalize_step (b :: rev xs) "..") with (rev xs).
    rewrite (normalize_step_plain _ _ Hbs), (normalize_step_plain _ _ Hfile).
    change (Path.normalize_step (file :: (b +:+ s) :: rev xs) "")
      with (file :: (b +:+ s) :: rev xs).
    simpl. rewrite rev_involutive. by rewrite <- !(assoc_L (++)). }
  split.
  - apply getSafePath_Return. split; [done|].
    unfold target. apply startsWith_app.
  - unfold inside_tree.
    assert (segments root = xs ++ [b]) as -> by (by apply segments_normalised).
    assert (segments target = xs ++ [b +:+ s; file]) as ->.
    { rewrite Htarget. apply segments_normalised.
      apply Forall_app. split; [done|]. by repeat (constructor; [done|]). }
    intros [k Hk]. rewrite <- (assoc_L (++)) in Hk.
    apply app_inv_head in Hk. simpl in Hk. injection Hk as Hbeq _.
    destruct Hne. apply (f_equal String.length) in Hbeq.
    rewrite string_length_app in Hbeq. apply string_length_zero. lia.
Qed.

(** C1.  The guard compares strings: a traversal that leaves the vault for
    a sibling directory whose name extends the vault's is not refused.
    With the vault at [/data/vault], the path [../vault2/secret.md]
    resolves to [/data/vault2/secret.md], outside the vault's directory
    tree, and [getSafePath] returns it. *)
Theorem traversal_to_sibling_not_refused :
  Path.resolve "/data/vault" "../vault2/secret.md" = "/data/vault2/secret.md"
  ∧ ¬ inside_tree "/data/vault" "/data/vault2/secret.md"
  ∧ getSafePath "/data/vault" "../vault2/secret.md" = Return "/data/vault2/secret.md".
Proof.
  split; [reflexivity|]. split; [|reflexivity].
  intros [k Hk]. vm_compute in Hk. simplify_eq.
Qed.

(** C9.  There is a relative path that resolves outside the vault's
    directory tree and that [getSafePath] accepts and returns: the sibling
    [/data/vault2] of the vault [/data/vault] extends its path as a
    string.  Through it [write_note] creates a file in the sibling
    directory, [read_note] reads it back, and [append_to_note] and
    [patch_note] change it. *)
Theorem sibling_directory_escape :
  ∃ root rel p w,
    getSafePath root rel = Return p
    ∧ ¬ inside_tree root p
    ∧ ∃ w1 w2,
        callTool root "write_note" (Args rel "secret" "" "" "" None) w
          = (Return (ToolResult ("Successfully wrote to " +:+ rel) false), w1)
        ∧ disk w !! p = None
        ∧ disk w1 !! p = Some (Disk.File "secret")
        ∧ callTool root "read_note" (Args rel "" "" "" "" None) w1
          = (Return (ToolResult "secret" false), w2)
        ∧ (callTool root "append_to_note" (Args rel "more" "" "" "" None) w1).1
          = Return (ToolResult ("Successfully appended to " +:+ rel) false)
        ∧ (callTool root "patch_note" (Args rel "" "secret" "public" "" None) w1).1
          = Return (ToolResult ("Successfully patched " +:+ rel) false).
Proof.
  exists "/data/vault", "../vault2/secret.md", "/data/vault2/secret.md",
    (World sibling_disk []).
  split; [reflexivity|]. split.
  { intros [k Hk]. vm_compute in Hk. simplify_eq. }
  eexists _, _. split; [vm_compute; reflexivity|].
  split; [reflexivity|]. split; [reflexivity|].
  split; [vm_compute; reflexivity|]. split; vm_compute; reflexivity.
Qed.

(** ** Appending and patching *)

Section Notes.

Variable root : string.

(** Appending to an existing note puts a newline and the new text after
    the old text. *)
Lemma append_to_existing args w p old :
  getSafePath root (path args) = Return p →
  Disk.lookup (disk w) p = Some (Disk.File old) →
  callTool root "append_to_note" args w =
    (Return (ToolResult ("Successfully appended to " +:+ path args) false),
     World (<[p := Disk.File (old +:+ JSON.nl +:+ content args)]> (disk w))
           (trace w ++ [SysAppendFile p (JSON.nl +:+ content args)])).
Proof.
  intros Hp Hold. unfold callTool, try_catch. simpl.
  unfold append_to_note, mbind, M_bind, lift. rewrite Hp.
  unfold Fs.appendFile, Fs.update, Disk.append, Disk.open_create.
  by rewrite Hold.
Qed.

(** Appending to a note that does not exist, in a directory that does,
    creates the note. *)
Lemma append_to_missing args w p :
  getSafePath root (path args) = Return p →
  Disk.lookup (disk w) p = None →
  Disk.lookup (disk w) (Path.dirname p) = Some Disk.Dir →
  callTool root "append_to_note" args w =
    (Return (ToolResult ("Successfully appended to " +:+ path args) false),
     World (<[p := Disk.File (JSON.nl +:+ content args)]> (disk w))
           (trace w ++ [SysAppendFile p (JSON.nl +:+ content args)])).
Proof.
  intros Hp Hnone Hdir. unfold callTool, try_catch. simpl.
  unfold append_to_note, mbind, M_bind, lift. rewrite Hp.
  unfold Fs.appendFile, Fs.update, Disk.append, Disk.open_create.
  by rewrite Hnone, Hdir.
Qed.

(** Appending to a note that does not exist, in a directory that does
    not exist either, fails and creates nothing. *)
Lemma append_without_directory args w p :
  getSafePath root (path args) = Return p →
  Disk.lookup (disk w) p = None →
  Disk.lookup (disk w) (Path.dirname p) ≠ Some Disk.Dir →
  callTool root "append_to_note" args w =
    (Return (ToolResult
       ("Error: " +:+ message (SystemError (Disk.absent (disk w) "open" p))) true),
     log (SysAppendFile p (JSON.nl +:+ content args)) w).
Proof.
  intros Hp Hnone Hdir. unfold callTool, try_catch. simpl.
  unfold append_to_note, mbind, M_bind, lift. rewrite Hp.
  unfold Fs.appendFile, Fs.update, Disk.append, Disk.open_create.
  rewrite Hnone. by destruct (Disk.lookup (disk w) (Path.dirname p)) as [[]|].
Qed.

(** With a string pattern, [patch_note] rewrites the note around the
    first occurrence of [old_text]; what it puts there is the expansion
    of [new_text] as a replacement template. *)
Lemma patch_first_occurrence args w p pre post :
  getSafePath root (path args) = Return p →
  Disk.lookup (disk w) p = Some (Disk.File (pre +:+ old_text args +:+ post)) →
  first_at (old_text args) (pre +:+ old_text args +:+ post) (String.length pre) →
  let new := Js.GetSubstitution (old_text args) pre post (new_text args) in
  callTool root "patch_note" args w =
    (Return (ToolResult ("Successfully patched " +:+ path args) false),
     World (<[p := Disk.File (pre +:+ new +:+ post)]> (disk w))
           (trace w ++ [SysReadFile p; SysWriteFile p (pre +:+ new +:+ post)])).
Proof.
  intros Hp Hold Hfirst new. unfold callTool, try_catch. simpl.
  unfold patch_note, mbind, M_bind, lift. rewrite Hp.
  unfold Fs.readFile, Fs.query, Disk.read. rewrite Hold.
  assert (Js.includes (pre +:+ old_text args +:+ post) (old_text args) = true) as ->.
  { apply includes_spec. exists (String.length pre). apply Hfirst. }
  simpl. rewrite (replace_first _ _ _ pre post eq_refl Hfirst).
  unfold Fs.writeFile, Fs.update, Disk.write, Disk.open_create. simpl.
  rewrite Hold. simpl. by rewrite <- (assoc_L (++)).
Qed.

(** When [new_text] has no dollar sign, the expansion is [new_text]
    itself. *)
Lemma patch_first_occurrence_literal args w p pre post :
  getSafePath root (path args) = Return p →
  Disk.lookup (disk w) p = Some (Disk.File (pre +:+ old_text args +:+ post)) →
  first_at (old_text args) (pre +:+ old_text args +:+ post) (String.length pre) →
  dollar_free (new_text args) = true →
  callTool root "patch_note" args w =
    (Return (ToolResult ("Successfully patched " +:+ path args) false),
     World (<[p := Disk.File (pre +:+ new_text args +:+ post)]> (disk w))
           (trace w ++ [SysReadFile p;
                        SysWriteFile p (pre +:+ new_text args +:+ post)])).
Proof.
  intros Hp Hold Hfirst Hfree.
  rewrite (patch_first_occurrence args w p pre post Hp Hold Hfirst).
  by rewrite GetSubstitution_literal.
Qed.

(** C4.  When the text of the note does not contain [old_text] as a
    substring, [patch_note] answers with the error "Could not find
    old_text in file"; the disk is the one the call started with, and
    the only file-system call made is the read of the note. *)
Theorem patch_note_target_not_found args w p content :
  getSafePath root (path args) = Return p →
  Disk.lookup (disk w) p = Some (Disk.File content) →
  ¬ occurs (old_text args) content →
  ∃ w',
    callTool root "patch_note" args w =
      (Return (ToolResult "Error: Could not find old_text in file" true), w')
    ∧ disk w' = disk w
    ∧ trace w' = trace w ++ [SysReadFile p].
Proof.
  intros Hp Hc Hno%includes_false. exists (log (SysReadFile p) w).
  split; [|done]. unfold callTool, try_catch. simpl.
  unfold patch_note, mbind, M_bind, lift. rewrite Hp.
  unfold Fs.readFile, Fs.query, Disk.read. by rewrite Hc, Hno.
Qed.

End Notes.

(** The note [x x] does not contain [z]. *)
Lemma patch_note_target_not_found_witness :
  let args := Args "x.md" "" "z" "y" "" None in
  let w := World small_disk [] in
  getSafePath "/data/vault" (path args) = Return "/data/vault/x.md"
  ∧ Disk.lookup (disk w) "/data/vault/x.md" = Some (Disk.File "x x")
  ∧ ¬ occurs (old_text args) "x x"
  ∧ ∃ w',
      callTool "/data/vault" "patch_note" args w =
        (Return (ToolResult "Error: Could not find old_text in file" true), w')
      ∧ disk w' = disk w
      ∧ trace w' = trace w ++ [SysReadFile "/data/vault/x.md"].
Proof.
  assert (¬ occurs "z" "x x") as Hno by (by apply includes_false).
  split; [reflexivity|]. split; [reflexivity|]. split; [exact Hno|].
  apply (patch_note_target_not_found "/data/vault" (Args "x.md" "" "z" "y" "" None)
           (World small_disk []) "/data/vault/x.md" "x x");
    [reflexivity|reflexivity|exact Hno].
Defined.

(** The example of the specification: in [x x], patching [x] by [y]
    gives [y x]. *)
Example patch_example :
  ∃ w', callTool "/data/vault" "patch_note" (Args "x.md" "" "x" "y" "" None)
          (World small_disk [])
        = (Return (ToolResult "Successfully patched x.md" false), w')
      ∧ disk w' !! "/data/vault/x.md" = Some (Disk.File "y x").
Proof. eexists. split; vm_compute; reflexivity. Qed.

(** C2.  [appendFile] opens the file with the flag [a], which creates it:
    appending to the note [new.md], which does not exist in the vault
    [/data/vault], succeeds and leaves a note made of a newline and the
    appended text. *)
Theorem append_to_note_creates_missing_note :
  let w := World sibling_disk [] in
  disk w !! "/data/vault/new.md" = None
  ∧ ∃ w',
      callTool "/data/vault" "append_to_note" (Args "new.md" "B" "" "" "" None) w
        = (Return (ToolResult "Successfully appended to new.md" false), w')
      ∧ disk w' !! "/data/vault/new.md" = Some (Disk.File (JSON.nl +:+ "B")).
Proof. split; [reflexivity|]. eexists. split; vm_compute; reflexivity. Qed.

(** C3.  The replacement is a template, not a literal: patching [x] by
    the two dollar signs [$$] in the note [x x] leaves [$ x], with one
    dollar sign, and patching [x] by [<$&>] leaves [<x> x]. *)
Theorem patch_note_expands_dollar_patterns :
  let w := World small_disk [] in
  (∃ w',
     callTool "/data/vault" "patch_note" (Args "x.md" "" "x" "$$" "" None) w
       = (Return (ToolResult "Successfully patched x.md" false), w')
     ∧ disk w' !! "/data/vault/x.md" = Some (Disk.File "$ x"))
  ∧ (∃ w',
     callTool "/data/vault" "patch_note" (Args "x.md" "" "x" "<$&>" "" None) w
       = (Return (ToolResult "Successfully patched x.md" false), w')
     ∧ disk w' !! "/data/vault/x.md" = Some (Disk.File "<x> x")).
Proof. split; eexists; split; vm_compute; reflexivity. Qed.

(** C5.  The [McpError] for an unknown tool is thrown inside the [try]
    block of the handler, so the [catch] clause turns it into an ordinary
    result with the error flag, like any other error: the call of the
    unknown tool [delete_note] returns, it is not rejected. *)
Theorem unknown_tool_is_an_ordinary_result :
  ∀ w, callTool "/data/vault" "delete_note" no_args w =
         (Return (ToolResult "Error: MCP error -32601: Unknown tool: delete_note" true), w).
Proof. reflexivity. Qed.

(** ** Directories: [dirname], the ancestors of a path, [mkdir] *)

(** Where [dirname] cuts. *)
Lemma dirname_end_bound s i e :
  Path.dirname_end s i = Some e → (i ≤ e < i + String.length s)%nat.
Proof.
  revert i. induction s as [|c s IH]; intros i; simpl; [done|].
  destruct (Path.dirname_end s (S i)) as [e'|] eqn:He.
  - intros [= <-]. apply IH in He. lia.
  - destruct (Path.is_sep c && Path.has_non_sep s); intros; simplify_eq. lia.
Qed.

Lemma has_non_sep_length s : Path.has_non_sep s = true → (1 ≤ String.length s)%nat.
Proof. destruct s; [done|simpl; lia]. Qed.

Lemma dirname_end_here s i :
  Path.dirname_end s i = Some i → (2 ≤ String.length s)%nat.
Proof.
  destruct s as [|c s]; simpl; [done|].
  destruct (Path.dirname_end s (S i)) as [e'|] eqn:He.
  - intros [= ->]. apply dirname_end_bound in He. lia.
  - destruct (Path.has_non_sep s) eqn:Hs; [|by rewrite andb_false_r].
    intros _. apply has_non_sep_length in Hs. lia.
Qed.

(** The directory of an absolute path is absolute and not longer; it is
    shorter unless the path is the root. *)
Lemma dirname_absolute p :
  Path.isAbsolute p = true →
  Path.isAbsolute (Path.dirname p) = true
  ∧ (String.length (Path.dirname p) ≤ String.length p)%nat
  ∧ (p ≠ "/" → (String.length (Path.dirname p) < String.length p)%nat).
Proof.
  destruct p as [|c rest]; [done|]. simpl. intros Hc. rewrite Hc. simpl.
  destruct (Path.dirname_end rest 1) as [e|] eqn:He.
  - pose proof (dirname_end_bound _ _ _ He) as Hb.
    case_bool_decide as He1.
    + subst e. apply dirname_end_here in He. simpl. split; [done|]. lia.
    + destruct e as [|e]; [lia|]. simpl. rewrite Hc. split; [done|].
      rewrite string_length_take. lia.
  - split; [done|]. simpl. split; [lia|]. destruct rest; [|simpl; lia].
    intros Hne. destruct Hne. f_equal.
    unfold Path.is_sep in Hc. by apply Ascii.eqb_eq in Hc.
Qed.

Lemma iter_dirname_absolute k p :
  Path.isAbsolute p = true →
  Path.isAbsolute (Nat.iter k Path.dirname p) = true
  ∧ (String.length (Nat.iter k Path.dirname p) ≤ String.length p)%nat.
Proof.
  intros Hp. induction k as [|k [IH1 IH2]]; [done|]. simpl.
  destruct (dirname_absolute _ IH1) as (? & ? & _). split; [done|lia].
Qed.

Lemma lookup_root d : Disk.lookup d "/" = Some Disk.Dir.
Proof. done. Qed.

Lemma lookup_insert_same d p n : p ≠ "/" → Disk.lookup (<[p := n]> d) p = Some n.
Proof.
  intros Hp. unfold Disk.lookup. rewrite bool_decide_eq_false_2 by done.
  apply lookup_insert_eq.
Qed.

Lemma lookup_insert_other d p q n : p ≠ q → Disk.lookup (<[p := n]> d) q = Disk.lookup d q.
Proof. intros Hp. unfold Disk.lookup. by rewrite lookup_insert_ne. Qed.

(** With enough fuel and no regular file in the way, [mkdirp] makes the
    directory; it changes the disk only by adding directories on the way
    up from [p]. *)
Lemma mkdirp_spec fuel d p :
  Path.isAbsolute p = true →
  (String.length p ≤ fuel)%nat →
  (∀ k data, Disk.lookup d (Nat.iter k Path.dirname p) ≠ Some (Disk.File data)) →
  ∃ d',
    Disk.mkdirp fuel d p = Some d'
    ∧ Disk.lookup d' p = Some Disk.Dir
    ∧ ∀ q, Disk.lookup d' q = Disk.lookup d q
           ∨ Disk.lookup d' q = Some Disk.Dir ∧ ∃ k, q = Nat.iter k Path.dirname p.
Proof.
  revert p. induction fuel as [|fuel IH]; intros p Habs Hlen Hfree.
  - destruct p; [done|]. simpl in Hlen. lia.
  - simpl. destruct (Disk.lookup d p) as [[data|]|] eqn:Hp.
    + by destruct (Hfree 0%nat data).
    + exists d. eauto.
    + assert (p ≠ "/") as Hroot by (intros ->; done).
      destruct (dirname_absolute p Habs) as (Habs' & _ & Hlt).
      destruct (IH (Path.dirname p)) as (d1 & -> & Hdir & Hframe);
        [done|specialize (Hlt Hroot); lia| |].
      { intros k data. rewrite <- Nat.iter_succ_r. apply Hfree. }
      simpl. eexists. split; [done|]. split; [by apply lookup_insert_same|].
      intros q. destruct (decide (p = q)) as [<-|Hq].
      * right. split; [by apply lookup_insert_same|]. by exists 0%nat.
      * rewrite lookup_insert_other by done.
        destruct (Hframe q) as [?|[? [k ->]]]; [by left|right].
        split; [done|]. exists (S k). by rewrite Nat.iter_succ_r.
Qed.

(** A directory that [mkdirp] has made, or found, is there. *)
Lemma mkdirp_dir fuel d p d' :
  Disk.mkdirp fuel d p = Some d' → Disk.lookup d' p = Some Disk.Dir.
Proof.
  destruct fuel as [|fuel]; simpl.
  - destruct (Disk.lookup d p) as [[|]|] eqn:Hp; intros; by simplify_eq.
  - destruct (Disk.lookup d p) as [[|]|] eqn:Hp; try (intros; by simplify_eq).
    destruct (Disk.mkdirp fuel d (Path.dirname p)) as [d1|]; [|done].
    simpl. intros [= <-]. apply lookup_insert_same. by intros ->.
Qed.


Lemma iter_dirname_length k p :
  Path.isAbsolute p = true →
  (String.length (Nat.iter k Path.dirname p) ≤ 1 `max` (String.length p - k))%nat.
Proof.
  intros Hp. induction k as [|k IH]; [simpl; lia|]. simpl.
  destruct (iter_dirname_absolute k p Hp) as [Habs _].
  destruct (dirname_absolute _ Habs) as (_ & _ & Hlt).
  destruct (decide (Nat.iter k Path.dirname p = "/")) as [->|Hne]; [simpl; lia|].
  specialize (Hlt Hne). lia.
Qed.

Lemma absolute_length_1 p :
  Path.isAbsolute p = true → (String.length p ≤ 1)%nat → p = "/".
Proof.
  destruct p as [|c [|c' p]]; simpl; [done| |lia].
  unfold Path.is_sep. by intros ->%Ascii.eqb_eq.
Qed.

Lemma ancestors_upto_iter fuel p k :
  (k < fuel)%nat → Nat.iter (S k) Path.dirname p ∈ Path.ancestors_upto fuel p.
Proof.
  revert p k. induction fuel as [|fuel IH]; intros p k Hk; [lia|].
  destruct k as [|k]; [by left|].
  right. rewrite Nat.iter_succ_r. apply IH. lia.
Qed.

(** Going up from an absolute path one passes through its ancestors and
    then stays at the root. *)
Lemma iter_dirname_ancestors p k :
  Path.isAbsolute p = true →
  Nat.iter (S k) Path.dirname p = "/" ∨ Nat.iter (S k) Path.dirname p ∈ Path.ancestors p.
Proof.
  intros Hp. destruct (decide (k < String.length p)%nat) as [Hk|Hk].
  - right. by apply ancestors_upto_iter.
  - left. apply absolute_length_1; [by apply iter_dirname_absolute|].
    pose proof (iter_dirname_length (S k) p Hp). lia.
Qed.

Lemma no_file_above_iter d p k data :
  Path.isAbsolute p = true →
  no_file_above d p = true →
  Disk.lookup d (Nat.iter (S k) Path.dirname p) ≠ Some (Disk.File data).
Proof.
  intros Hp Hfree Hfile.
  destruct (iter_dirname_ancestors p k Hp) as [Hroot|Hin].
  - by rewrite Hroot in Hfile.
  - unfold no_file_above in Hfree. rewrite forallb_forall in Hfree.
    apply list_elem_of_In, Hfree in Hin. unfold is_file in Hin.
    by rewrite Hfile in Hin.
Qed.

(** ** Writing and reading back *)

Section RoundTrip.

Variable root : string.

Lemma getSafePath_absolute rel p :
  getSafePath root rel = Return p → Path.isAbsolute p = true.
Proof. by intros [-> _]%getSafePath_Return. Qed.

(** On the disk of this development, where no path holds a null
    character, a [write_note] succeeds on a path that is not a directory
    and has no regular file above it: it makes the missing directories
    and then the file. *)
Lemma write_note_succeeds args w p :
  getSafePath root (path args) = Return p →
  is_dir (disk w) p = false →
  no_file_above (disk w) p = true →
  ∃ d1,
    callTool root "write_note" args w =
      (Return (ToolResult ("Successfully wrote to " +:+ path args) false),
       World (<[p := Disk.File (content args)]> d1)
             (trace w ++ [SysMkdir (Path.dirname p); SysWriteFile p (content args)]))
    ∧ Disk.lookup d1 (Path.dirname p) = Some Disk.Dir
    ∧ p ≠ "/".
Proof.
  intros Hp Hnodir Hfree.
  pose proof (getSafePath_absolute _ _ Hp) as Habs.
  assert (p ≠ "/") as Hroot by (intros ->; done).
  destruct (dirname_absolute p Habs) as (Habs' & _ & Hlt). specialize (Hlt Hroot).
  destruct (mkdirp_spec (String.length (Path.dirname p)) (disk w) (Path.dirname p))
    as (d1 & Hmk & Hdir & Hframe); [done|done| |].
  { intros k data. rewrite <- Nat.iter_succ_r. by apply no_file_above_iter. }
  assert (Disk.lookup d1 p = Disk.lookup (disk w) p) as Hsame.
  { destruct (Hframe p) as [?|[_ [k Hk]]]; [done|].
    destruct (iter_dirname_absolute k _ Habs') as [_ Hle].
    rewrite <- Hk in Hle. lia. }
  exists d1. split; [|done].
  unfold callTool, try_catch. simpl.
  unfold write_note, mbind, M_bind, lift. rewrite Hp.
  unfold Fs.mkdir, Fs.update at 1, Disk.mkdir_recursive. rewrite Hmk.
  unfold Fs.writeFile, Fs.update, Disk.write, Disk.open_create. simpl.
  rewrite Hsame, Hdir. unfold is_dir in Hnodir.
  destruct (Disk.lookup (disk w) p) as [[data|]|] eqn:Hold;
    [|done|]; simpl; by rewrite <- (assoc_L (++)).
Qed.

(** [read_note] of a regular file returns its text. *)
Lemma read_note_reads args w p data :
  getSafePath root (path args) = Return p →
  Disk.lookup (disk w) p = Some (Disk.File data) →
  callTool root "read_note" args w =
    (Return (ToolResult data false),
     World (disk w) (trace w ++ [SysStat p; SysReadFile p])).
Proof.
  intros Hp Hfile. unfold callTool, try_catch. simpl.
  unfold read_note, mbind, M_bind, lift, try_catch. rewrite Hp.
  unfold Fs.stat, Fs.readFile, Fs.query, Disk.stat, Disk.read. rewrite Hfile. simpl.
  rewrite Hfile. unfold log. simpl. by rewrite <- (assoc_L (++)).
Qed.

(** What a successful [write_note] did. *)
Lemma write_note_inv args w r w1 :
  callTool root "write_note" args w = (Return r, w1) → isError r = false →
  ∃ p d1,
    getSafePath root (path args) = Return p
    ∧ Disk.lookup d1 (Path.dirname p) = Some Disk.Dir
    ∧ Disk.lookup d1 p ≠ Some Disk.Dir
    ∧ disk w1 = <[p := Disk.File (content args)]> d1
    ∧ r = ToolResult ("Successfully wrote to " +:+ path args) false.
Proof.
  unfold callTool, try_catch. simpl.
  unfold write_note, mbind, M_bind, lift.
  destruct (getSafePath root (path args)) as [p|e] eqn:Hp; [|by intros [= <- <-]].
  unfold Fs.mkdir, Fs.update at 1, Disk.mkdir_recursive.
  destruct (Disk.mkdirp _ (disk w) (Path.dirname p)) as [d1|] eqn:Hmk;
    [|by intros [= <- <-]].
  apply mkdirp_dir in Hmk.
  unfold Fs.writeFile, Fs.update, Disk.write, Disk.open_create. simpl.
  destruct (Disk.lookup d1 p) as [[old|]|] eqn:Hold; simpl.
  - intros [= <- <-] _. exists p, d1. by rewrite Hold.
  - by intros [= <- <-].
  - rewrite Hmk. intros [= <- <-] _. exists p, d1. by rewrite Hold.
Qed.


End RoundTrip.



(** ** Searching *)

Lemma string_take_nil n : Js.take n "" = "".
Proof. by destruct n. Qed.

Lemma string_drop_nil n : Js.drop n "" = "".
Proof. by destruct n. Qed.

Lemma string_take_drop_swap a b s :
  Js.take (b - a) (Js.drop a s) = Js.drop a (Js.take b s).
Proof.
  revert b s. induction a as [|a IH]; intros b s.
  - by rewrite Nat.sub_0_r.
  - destruct s as [|c s]; [simpl; by rewrite !string_take_nil|].
    destruct b as [|b]; [done|]. simpl. apply IH.
Qed.

Lemma string_take_min n s : Js.take (n `min` String.length s) s = Js.take n s.
Proof.
  revert s. induction n as [|n IH]; intros [|c s]; try done.
  simpl. by rewrite IH.
Qed.

Lemma length_context_window content i n :
  String.length (context_window content i n)
  = (((i + n + 50) `min` String.length content) - (i - 50))%nat.
Proof. unfold context_window. by rewrite string_length_drop, string_length_take. Qed.

(** The window that [substring] cuts out of the content: the clamping of
    [substring] does the same as [take] and [drop], wherever the index
    lies. *)
Lemma substring_window content i n :
  Js.substring content (Z.max 0 (Z.of_nat i - 50))
    (Z.min (Js.length content) (Z.of_nat i + Z.of_nat n + 50))
  = context_window content i n.
Proof.
  unfold Js.substring, Js.length, context_window.
  set (len := String.length content).
  replace (Z.min (Z.max (Z.max 0 (Z.of_nat i - 50)) 0) (Z.of_nat len))
    with (Z.of_nat ((i - 50) `min` len)) by lia.
  replace (Z.min (Z.max (Z.min (Z.of_nat len) (Z.of_nat i + Z.of_nat n + 50)) 0) (Z.of_nat len))
    with (Z.of_nat ((i + n + 50) `min` len)) by lia.
  replace (Z.min (Z.of_nat ((i - 50) `min` len)) (Z.of_nat ((i + n + 50) `min` len)))
    with (Z.of_nat ((i - 50) `min` len)) by lia.
  replace (Z.max (Z.of_nat ((i - 50) `min` len)) (Z.of_nat ((i + n + 50) `min` len)))
    with (Z.of_nat ((i + n + 50) `min` len)) by lia.
  rewrite <- Nat2Z.inj_sub by lia. rewrite !Nat2Z.id.
  rewrite string_take_drop_swap. unfold len. rewrite string_take_min.
  destruct (decide (i - 50 ≤ String.length content)%nat) as [Hle|Hgt].
  - by rewrite Nat.min_l.
  - rewrite Nat.min_r by lia.
    rewrite !string_drop_all; [done|rewrite string_length_take; lia..].
Qed.

(** On a content match the snippet is cut out of the content by the
    window around the index of the match in the lower-cased content. *)
Lemma context_snippet_found content query i :
  Js.StringIndexOf (Js.toLowerCase content) (Js.toLowerCase query) = Some i →
  context_snippet content query
  = Js.replace_newlines (context_window content i (String.length query)).
Proof.
  intros Hi. unfold context_snippet, Js.indexOf. rewrite Hi.
  destruct (Z.eqb_spec (Z.of_nat i) (-1)) as [|_]; [lia|]. simpl.
  f_equal. apply substring_window.
Qed.

Lemma context_snippet_absent content query :
  Js.StringIndexOf (Js.toLowerCase content) (Js.toLowerCase query) = None →
  context_snippet content query = "".
Proof. intros Hi. unfold context_snippet, Js.indexOf. by rewrite Hi. Qed.

Lemma truthy_length s : truthy s = true ↔ (0 < String.length s)%nat.
Proof. destruct s; simpl; [split; [done|lia]|split; [lia|done]]. Qed.

(** The window of a content match in a non-empty note is not empty, when
    lower-casing has kept the length of the content, so that the index of
    the match lies in the content. *)
Lemma context_snippet_truthy content query i :
  Js.StringIndexOf (Js.toLowerCase content) (Js.toLowerCase query) = Some i →
  content ≠ "" →
  String.length (Js.toLowerCase content) = String.length content →
  truthy (context_snippet content query) = true.
Proof.
  intros Hi Hne Hlen. rewrite (context_snippet_found _ _ _ Hi).
  apply truthy_length. unfold Js.replace_newlines.
  rewrite string_length_map, length_context_window.
  apply StringIndexOf_bound in Hi. rewrite Hlen in Hi.
  destruct content; [done|]. simpl in *. lia.
Qed.

Section Hits.
Variables file content query : string.

Lemma hit_path_search_hit : hit_path (search_hit file content query) = file.
Proof. done. Qed.

Lemma is_match_spec :
  is_match file content query = true ↔
  occurs (Js.toLowerCase query) (Js.toLowerCase content)
  ∨ occurs (Js.toLowerCase query) (Js.toLowerCase file).
Proof. unfold is_match. by rewrite orb_true_iff, !includes_spec. Qed.

Lemma snippet_content_match i :
  first_at (Js.toLowerCase query) (Js.toLowerCase content) i →
  content ≠ "" →
  String.length (Js.toLowerCase content) = String.length content →
  snippet (search_hit file content query)
  = "..." +:+ Js.replace_newlines (context_window content i (String.length query)) +:+ "...".
Proof.
  intros Hi%StringIndexOf_Some Hne Hlen. unfold search_hit. simpl.
  rewrite (context_snippet_truthy _ _ _ Hi Hne Hlen).
  by rewrite (context_snippet_found _ _ _ Hi).
Qed.

Lemma snippet_filename_only :
  ¬ occurs (Js.toLowerCase query) (Js.toLowerCase content) →
  snippet (search_hit file content query) = "Matched in filename".
Proof.
  intros Hno%StringIndexOf_None. unfold search_hit. simpl.
  by rewrite context_snippet_absent.
Qed.
End Hits.

(** An empty note always gets the filename marker, also when the empty
    query matches its content. *)
Lemma snippet_empty_note file query :
  snippet (search_hit file "" query) = "Matched in filename".
Proof.
  unfold search_hit.
  destruct (Js.StringIndexOf (Js.toLowerCase "") (Js.toLowerCase query)) as [i|] eqn:Hi.
  - rewrite (context_snippet_found _ _ _ Hi). unfold context_window.
    by rewrite string_take_nil, string_drop_nil.
  - by rewrite context_snippet_absent.
Qed.

Section Loop.
Variable root : string.
Variable query : string.

(** The loop, from a state with fewer than 20 results: what it returns,
    what it has read, and when it stops early. *)
Lemma search_loop_spec files : ∀ results w rs w',
  (length results < 20)%nat →
  search_loop root query files results w = (Return rs, w') →
  ∃ scanned rest,
    files = scanned ++ rest
    ∧ Forall (λ file, is_Some (content_of root (disk w) file)) scanned
    ∧ rs = results ++ omap (hit_of root (disk w) query) scanned
    ∧ (length rs ≤ 20)%nat
    ∧ (rest ≠ [] → length rs = 20%nat)
    ∧ (length rs = 20%nat →
         ∃ before file, scanned = before ++ [file]
                        ∧ is_Some (hit_of root (disk w) query file))
    ∧ disk w' = disk w
    ∧ trace w' = trace w ++ reads root scanned.
Proof.
  induction files as [|file files IH]; intros results w rs w' Hlen.
  - intros [= <- <-]. exists [], []. rewrite !app_nil_r.
    split_and!; try done; try lia.
  - simpl. unfold mbind, M_bind, lift.
    destruct (getSafePath root file) as [p|e] eqn:Hp; [|done].
    pose proof Hp as [-> _]%getSafePath_Return.
    unfold Fs.readFile, Fs.query.
    destruct (Disk.read (disk w) (Path.resolve root file)) as [e|content] eqn:Hread; [done|].
    assert (content_of root (disk w) file = Some content) as Hcontent.
    { unfold content_of. by rewrite Hp, Hread. }
    destruct (is_match file content query) eqn:Hmatch.
    + assert (hit_of root (disk w) query file = Some (search_hit file content query)) as Hhit.
      { unfold hit_of. rewrite Hcontent. simpl. by rewrite Hmatch. }
      destruct (Z.of_nat (length (results ++ [search_hit file content query])) >=? 20)%Z eqn:Hfull.
      * rewrite Z.geb_leb in Hfull. apply Z.leb_le in Hfull.
        intros [= <- <-]. exists [file], files. simpl. rewrite Hhit. simpl.
        rewrite length_app in *. simpl in *.
        split_and!; try done; try lia.
        -- by repeat constructor.
        -- intros _. exists nil, file. by rewrite Hhit.
      * rewrite Z.geb_leb in Hfull. apply Z.leb_gt in Hfull.
        rewrite length_app in Hfull. simpl in Hfull.
        intros Hloop.
        apply IH in Hloop as (scanned & rest & -> & Hall & -> & ? & ? & Hlast & ? & Htrace);
          [|rewrite length_app; simpl; lia].
        exists (file :: scanned), rest. simpl. rewrite Hhit. simpl.
        rewrite <- (assoc_L (++)) in *. simpl in *.
        split_and!; try done.
        -- by constructor.
        -- intros H20. destruct (Hlast H20) as (before & f & -> & ?).
           by exists (file :: before), f.
        -- rewrite Htrace. by rewrite <- (assoc_L (++)).
    + assert (hit_of root (disk w) query file = None) as Hhit.
      { unfold hit_of. rewrite Hcontent. simpl. by rewrite Hmatch. }
      intros Hloop.
      apply IH in Hloop
        as (scanned & rest & -> & Hall & -> & ? & ? & Hlast & ? & Htrace); [|done].
      exists (file :: scanned), rest. simpl. rewrite Hhit.
      split_and!; try done.
      -- by constructor.
      -- intros H20. destruct (Hlast H20) as (before & f & -> & ?).
         by exists (file :: before), f.
      -- rewrite Htrace. simpl. by rewrite <- (assoc_L (++)).
Qed.
End Loop.


(** ** Enumerating the notes *)

Lemma parse_md : Glob.parse "**/*.md" = md_pattern.
Proof. reflexivity. Qed.

Lemma match_path_globstar dot pattern segs :
  Glob.match_path dot (Glob.GlobStar :: pattern) segs =
    Glob.match_path dot pattern segs
    || match segs with
       | s :: segs' =>
           (dot || negb (Glob.hidden s)) && Glob.match_path dot (Glob.GlobStar :: pattern) segs'
       | [] => false
       end.
Proof. by destruct segs. Qed.

(** Without the [dot] option, a path matched by a pattern made of [**]
    and of segments that do not start with a literal dot has no hidden
    segment. *)
Lemma match_path_visible pattern segs :
  Forall (λ part, match part with
                  | Glob.GlobStar => True
                  | Glob.Seg ts => Glob.explicit_dot ts = false
                  end) pattern →
  Glob.match_path false pattern segs = true →
  Forall (λ s, Glob.hidden s = false) segs.
Proof.
  intros Hpat. revert segs. induction Hpat as [|part pattern Hpart _ IH]; intros segs.
  - simpl. by intros ->%bool_decide_eq_true.
  - destruct part as [|ts].
    + induction segs as [|s segs IHsegs]; rewrite match_path_globstar.
      * rewrite orb_false_r. apply IH.
      * intros [Hm|[Hs Hm]%andb_true_iff]%orb_true_iff; [by apply IH|].
        constructor; [by apply negb_true_iff in Hs|by apply IHsegs].
    + destruct segs as [|s segs]; [done|]. simpl.
      intros [[Hs _]%andb_true_iff Hm]%andb_true_iff.
      rewrite Hpart in Hs. constructor; [by apply negb_true_iff in Hs|by apply IH].
Qed.

Lemma md_visible p :
  Glob.minimatch false "**/*.md" p = true →
  Forall (λ s, Glob.hidden s = false) (Path.split p).
Proof.
  unfold Glob.minimatch. rewrite parse_md. apply match_path_visible.
  by repeat constructor.
Qed.

(** A pattern whose first segment starts with a literal dot matches only
    paths whose first segment is hidden. *)
Lemma match_path_dot_first dot ts pattern segs :
  Glob.explicit_dot ts = true →
  Glob.match_path dot (Glob.Seg ts :: pattern) segs = true →
  ∃ s segs', segs = s :: segs' ∧ Glob.hidden s = true.
Proof.
  intros Hts. destruct segs as [|s segs]; [done|]. simpl.
  intros [[_ Hm]%andb_true_iff _]%andb_true_iff. exists s, segs. split; [done|].
  destruct ts as [|[|c] ts]; try done. simpl in Hts. apply Ascii.eqb_eq in Hts as ->.
  destruct s as [|c' s]; [done|].
  change (Ascii.eqb "." c' && Glob.match_tokens ts s = true) in Hm.
  apply andb_true_iff in Hm as [Hc _]. apply Ascii.eqb_eq in Hc as <-.
  by destruct s.
Qed.

Lemma dot_tree_ignores_hidden ign p :
  Glob.minimatch false "**/*.md" p = true →
  (∃ ts pattern, Glob.parse ign = Glob.Seg ts :: pattern ∧ Glob.explicit_dot ts = true) →
  Glob.minimatch true ign p = false.
Proof.
  intros Hmd (ts & pattern & Hparse & Hts).
  destruct (Glob.minimatch true ign p) eqn:Hign; [|done].
  unfold Glob.minimatch in Hign. rewrite Hparse in Hign.
  destruct (match_path_dot_first _ _ _ _ Hts Hign) as (s & segs & Hsplit & Hs).
  apply md_visible in Hmd. rewrite Hsplit in Hmd.
  apply Forall_cons in Hmd as [Hs' _]. congruence.
Qed.

(** A path matched by [**/*.md] is matched by neither [.git/**] nor
    [.obsidian/**]: the two longer ignore lists select the same paths. *)
Lemma selected_same root p :
  Glob.selected "**/*.md" (Glob.Options root ["node_modules/**"]) p
  = Glob.selected "**/*.md"
      (Glob.Options root ["node_modules/**"; ".git/**"; ".obsidian/**"]) p.
Proof.
  unfold Glob.selected. simpl.
  destruct (Glob.minimatch false "**/*.md" p) eqn:Hmd; [|done].
  rewrite (dot_tree_ignores_hidden ".git/**" p Hmd) by (eexists _, _; split; reflexivity).
  rewrite (dot_tree_ignores_hidden ".obsidian/**" p Hmd) by (eexists _, _; split; reflexivity).
  done.
Qed.

Lemma matches_same root d :
  Glob.matches "**/*.md" (Glob.Options root ["node_modules/**"]) d
  = Glob.matches "**/*.md"
      (Glob.Options root ["node_modules/**"; ".git/**"; ".obsidian/**"]) d.
Proof. unfold Glob.matches. apply List.filter_ext, selected_same. Qed.

Lemma matches_visible opts d :
  Forall (λ p, Forall (λ s, Glob.hidden s = false) (Path.split p))
    (Glob.matches "**/*.md" opts d).
Proof.
  apply Forall_forall. intros p [_ Hsel]%list_elem_of_In%filter_In.
  apply andb_true_iff in Hsel as [Hmd _]. by apply md_visible.
Qed.

(** The enumeration lists no path twice. *)

Lemma NoDup_omap_inj {A B} (f : A → option B) (l : list A) :
  (∀ x y z, f x = Some z → f y = Some z → x = y) →
  NoDup l → NoDup (omap f l).
Proof.
  intros Hinj. induction 1 as [|x l Hx _ IH]; simpl; [constructor|].
  destruct (f x) as [z|] eqn:Hfx; [|done]. constructor; [|done].
  intros (y & Hy & Hfy)%list_elem_of_omap.
  by rewrite (Hinj x y z Hfx Hfy) in Hx.
Qed.

(** What [Glob.relative] cuts off. *)
Lemma relative_inv cwd key file :
  Glob.relative cwd key = Some file →
  key = (if bool_decide (cwd = "/") then "/" else cwd +:+ "/") +:+ file ∧ file ≠ "".
Proof.
  unfold Glob.relative. set (base := if bool_decide (cwd = "/") then "/" else cwd +:+ "/").
  destruct (Js.startsWith key base && _) eqn:Hstart; [|done]. intros [= Hfile].
  apply andb_true_iff in Hstart as [Hstart Hne]. apply startsWith_inv in Hstart.
  rewrite Hfile in Hstart. apply negb_true_iff, bool_decide_eq_false in Hne.
  split; [done|]. intros ->. apply Hne. by rewrite Hstart at 1; rewrite string_app_nil_r.
Qed.

Lemma relative_inj cwd k1 k2 file :
  Glob.relative cwd k1 = Some file → Glob.relative cwd k2 = Some file → k1 = k2.
Proof. intros [-> _]%relative_inv [-> _]%relative_inv. done. Qed.

Lemma filter_sublist {A} (f : A → bool) (l : list A) : List.filter f l `sublist_of` l.
Proof.
  induction l as [|x l IH]; simpl; [done|].
  destruct (f x); [by apply sublist_skip|by apply sublist_cons].
Qed.

Lemma NoDup_matches pattern opts d : NoDup (Glob.matches pattern opts d).
Proof.
  unfold Glob.matches. eapply sublist_NoDup; [|apply filter_sublist].
  unfold Glob.entries.
  apply NoDup_omap_inj; [apply relative_inj|apply NoDup_fst_map_to_list].
Qed.

(** ** The search tool *)

Section Search.

Variable root : string.
Variable query : string.

(** A search that returns went through a beginning [scanned] of the
    candidates, in order, read each of them once and nothing else, and
    returned their hits; it left candidates unread only when the 20th
    result had just been pushed. *)
Lemma search_results_spec w rs w' :
  search_results root query w = (Return rs, w') →
  ∃ scanned rest,
    search_candidates root (disk w) = scanned ++ rest
    ∧ Forall (λ file, is_Some (content_of root (disk w) file)) scanned
    ∧ rs = omap (hit_of root (disk w) query) scanned
    ∧ (length rs ≤ 20)%nat
    ∧ (rest ≠ [] → length rs = 20%nat)
    ∧ (length rs = 20%nat →
         ∃ before file, scanned = before ++ [file]
                        ∧ is_Some (hit_of root (disk w) query file))
    ∧ disk w' = disk w
    ∧ trace w' = trace w ++ SysScan root :: reads root scanned.
Proof.
  unfold search_results, mbind, M_bind, Glob.glob. simpl. intros Hloop.
  apply search_loop_spec in Hloop
    as (scanned & rest & ? & ? & ? & ? & ? & ? & ? & Htrace); [|simpl; lia].
  exists scanned, rest. split_and!; try done.
  rewrite Htrace. simpl. by rewrite <- (assoc_L (++)).
Qed.

(** The search returns whenever every candidate can be read. *)
Lemma search_loop_returns files : ∀ results w,
  Forall (λ file, is_Some (content_of root (disk w) file)) files →
  ∃ rs w', search_loop root query files results w = (Return rs, w').
Proof.
  induction files as [|file files IH]; intros results w Hall; [by eexists _, _|].
  apply Forall_cons in Hall as [[content Hc] Hall]. simpl.
  unfold mbind, M_bind, lift, Fs.readFile, Fs.query.
  unfold content_of in Hc.
  destruct (getSafePath root file) as [p|]; [|done].
  destruct (Disk.read (disk w) p) as [|content']; [done|].
  destruct (is_match file content' query); [|by apply IH].
  destruct (Z.of_nat _ >=? 20); [by eexists _, _|by apply IH].
Qed.

Lemma search_results_returns w :
  Forall (λ file, is_Some (content_of root (disk w) file))
    (search_candidates root (disk w)) →
  ∃ rs w', search_results root query w = (Return rs, w').
Proof.
  intros Hall. unfold search_results, mbind, M_bind, Glob.glob. simpl.
  by apply search_loop_returns.
Qed.

(** C8.  The results of a search are at most 20.  They are the hits, in
    order, of a beginning of the candidates in scan order; the notes
    read are exactly the notes of that beginning; and a candidate is
    left unread only when there are 20 results, the last of which comes
    from the last note read. *)
Theorem search_results_capped w rs w' :
  search_results root query w = (Return rs, w') →
  (length rs ≤ 20)%nat
  ∧ ∃ scanned rest,
      search_candidates root (disk w) = scanned ++ rest
      ∧ rs = omap (hit_of root (disk w) query) scanned
      ∧ trace w' = trace w ++ SysScan root :: reads root scanned
      ∧ (rest ≠ [] →
           length rs = 20%nat
           ∧ ∃ before file, scanned = before ++ [file]
                            ∧ is_Some (hit_of root (disk w) query file)).
Proof.
  intros (scanned & rest & ? & _ & ? & ? & Hrest & Hlast & _ & ?)%search_results_spec.
  split; [done|]. exists scanned, rest. split_and!; try done.
  intros Hne. split; [by apply Hrest|by apply Hlast, Hrest].
Qed.

(** What a hit says about the file it comes from. *)
Lemma hit_of_inv d file r :
  hit_of root d query file = Some r →
  hit_path r = file
  ∧ ∃ content, content_of root d file = Some content
               ∧ is_match file content query = true
               ∧ r = search_hit file content query.
Proof.
  unfold hit_of. destruct (content_of root d file) as [c|]; [|done]. simpl.
  destruct (is_match file c query) eqn:Hm; [|done]. intros [= <-]. eauto.
Qed.

(** The scan reaches a candidate exactly when fewer than 20 results were
    accumulated from the candidates before it. *)
Lemma scan_reaches w rs w' before file after :
  search_results root query w = (Return rs, w') →
  search_candidates root (disk w) = before ++ file :: after →
  ∃ scanned rest,
    search_candidates root (disk w) = scanned ++ rest
    ∧ Forall (λ f, is_Some (content_of root (disk w) f)) scanned
    ∧ rs = omap (hit_of root (disk w) query) scanned
    ∧ (file ∈ scanned ↔ (length (omap (hit_of root (disk w) query) before) < 20)%nat).
Proof.
  intros Hrun Hsplit.
  pose proof (NoDup_matches "**/*.md" (Glob.Options root ["node_modules/**"]) (disk w)) as Hnd.
  change (NoDup (search_candidates root (disk w))) in Hnd. rewrite Hsplit in Hnd.
  apply search_results_spec in Hrun as (scanned & rest & Hc & Hall & -> & Hlen & Hrest & Hlast & _).
  exists scanned, rest. split_and!; [done..|].
  rewrite Hsplit in Hc. symmetry in Hc.
  apply app_eq_inv in Hc as [(k & Hs & Hk)|(k & Hb & Hr)].
  - destruct k as [|f k].
    + simpl in Hk. rewrite app_nil_r in Hs. subst scanned. split.
      * intros Hin. apply NoDup_app in Hnd as (_ & Hdisj & _).
        destruct (Hdisj file Hin). by left.
      * intros Hlt. rewrite Hrest in Hlt; [lia|]. by rewrite <- Hk.
    + injection Hk as <- Hafter. subst scanned. split; [|intros _; set_solver].
      intros _. rewrite omap_app, length_app in Hlen.
      destruct (decide (length (omap (hit_of root (disk w) query) before) < 20)%nat)
        as [|Hfull]; [done|]. exfalso.
      destruct Hlast as (before' & f' & Heq & [r Hr]);
        [rewrite omap_app, length_app; lia|].
      apply (f_equal last) in Heq. rewrite last_app_cons, last_snoc in Heq.
      apply last_Some_elem_of in Heq.
      assert (r ∈ omap (hit_of root (disk w) query) (file :: k)) as Hin
        by (apply list_elem_of_omap; eauto).
      destruct (omap (hit_of root (disk w) query) (file :: k)); [by apply elem_of_nil in Hin|].
      simpl in Hlen. lia.
  - subst before rest. split.
    + intros Hin. rewrite <- (assoc_L (++)) in Hnd. apply NoDup_app in Hnd as (_ & Hdisj & _).
      destruct (Hdisj file Hin). set_solver.
    + intros Hlt. rewrite omap_app, length_app in Hlt. rewrite Hrest in Hlt; [lia|].
      by destruct k.
Qed.

(** C7, amended.  When the search returns results (no read of a
    candidate fails), every result comes from a candidate, and for every
    candidate: if 20 results were already accumulated from the candidates
    before it, the scan does not reach it and it is not reported;
    otherwise it is reported iff the lower-cased query is a substring of
    the lower-cased content or of the lower-cased relative path.  The
    snippet of a reported file with a content match is the window around
    the first lower-cased occurrence, from up to 50 characters before it
    to up to 50 characters after the length of the query, with newlines
    replaced by spaces, between ellipsis markers, provided that the
    content is not empty and that lower-casing has kept its length (as it
    does for the strings of this development, of code units up to
    U+00FF); the snippet of a file matched by its name only is "Matched
    in filename". *)
Theorem search_reports_scanned_matches w rs w' :
  search_results root query w = (Return rs, w') →
  Forall (λ r, hit_path r ∈ search_candidates root (disk w)) rs
  ∧ ∀ before file after,
      search_candidates root (disk w) = before ++ file :: after →
      ((20 ≤ length (omap (hit_of root (disk w) query) before))%nat →
       ¬ ∃ r, r ∈ rs ∧ hit_path r = file)
      ∧ ((length (omap (hit_of root (disk w) query) before) < 20)%nat →
         ∃ content,
           content_of root (disk w) file = Some content
           ∧ ((∃ r, r ∈ rs ∧ hit_path r = file) ↔
              occurs (Js.toLowerCase query) (Js.toLowerCase content)
              ∨ occurs (Js.toLowerCase query) (Js.toLowerCase file))
           ∧ ∀ r, r ∈ rs → hit_path r = file →
               (∀ i, first_at (Js.toLowerCase query) (Js.toLowerCase content) i →
                     content ≠ "" →
                     String.length (Js.toLowerCase content) = String.length content →
                     snippet r =
                       "..." +:+ Js.replace_newlines
                                   (context_window content i (String.length query))
                             +:+ "...")
               ∧ (¬ occurs (Js.toLowerCase query) (Js.toLowerCase content) →
                  snippet r = "Matched in filename")).
Proof.
  intros Hrun. split.
  { pose proof Hrun as (scanned & rest & Hc & _ & -> & _)%search_results_spec.
    apply Forall_forall. intros r (f & Hf & [<- _]%hit_of_inv)%list_elem_of_omap.
    rewrite Hc. apply elem_of_app. by left. }
  intros before file after Hsplit.
  destruct (scan_reaches _ _ _ _ _ _ Hrun Hsplit) as (scanned & rest & Hc & Hall & -> & Hreach).
  assert (∀ r, r ∈ omap (hit_of root (disk w) query) scanned → hit_path r = file →
               file ∈ scanned) as Hfrom.
  { intros r (f & Hf & [Hpath _]%hit_of_inv)%list_elem_of_omap <-. by rewrite Hpath. }
  split.
  - intros Hfull (r & Hr & Hpath). apply Hfrom, Hreach in Hr; [lia|done].
  - intros Hfile%Hreach.
    rewrite Forall_forall in Hall. destruct (Hall file Hfile) as [content Hcontent].
    exists content. split; [done|].
    assert (∀ r, r ∈ omap (hit_of root (disk w) query) scanned → hit_path r = file →
                 is_match file content query = true ∧ r = search_hit file content query)
      as Hhits.
    { intros r (f & _ & (Hpath & c & Hc' & Hm & ->)%hit_of_inv)%list_elem_of_omap Hpath'.
      simpl in Hpath'. subst f. by simplify_eq. }
    split.
    + rewrite <- is_match_spec. split.
      * intros (r & Hr & Hpath). by destruct (Hhits r Hr Hpath).
      * intros Hm. exists (search_hit file content query). split; [|done].
        apply list_elem_of_omap. exists file. split; [done|].
        unfold hit_of. rewrite Hcontent. simpl. by rewrite Hm.
    + intros r Hr Hpath. destruct (Hhits r Hr Hpath) as [_ ->]. split.
      * apply snippet_content_match.
      * apply snippet_filename_only.
Qed.

End Search.

(** The tool serialises the results of the search; a failed read turns
    into an error result. *)
Lemma search_notes_result root args w :
  callTool root "search_notes" args w =
    match search_results root (query args) w with
    | (Return rs, w') => (Return (ToolResult (stringify_results rs) false), w')
    | (Throw e, w') => (Return (ToolResult ("Error: " +:+ message e) true), w')
    end.
Proof.
  unfold callTool, try_catch. simpl. unfold search_notes, mbind, M_bind at 1.
  by destruct (search_results root (query args) w) as [[rs|e] w'].
Qed.

(** The search for [todo] in the vault of 21 notes. *)
Lemma search_results_capped_witness :
  search_results "/data/vault" "todo" (World crowded_disk [])
    = (Return crowded_hits, crowded_run.2)
  ∧ length (search_candidates "/data/vault" crowded_disk) = 21%nat
  ∧ length crowded_hits = 20%nat
  ∧ (length crowded_hits ≤ 20)%nat.
Proof.
  assert (search_results "/data/vault" "todo" (World crowded_disk [])
          = (Return crowded_hits, crowded_run.2)) as Hrun by (vm_compute; reflexivity).
  split; [exact Hrun|]. split; [vm_compute; reflexivity|]. split; [vm_compute; reflexivity|].
  exact (proj1 (search_results_capped "/data/vault" "todo" (World crowded_disk [])
                  crowded_hits crowded_run.2 Hrun)).
Defined.

(** The search for [hello] in the vault of the example: the note [a.md]
    is a candidate before which nothing was found, and it is reported. *)
Lemma search_reports_scanned_matches_witness :
  search_results "/data/vault" "hello" (World hello_disk []) = (Return hello_hits, hello_run.2)
  ∧ hello_hits ≡ₚ [Hit "a.md" "...hello world..."; Hit "hello.md" "Matched in filename"]
  ∧ Forall (λ r, hit_path r ∈ search_candidates "/data/vault" hello_disk) hello_hits
  ∧ ∃ before after,
      search_candidates "/data/vault" hello_disk = before ++ "a.md" :: after
      ∧ (length (omap (hit_of "/data/vault" hello_disk "hello") before) < 20)%nat
      ∧ content_of "/data/vault" hello_disk "a.md" = Some "hello world"
      ∧ String.length (Js.toLowerCase "hello world") = String.length "hello world"
      ∧ ∃ content,
          content_of "/data/vault" hello_disk "a.md" = Some content
          ∧ ((∃ r, r ∈ hello_hits ∧ hit_path r = "a.md") ↔
             occurs (Js.toLowerCase "hello") (Js.toLowerCase content)
             ∨ occurs (Js.toLowerCase "hello") (Js.toLowerCase "a.md"))
          ∧ ∀ r, r ∈ hello_hits → hit_path r = "a.md" →
              (∀ i, first_at (Js.toLowerCase "hello") (Js.toLowerCase content) i →
                    content ≠ "" →
                    String.length (Js.toLowerCase content) = String.length content →
                    snippet r =
                      "..." +:+ Js.replace_newlines
                                  (context_window content i (String.length "hello"))
                            +:+ "...")
              ∧ (¬ occurs (Js.toLowerCase "hello") (Js.toLowerCase content) →
                 snippet r = "Matched in filename").
Proof.
  assert (search_results "/data/vault" "hello" (World hello_disk [])
          = (Return hello_hits, hello_run.2)) as Hrun by (vm_compute; reflexivity).
  assert (search_candidates "/data/vault" hello_disk = [] ++ "a.md" :: ["hello.md"])
    as Hsplit by (vm_compute; reflexivity).
  assert (length (omap (hit_of "/data/vault" hello_disk "hello") []) < 20)%nat
    as Hlt by (simpl; lia).
  split; [exact Hrun|].
  split; [by assert (hello_hits = [Hit "a.md" "...hello world...";
                                   Hit "hello.md" "Matched in filename"]) as ->
            by (vm_compute; reflexivity)|].
  split; [exact (proj1 (search_reports_scanned_matches "/data/vault" "hello"
                          (World hello_disk []) _ _ Hrun))|].
  exists [], ["hello.md"]. split; [exact Hsplit|]. split; [exact Hlt|].
  split; [reflexivity|]. split; [reflexivity|].
  exact (proj2 (proj2 (search_reports_scanned_matches "/data/vault" "hello"
                         (World hello_disk []) _ _ Hrun) [] "a.md" ["hello.md"] Hsplit) Hlt).
Defined.

(** The example of the specification: one result with a snippet of the
    content, one marked as matched by its name, in the order of the
    enumeration. *)
Example search_example :
  ∃ rs,
    (callTool "/data/vault" "search_notes" (Args "" "" "" "" "hello" None)
       (World hello_disk [])).1
    = Return (ToolResult (stringify_results rs) false)
    ∧ rs ≡ₚ [Hit "a.md" "...hello world..."; Hit "hello.md" "Matched in filename"].
Proof.
  exists [Hit "a.md" "...hello world..."; Hit "hello.md" "Matched in filename"].
  split; [vm_compute; reflexivity|done].
Qed.

(** C7 as stated fails in three ways.  An empty note matches the empty
    query through its content, and its snippet is "Matched in filename",
    not a window between ellipsis markers.  In a vault of 21 notes that
    all contain the query there are 20 results, so that one of the notes
    is not reported.  And in a vault with a directory named [archive.md]
    the read of that candidate fails and the search reports nothing, not
    even the note [a.md] that contains the query. *)
Lemma search_claim_fails :
  (content_of "/data/vault" empty_note_disk "empty.md" = Some ""
   ∧ occurs (Js.toLowerCase "") (Js.toLowerCase "")
   ∧ (search_results "/data/vault" "" (World empty_note_disk [])).1
     = Return [Hit "empty.md" "Matched in filename"])
  ∧ (length (search_candidates "/data/vault" crowded_disk) = 21%nat
     ∧ Forall (λ file, content_of "/data/vault" crowded_disk file = Some "todo")
         (search_candidates "/data/vault" crowded_disk)
     ∧ occurs (Js.toLowerCase "todo") (Js.toLowerCase "todo")
     ∧ (search_results "/data/vault" "todo" (World crowded_disk [])).1 = Return crowded_hits
     ∧ length crowded_hits = 20%nat
     ∧ ∃ file, file ∈ search_candidates "/data/vault" crowded_disk
               ∧ ¬ ∃ r, r ∈ crowded_hits ∧ hit_path r = file)
  ∧ ("a.md" ∈ search_candidates "/data/vault" directory_note_disk
     ∧ content_of "/data/vault" directory_note_disk "a.md" = Some "todo"
     ∧ occurs (Js.toLowerCase "todo") (Js.toLowerCase "todo")
     ∧ (callTool "/data/vault" "search_notes" (Args "" "" "" "" "todo" None)
          (World directory_note_disk [])).1
       = Return (ToolResult "Error: EISDIR: illegal operation on a directory, read" true)).
Proof.
  split_and!.
  - reflexivity.
  - by apply includes_spec.
  - vm_compute. reflexivity.
  - vm_compute. reflexivity.
  - let l := eval vm_compute in (search_candidates "/data/vault" crowded_disk) in
    change (search_candidates "/data/vault" crowded_disk) with l.
    repeat (constructor; [vm_compute; reflexivity|]). constructor.
  - by apply includes_spec.
  - vm_compute. reflexivity.
  - vm_compute. reflexivity.
  - exists "n8.md". split.
    + vm_compute. repeat first [by apply list_elem_of_here | apply list_elem_of_further].
    + intros (r & Hr & Hpath). vm_compute in Hr.
      repeat (apply elem_of_cons in Hr as [->|Hr]; [by vm_compute in Hpath|]).
      by apply elem_of_nil in Hr.
  - vm_compute. repeat first [by apply list_elem_of_here | apply list_elem_of_further].
  - reflexivity.
  - by apply includes_spec.
  - vm_compute. reflexivity.
Qed.

(** ** The three listings *)

Section Listings.

Variable root : string.

(** C10, amended.  [search_notes] passes only [node_modules/**] as
    pattern to ignore, and [list_notes] and the resource listing pass
    [.git/**] and [.obsidian/**] as well; but the pattern [**/*.md] is
    matched without the [dot] option and never matches a path with a
    segment that starts with a dot, so the three enumerate the same
    notes, none of which lies under [.git] or [.obsidian]. *)
Theorem listings_enumerate_the_same_notes query args w :
  search_results root query w
    = search_loop root query (search_candidates root (disk w)) [] (log (SysScan root) w)
  ∧ list_results root args w
    = (Return (slice0 (list_candidates root (disk w)) (default 50 (limit args))),
       log (SysScan root) w)
  ∧ listResources root w
    = (Return ((λ file, Build_Resource ("obsidian:///" +:+ file) file "text/markdown")
                 <$> list_candidates root (disk w)),
       log (SysScan root) w)
  ∧ search_candidates root (disk w) = list_candidates root (disk w)
  ∧ Forall (λ p, Forall (λ seg, Glob.hidden seg = false) (Path.split p))
      (search_candidates root (disk w)).
Proof.
  split_and!; try done.
  - apply matches_same.
  - apply matches_visible.
Qed.

End Listings.

(** The first segment of a path under [.git] or [.obsidian]. *)
Lemma split_under_git t : Path.split (".git/" +:+ t) = ".git" :: Path.split t.
Proof. reflexivity. Qed.

Lemma split_under_obsidian t :
  Path.split (".obsidian/" +:+ t) = ".obsidian" :: Path.split t.
Proof. reflexivity. Qed.

(** C10 as stated fails: there is no vault in which a note under [.git]
    or [.obsidian] appears in the results of [search_notes]. *)
Lemma no_hidden_note_is_found :
  ¬ ∃ root query w rs w' r,
      search_results root query w = (Return rs, w')
      ∧ r ∈ rs
      ∧ (Js.startsWith (hit_path r) ".git/" = true
         ∨ Js.startsWith (hit_path r) ".obsidian/" = true).
Proof.
  intros (root & query & w & rs & w' & r & Hrun & Hr & Hunder).
  apply search_results_spec in Hrun as (scanned & rest & Hsplit & _ & -> & _).
  apply list_elem_of_omap in Hr as (file & Hfile & Hhit).
  assert (hit_path r = file) as Hpath.
  { unfold hit_of in Hhit. destruct (content_of root (disk w) file) as [c|]; [|done].
    simpl in Hhit. destruct (is_match file c query); by simplify_eq. }
  rewrite Hpath in Hunder.
  pose proof (matches_visible (Glob.Options root ["node_modules/**"]) (disk w)) as Hall.
  rewrite Forall_forall in Hall. specialize (Hall file).
  unfold search_candidates in Hsplit. rewrite Hsplit in Hall.
  assert (file ∈ scanned ++ rest) as Hin by (apply elem_of_app; by left).
  specialize (Hall Hin).
  destruct Hunder as [Hgit|Hobs];
    [apply startsWith_spec in Hgit as [t ->]|apply startsWith_spec in Hobs as [t ->]].
  - rewrite split_under_git in Hall. by apply Forall_cons in Hall as [? _].
  - rewrite split_under_obsidian in Hall. by apply Forall_cons in Hall as [? _].
Qed.

(** In a vault with notes inside [.git] and [.obsidian], the search for
    their text finds the visible note only, and the listing lists it
    only. *)
Example hidden_notes_example :
  (search_results "/data/vault" "todo" (World hidden_disk [])).1
    = Return [Hit "a.md" "...todo..."]
  ∧ (list_results "/data/vault" no_args (World hidden_disk [])).1 = Return ["a.md"].
Proof. split; vm_compute; reflexivity. Qed.

(** * Further properties of the program *)

(** ** Paths in normal form *)

(** With an absolute first argument, [path.resolve] of two arguments does
    not consult the working directory: it is the function [Path.resolve]
    of the guard. *)
Lemma resolve_two cwd from to :
  Path.isAbsolute from = true →
  Startup.resolve cwd [from; to] = Path.resolve from to.
Proof.
  intros Hfrom. unfold Startup.resolve, Path.resolve. simpl.
  assert (from ≠ "") as Hne by (by destruct from).
  destruct (decide (to = "")) as [->|Hto].
  - simpl. rewrite (bool_decide_eq_false_2 _ Hne), Hfrom. done.
  - rewrite !(bool_decide_eq_false_2 _ Hto).
    destruct (Path.isAbsolute to); [done|].
    simpl. rewrite (bool_decide_eq_false_2 _ Hne), Hfrom. done.
Qed.

Lemma resolve_one cwd VAULT_PATH :
  Path.isAbsolute cwd = true → VAULT_PATH ≠ "" →
  Startup.resolve cwd [VAULT_PATH] = Path.resolve cwd VAULT_PATH.
Proof.
  intros Hcwd Hne. unfold Startup.resolve, Path.resolve. simpl.
  assert (cwd ≠ "") as Hc by (by destruct cwd).
  rewrite !(bool_decide_eq_false_2 _ Hne).
  destruct (Path.isAbsolute VAULT_PATH); [done|].
  simpl. by rewrite (bool_decide_eq_false_2 _ Hc), Hcwd.
Qed.

Lemma split_nonempty s : Path.split s ≠ [].
Proof.
  destruct s as [|c s]; [done|]. rewrite split_cons.
  destruct (Path.is_sep c); [done|]. by destruct (Path.split s).
Qed.

Lemma split_no_sep s : Forall (λ seg, has_sep seg = false) (Path.split s).
Proof.
  induction s as [|c s IH]; [by repeat constructor|]. rewrite split_cons.
  destruct (Path.is_sep c) eqn:Hc; [by constructor|].
  destruct (Path.split s) as [|seg segs]; [by repeat constructor; simpl; rewrite Hc|].
  apply Forall_cons in IH as [Hseg Hsegs]. constructor; [|done].
  simpl. by rewrite Hc, Hseg.
Qed.

Lemma split_sep s t : Path.split (s +:+ "/" +:+ t) = Path.split s ++ Path.split t.
Proof.
  induction s as [|c s IH]; [done|].
  rewrite string_app_cons, !split_cons, IH.
  destruct (Path.is_sep c); [done|].
  destruct (Path.split s) as [|seg segs] eqn:Hs; [by destruct (split_nonempty s)|done].
Qed.

Lemma join_split s : Path.join (Path.split s) = s.
Proof.
  induction s as [|c s IH]; [done|]. rewrite split_cons.
  destruct (Path.is_sep c) eqn:Hc.
  - apply Ascii.eqb_eq in Hc as ->.
    rewrite join_cons by apply split_nonempty. by rewrite IH.
  - destruct (Path.split s) as [|seg segs] eqn:Hs; [by destruct (split_nonempty s)|].
    rewrite <- IH. by destruct segs.
Qed.

(** Splitting a concatenation: the last segment of the first string and
    the first segment of the second grow together. *)
Lemma split_app s t : ∀ xs b t0 rest,
  Path.split s = xs ++ [b] → Path.split t = t0 :: rest →
  Path.split (s +:+ t) = xs ++ [b +:+ t0] ++ rest.
Proof.
  induction s as [|c s IH]; intros xs b t0 rest Hs Ht.
  - change (Path.split "") with [""] in Hs.
    destruct xs as [|x xs]; [|by destruct xs].
    injection Hs as <-. exact Ht.
  - rewrite string_app_cons, split_cons. rewrite split_cons in Hs.
    destruct (Path.is_sep c).
    + destruct xs as [|x xs]; simplify_eq/=.
      { by destruct (split_nonempty s). }
      f_equal. by apply IH.
    + destruct (Path.split s) as [|seg0 segs0] eqn:Hsplit; [by destruct (split_nonempty s)|].
      destruct xs as [|x xs]; simplify_eq/=.
      * by rewrite (IH [] seg0 t0 rest eq_refl Ht).
      * by rewrite (IH (seg0 :: xs) b t0 rest eq_refl Ht).
Qed.

Lemma fold_normalize_keeps_plain segs : ∀ stack,
  Forall (λ seg, has_sep seg = false) segs → Forall plain stack →
  Forall plain (fold_left Path.normalize_step segs stack).
Proof.
  induction segs as [|seg segs IH]; intros stack Hsegs Hstack; [done|].
  apply Forall_cons in Hsegs as [Hseg Hsegs]. simpl. apply IH; [done|].
  unfold Path.normalize_step.
  destruct (decide (seg = "")) as [->|H1]; [done|].
  destruct (decide (seg = ".")) as [->|H2]; [done|].
  rewrite (bool_decide_eq_false_2 _ H1), (bool_decide_eq_false_2 _ H2). simpl.
  case_bool_decide as H3.
  - destruct stack; [done|]. by apply Forall_cons in Hstack as [_ ?].
  - by constructor.
Qed.

Lemma normalize_plain s : Forall plain (Path.normalize (Path.split s)).
Proof.
  unfold Path.normalize. apply Forall_rev.
  apply fold_normalize_keeps_plain; [apply split_no_sep|constructor].
Qed.

(** What [path.resolve] returns is an absolute path in normal form. *)
Lemma resolve_normalised from to :
  ∃ ps, Forall plain ps ∧ Path.resolve from to = "/" +:+ Path.join ps.
Proof. unfold Path.resolve. eexists. split; [apply normalize_plain|done]. Qed.

Lemma normal_spec p : normal p = true ↔ ∃ ps, Forall plain ps ∧ p = "/" +:+ Path.join ps.
Proof.
  unfold normal. rewrite String.eqb_eq. split.
  - intros Hp. exists (segments p). split; [apply normalize_plain|done].
  - intros (ps & Hps & ->). by rewrite segments_normalised.
Qed.

Lemma join_plain_nonempty ps : Forall plain ps → ps ≠ [] → Path.join ps ≠ "".
Proof.
  destruct ps as [|x ps]; [done|]. intros [(Hx & _) _]%Forall_cons _.
  destruct ps; [done|]. rewrite join_cons by done. by destruct x.
Qed.

Lemma join_plain_relative ps :
  Forall plain ps → Path.isAbsolute (Path.join ps) = false.
Proof.
  destruct ps as [|x ps]; [done|]. intros [(Hx & _ & _ & Hsep) _]%Forall_cons.
  destruct x as [|c x]; [done|]. simpl in Hsep. apply orb_false_iff in Hsep as [Hc _].
  destruct ps; [done|]. by rewrite join_cons.
Qed.

(** A path in normal form resolves to itself, whatever the base. *)
Lemma resolve_fixed from ps :
  Forall plain ps → Path.resolve from ("/" +:+ Path.join ps) = "/" +:+ Path.join ps.
Proof.
  intros Hps. unfold Path.resolve. rewrite bool_decide_eq_false_2 by done.
  change (Path.isAbsolute ("/" +:+ Path.join ps)) with true. cbv beta iota zeta.
  destruct ps as [|x ps]; [done|].
  assert (("/" +:+ Path.join (x :: ps)) +:+ "/" = Path.join (("" :: x :: ps) ++ [""])) as ->.
  { rewrite join_app by done. by rewrite (join_cons "" (x :: ps)). }
  rewrite split_join; [|done|].
  2:{ apply Forall_app. split; [constructor; [done|by apply plain_no_sep]|by repeat constructor]. }
  unfold Path.normalize. simpl. rewrite fold_left_app. simpl.
  change (Path.normalize_step [] "") with (@nil string).
  rewrite (normalize_step_plain [] x) by (by apply Forall_cons in Hps as [? _]).
  apply Forall_cons in Hps as [Hx Hps].
  rewrite (fold_normalize_plain ps [x]) by done.
  change (Path.normalize_step (rev ps ++ [x]) "") with (rev ps ++ [x]).
  by rewrite rev_app_distr, rev_involutive.
Qed.

(** ** The start of the program *)

(** X1.  The program exits with status 1 exactly when it is started
    without a vault path or with an empty one.  Otherwise the root of the
    vault is the path resolved against the working directory, and it is
    an absolute path in normal form: a slash followed by plain segments
    separated by single slashes, with no slash at the end. *)
Theorem start_gives_normalised_root cwd argv2 :
  Path.isAbsolute cwd = true →
  match Startup.start cwd argv2 with
  | inl status => status = 1%nat ∧ (argv2 = None ∨ argv2 = Some "")
  | inr root =>
      ∃ VAULT_PATH rs,
        argv2 = Some VAULT_PATH ∧ VAULT_PATH ≠ ""
        ∧ root = Path.resolve cwd VAULT_PATH
        ∧ Forall plain rs ∧ root = "/" +:+ Path.join rs
  end.
Proof.
  intros Hcwd. unfold Startup.start. destruct argv2 as [v|]; [|by split; [|left]].
  case_bool_decide as Hv; [subst; by split; [|right]|].
  rewrite resolve_one by done.
  destruct (resolve_normalised cwd v) as (rs & Hrs & Hres).
  by exists v, rs.
Qed.

(** Started in [/home/user] with the argument [notes/../vault/], the
    program serves [/home/user/vault]. *)
Lemma start_gives_normalised_root_witness :
  Path.isAbsolute "/home/user" = true
  ∧ Startup.start "/home/user" (Some "notes/../vault/") = inr "/home/user/vault"
  ∧ ∃ VAULT_PATH rs,
      Some "notes/../vault/" = Some VAULT_PATH ∧ VAULT_PATH ≠ ""
      ∧ "/home/user/vault" = Path.resolve "/home/user" VAULT_PATH
      ∧ Forall plain rs ∧ "/home/user/vault" = "/" +:+ Path.join rs.
Proof.
  split; [reflexivity|]. split; [reflexivity|].
  exact (start_gives_normalised_root "/home/user" (Some "notes/../vault/") eq_refl).
Defined.

(** ** What the guard accepts *)

Section GuardShape.

Variable rs : list string.
Hypothesis Hrs : Forall plain rs.

Local Abbreviation root := ("/" +:+ Path.join rs).

(** A relative path of plain segments resolves to the same segments
    below the root. *)
Lemma resolve_plain segs :
  Forall plain segs → segs ≠ [] →
  Path.resolve root (Path.join segs) = "/" +:+ Path.join (rs ++ segs).
Proof.
  intros Hsegs Hne.
  assert (Forall plain (rs ++ segs)) as Hall by (by apply Forall_app).
  unfold Path.resolve.
  rewrite bool_decide_eq_false_2 by (by apply join_plain_nonempty).
  rewrite join_plain_relative by done. cbv beta iota zeta.
  assert (∃ pre, Forall (λ seg, seg = "") pre
                 ∧ root +:+ "/" +:+ Path.join segs +:+ "/"
                   = Path.join ((pre ++ rs ++ segs) ++ [""])) as (pre & Hpre & ->).
  { destruct rs as [|r rs'].
    - exists [""; ""]. split; [by repeat constructor|].
      rewrite join_app by done. simpl app.
      rewrite !join_cons by (done || by destruct segs).
      by rewrite !string_app_assoc.
    - exists [""]. split; [by repeat constructor|].
      rewrite join_app by done. simpl app.
      rewrite (join_cons "" (r :: rs' ++ segs)) by done.
      change (r :: rs' ++ segs) with ((r :: rs') ++ segs).
      rewrite (join_app (r :: rs') segs) by done. by rewrite !string_app_assoc. }
  rewrite split_join; [|by destruct pre, rs, segs|].
  2:{ rewrite !Forall_app. split_and!; [|by apply plain_no_sep..|by repeat constructor].
      eapply Forall_impl; [exact Hpre|]. by intros ? ->. }
  unfold Path.normalize. rewrite fold_left_app, (fold_left_app _ pre).
  assert (fold_left Path.normalize_step pre [] = []) as ->.
  { clear -Hpre. induction Hpre as [|? ? -> _ IH]; [done|]. simpl. exact IH. }
  rewrite (fold_normalize_plain (rs ++ segs)) by done.
  rewrite app_nil_r. simpl.
  change (Path.normalize_step (rev (rs ++ segs)) "") with (rev (rs ++ segs)).
  by rewrite rev_involutive.
Qed.

Lemma below_root_extends_root segs :
  segs ≠ [] → Js.startsWith ("/" +:+ Path.join (rs ++ segs)) root = true.
Proof.
  intros Hne. apply startsWith_spec. destruct rs as [|r rs'].
  - by eexists.
  - rewrite (join_app (r :: rs') segs) by done. eexists. by rewrite string_app_assoc.
Qed.

(** X2.  For a root in normal form, every relative path made of plain
    segments (no empty segment, no [.], no [..]) is accepted, and it
    resolves to the path of the same segments below the root, which lies
    in the tree of the root. *)
Theorem plain_paths_are_accepted segs :
  Forall plain segs → segs ≠ [] →
  getSafePath root (Path.join segs) = Return ("/" +:+ Path.join (rs ++ segs))
  ∧ inside_tree root ("/" +:+ Path.join (rs ++ segs)).
Proof.
  intros Hsegs Hne. split.
  - apply getSafePath_Return. rewrite resolve_plain by done.
    split; [done|by apply below_root_extends_root].
  - unfold inside_tree. rewrite !segments_normalised by (done || by apply Forall_app).
    by exists segs.
Qed.

(** X3.  For a root in normal form, a path the guard accepts lies in the
    tree of the root, or else in a neighbour of the root: a directory
    with the same parent whose name starts with the name of the root and
    goes on.  Nothing else is let through. *)
Theorem accepted_paths_are_inside_or_beside rel p :
  getSafePath root rel = Return p →
  inside_tree root p
  ∨ ∃ xs b s rest, rs = xs ++ [b] ∧ s ≠ "" ∧ segments p = xs ++ [b +:+ s] ++ rest.
Proof.
  intros Hp. pose proof Hp as [t Ht]%getSafePath_prefix.
  apply getSafePath_Return in Hp as [-> _].
  destruct (resolve_normalised root rel) as (ps & Hps & Hres). rewrite Hres in *.
  unfold inside_tree. rewrite !segments_normalised by done.
  destruct (decide (rs = [])) as [->|Hne]; [left; by exists ps|].
  destruct (exists_last Hne) as (xs & b & Hxs).
  rewrite string_app_assoc in Ht. injection Ht as Ht.
  change (Path.join ps = Path.join rs +:+ t) in Ht.
  assert (ps ≠ []) as Hps_ne.
  { intros ->. symmetry in Ht. destruct (string_app_nil_inv _ _ Ht) as [Hj _].
    exact (join_plain_nonempty rs Hrs Hne Hj). }
  assert (Path.split (Path.join ps) = ps) as Hsplit.
  { apply split_join; [done|by apply plain_no_sep]. }
  destruct (Path.split t) as [|t0 rest] eqn:Hsplit_t; [by destruct (split_nonempty t)|].
  rewrite Ht in Hsplit.
  rewrite (split_app _ _ xs b t0 rest) in Hsplit; [|by rewrite split_join, Hxs
    by (done || by apply plain_no_sep)|done].
  destruct (decide (t0 = "")) as [->|Ht0].
  - left. exists rest. rewrite <- Hsplit, Hxs, string_app_nil_r.
    by rewrite <- (assoc_L (++)).
  - right. by exists xs, b, t0, rest.
Qed.

End GuardShape.

(** The note [Daily/note.md] of the vault [/data/vault]. *)
Lemma plain_paths_are_accepted_witness :
  Forall plain ["data"; "vault"]
  ∧ Forall plain ["Daily"; "note.md"]
  ∧ ["Daily"; "note.md"] ≠ []
  ∧ getSafePath "/data/vault" "Daily/note.md" = Return "/data/vault/Daily/note.md"
  ∧ inside_tree "/data/vault" "/data/vault/Daily/note.md".
Proof.
  assert (Forall plain ["data"; "vault"]) as Hrs
    by (repeat (constructor; [done|]); constructor).
  assert (Forall plain ["Daily"; "note.md"]) as Hsegs
    by (repeat (constructor; [done|]); constructor).
  split; [exact Hrs|]. split; [exact Hsegs|]. split; [discriminate|].
  exact (plain_paths_are_accepted ["data"; "vault"] Hrs ["Daily"; "note.md"] Hsegs
           ltac:(discriminate)).
Defined.

(** From the vault [/data/vault], the path [../vault2/x.md] is accepted
    and lies in the neighbour [/data/vault2]. *)
Lemma accepted_paths_are_inside_or_beside_witness :
  Forall plain ["data"; "vault"]
  ∧ getSafePath "/data/vault" "../vault2/x.md" = Return "/data/vault2/x.md"
  ∧ (inside_tree "/data/vault" "/data/vault2/x.md"
     ∨ ∃ xs b s rest, ["data"; "vault"] = xs ++ [b] ∧ s ≠ ""
                      ∧ segments "/data/vault2/x.md" = xs ++ [b +:+ s] ++ rest).
Proof.
  assert (Forall plain ["data"; "vault"]) as Hrs
    by (repeat (constructor; [done|]); constructor).
  split; [exact Hrs|]. split; [reflexivity|].
  exact (accepted_paths_are_inside_or_beside ["data"; "vault"] Hrs
           "../vault2/x.md" "/data/vault2/x.md" eq_refl).
Defined.

(** X4.  What the guard returns, the guard accepts again and returns
    unchanged, whatever the root: an absolute path is not refused for
    being absolute, it is resolved and compared with the root like any
    other. *)
Theorem getSafePath_idempotent root rel p :
  getSafePath root rel = Return p → getSafePath root p = Return p.
Proof.
  intros [-> Hs]%getSafePath_Return. apply getSafePath_Return.
  destruct (resolve_normalised root rel) as (ps & Hps & Hres). rewrite Hres in *.
  by rewrite resolve_fixed.
Qed.

Lemma getSafePath_idempotent_witness :
  getSafePath "/data/vault" "notes/../x.md" = Return "/data/vault/x.md"
  ∧ getSafePath "/data/vault" "/data/vault/x.md" = Return "/data/vault/x.md".
Proof.
  split; [reflexivity|].
  exact (getSafePath_idempotent "/data/vault" "notes/../x.md" "/data/vault/x.md" eq_refl).
Defined.

(** ** What a call leaves on the disk *)

Section Keeps.

Context (R : relation (gmap string Disk.node)) `{!Reflexive R, !Transitive R}.

Lemma keeps_ret {A} (a : A) : keeps R (mret a).
Proof. intros w. simpl. reflexivity. Qed.

Lemma keeps_throw {A} e : keeps R (@throw A e).
Proof. intros w. simpl. reflexivity. Qed.

Lemma keeps_lift {A} (o : outcome A) : keeps R (lift o).
Proof. intros w. simpl. reflexivity. Qed.

Lemma keeps_bind {A B} (m : M A) (k : A → M B) :
  keeps R m → (∀ a, keeps R (k a)) → keeps R (m ≫= k).
Proof.
  intros Hm Hk w. unfold mbind, M_bind. specialize (Hm w).
  destruct (m w) as [[a|e] w1]; [|done].
  etrans; [exact Hm|apply Hk].
Qed.

Lemma keeps_try_catch {A} (m : M A) (h : exn → M A) :
  keeps R m → (∀ e, keeps R (h e)) → keeps R (try_catch m h).
Proof.
  intros Hm Hh w. unfold try_catch. specialize (Hm w).
  destruct (m w) as [[a|e] w1]; [done|].
  etrans; [exact Hm|apply Hh].
Qed.

Lemma keeps_query {A} c (f : gmap string Disk.node → Disk.error + A) :
  keeps R (Fs.query c f).
Proof. intros w. unfold Fs.query. destruct (f (disk w)); simpl; reflexivity. Qed.

Lemma keeps_glob pattern opts : keeps R (Glob.glob pattern opts).
Proof. intros w. simpl. reflexivity. Qed.

End Keeps.

Lemma same_except_refl p : Reflexive (same_except p).
Proof. by intros d q n. Qed.

Lemma same_except_trans p : Transitive (same_except p).
Proof. intros d1 d2 d3 H12 H23 q n Hq Hn. eauto. Qed.

Lemma same_kinds_refl : Reflexive same_kinds.
Proof. intros d q n Hn. by exists n. Qed.

Lemma same_kinds_trans : Transitive same_kinds.
Proof.
  intros d1 d2 d3 H12 H23 q n Hn.
  destruct (H12 q n Hn) as (n2 & Hn2 & E2). destruct (H23 q n2 Hn2) as (n3 & Hn3 & E3).
  exists n3. split; [done|congruence].
Qed.

Lemma mkdirp_preserves fuel : ∀ d p d' q n,
  Disk.mkdirp fuel d p = Some d' →
  Disk.lookup d q = Some n → Disk.lookup d' q = Some n.
Proof.
  induction fuel as [|fuel IH]; intros d p d' q n; simpl.
  - destruct (Disk.lookup d p) as [[|]|]; intros; by simplify_eq.
  - destruct (Disk.lookup d p) as [[|]|] eqn:Hp; try (intros; by simplify_eq).
    destruct (Disk.mkdirp fuel d (Path.dirname p)) as [d1|] eqn:Hmk; [|done].
    simpl. intros [= <-] Hq.
    destruct (decide (p = q)) as [->|Hne]; [congruence|].
    rewrite lookup_insert_other by done. by eapply IH.
Qed.

Lemma mkdirp_there fuel d p :
  Disk.lookup d p = Some Disk.Dir → Disk.mkdirp fuel d p = Some d.
Proof. intros Hp. destruct fuel; simpl; by rewrite Hp. Qed.

Lemma write_same_except d p data d' : Disk.write d p data = inr d' → same_except p d d'.
Proof.
  unfold Disk.write. destruct (Disk.open_create d p); [done|]. intros [= <-] q n Hq Hn.
  by rewrite lookup_insert_other.
Qed.

Lemma append_same_except d p data d' : Disk.append d p data = inr d' → same_except p d d'.
Proof.
  unfold Disk.append. destruct (Disk.open_create d p) as [e|[old|]]; [done|..];
    intros [= <-] q n Hq Hn; by rewrite lookup_insert_other.
Qed.

Lemma mkdir_same_except d p q d' :
  Disk.mkdir_recursive d q = inr d' → same_except p d d'.
Proof.
  unfold Disk.mkdir_recursive.
  destruct (Disk.mkdirp _ d q) as [d1|] eqn:Hmk; [|done]. intros [= <-] k n _ Hn.
  by eapply mkdirp_preserves.
Qed.

Lemma insert_same_kinds d p n :
  (∀ old, Disk.lookup d p = Some old → Fs.isFile n = Fs.isFile old) →
  same_kinds d (<[p := n]> d).
Proof.
  intros Hold q m Hm. destruct (decide (p = q)) as [<-|Hne].
  - destruct (decide (p = "/")) as [->|Hroot].
    + exists m. split; [|done]. unfold Disk.lookup in *. by simpl in *.
    + exists n. split; [by apply lookup_insert_same|by apply Hold].
  - exists m. by rewrite lookup_insert_other.
Qed.

Section Frames.

Variable root : string.

Lemma search_loop_keeps R `{!Reflexive R, !Transitive R} query files :
  ∀ results, keeps R (search_loop root query files results).
Proof.
  induction files as [|file files IH]; intros results; [apply keeps_ret; done|].
  simpl. apply keeps_bind; [done|apply keeps_lift; done|]. intros p.
  apply keeps_bind; [done|apply keeps_query; done|]. intros content.
  destruct (is_match file content query); [|apply IH].
  destruct (_ >=? _)%Z; [apply keeps_ret; done|apply IH].
Qed.

Lemma read_note_keeps R `{!Reflexive R, !Transitive R} args :
  keeps R (read_note root args).
Proof.
  unfold read_note. apply keeps_bind; [done|by apply keeps_lift|]. intros p.
  apply keeps_try_catch; [done| |intros; by apply keeps_ret].
  apply keeps_bind; [done|by apply keeps_query|]. intros stats.
  case_match; [by apply keeps_throw|].
  apply keeps_bind; [done|by apply keeps_query|]. intros; by apply keeps_ret.
Qed.

(** A preorder on disks that holds across every successful [mkdir],
    [writeFile] and [appendFile] of the writing tools holds across every
    tool call; for the other tools any preorder will do. *)
Lemma callTool_keeps R `{!Reflexive R, !Transitive R} name args :
  (name ∈ writers →
   ∀ p, getSafePath root (path args) = Return p →
        ∀ d d', (Disk.mkdir_recursive d (Path.dirname p) = inr d'
                 ∨ (∃ data, Disk.write d p data = inr d')
                 ∨ (∃ data, Disk.append d p data = inr d')) → R d d') →
  keeps R (callTool root name args).
Proof.
  intros HR. unfold callTool.
  apply keeps_try_catch; [done| |intros; by apply keeps_ret].
  repeat case_match;
    repeat match goal with
           | H : String.eqb name _ = true |- _ => apply String.eqb_eq in H as ->
           end.
  - by apply read_note_keeps.
  - unfold write_note. intros w. unfold mbind, M_bind, lift.
    destruct (getSafePath root (path args)) as [p|e] eqn:Hp; [|simpl; reflexivity].
    assert ("write_note" ∈ writers) as Hin by (by left).
    specialize (HR Hin p eq_refl).
    unfold Fs.mkdir, Fs.update at 1.
    destruct (Disk.mkdir_recursive (disk w) (Path.dirname p)) as [e|d1] eqn:Hmk;
      [simpl; reflexivity|].
    unfold Fs.writeFile, Fs.update. simpl.
    destruct (Disk.write d1 p (content args)) as [e|d2] eqn:Hwr; simpl.
    + apply HR. by left.
    + etrans; [apply HR; by left|]. apply HR. right. left. by eexists.
  - unfold append_to_note. intros w. unfold mbind, M_bind, lift.
    destruct (getSafePath root (path args)) as [p|e] eqn:Hp; [|simpl; reflexivity].
    assert ("append_to_note" ∈ writers) as Hin by (right; by left).
    specialize (HR Hin p eq_refl).
    unfold Fs.appendFile, Fs.update.
    destruct (Disk.append (disk w) p _) as [e|d1] eqn:Hap; simpl; [reflexivity|].
    apply HR. right. right. by eexists.
  - unfold patch_note. intros w. unfold mbind, M_bind, lift.
    destruct (getSafePath root (path args)) as [p|e] eqn:Hp; [|simpl; reflexivity].
    assert ("patch_note" ∈ writers) as Hin by (right; right; by left).
    specialize (HR Hin p eq_refl).
    unfold Fs.readFile, Fs.query.
    destruct (Disk.read (disk w) p) as [e|content]; [simpl; reflexivity|].
    destruct (negb _); [simpl; reflexivity|].
    unfold Fs.writeFile, Fs.update. simpl.
    destruct (Disk.write (disk w) p _) as [e|d1] eqn:Hwr; simpl; [reflexivity|].
    apply HR. right. left. by eexists.
  - unfold search_notes, search_results.
    apply keeps_bind; [done| |intros; by apply keeps_ret].
    apply keeps_bind; [done|by apply keeps_glob|]. intros files.
    by apply search_loop_keeps.
  - unfold list_notes, list_results.
    apply keeps_bind; [done| |intros; by apply keeps_ret].
    apply keeps_bind; [done|by apply keeps_glob|]. intros; by apply keeps_ret.
  - by apply keeps_throw.
Qed.

(** X5.  Whatever the tool and its outcome, every entry of the disk
    other than the one at the resolved [path] argument is still there
    after the call, unchanged: a call never alters or removes another
    note. *)
Theorem tools_keep_other_entries name args w q n :
  q ≠ Path.resolve root (path args) →
  Disk.lookup (disk w) q = Some n →
  Disk.lookup (disk (callTool root name args w).2) q = Some n.
Proof.
  intros Hq Hn.
  assert (keeps (same_except (Path.resolve root (path args))) (callTool root name args))
    as Hkeeps; [|by apply (Hkeeps w)].
  apply callTool_keeps; [apply same_except_refl|apply same_except_trans|].
  intros _ p [-> _]%getSafePath_Return d d' [Hmk|[[data Hwr]|[data Hap]]].
  - by eapply mkdir_same_except.
  - by eapply write_same_except.
  - by eapply append_same_except.
Qed.

(** X6.  Only [write_note], [append_to_note] and [patch_note] can change
    the disk: a call of any other tool, known or not, leaves it as it
    was. *)
Theorem other_tools_leave_disk name args w :
  name ∉ writers → disk (callTool root name args w).2 = disk w.
Proof.
  intros Hname.
  assert (keeps (λ d d', d' = d) (callTool root name args)) as Hkeeps;
    [|by apply (Hkeeps w)].
  apply callTool_keeps; [by intros ?|by intros ??? -> ->|done].
Qed.

(** X7.  No tool call deletes anything or changes the kind of an entry:
    whatever exists before a call exists after it, a note as a note and
    a directory as a directory. *)
Theorem tools_never_delete name args w q n :
  Disk.lookup (disk w) q = Some n →
  ∃ n', Disk.lookup (disk (callTool root name args w).2) q = Some n'
        ∧ Fs.isFile n' = Fs.isFile n.
Proof.
  intros Hn.
  assert (keeps same_kinds (callTool root name args)) as Hkeeps;
    [|by apply (Hkeeps w)].
  apply callTool_keeps; [apply same_kinds_refl|apply same_kinds_trans|].
  intros _ p _ d d' [Hmk|[[data Hwr]|[data Hap]]].
  - unfold Disk.mkdir_recursive in Hmk.
    destruct (Disk.mkdirp _ d _) as [d1|] eqn:Hd1; [|done]. injection Hmk as <-.
    intros k m Hm. exists m. split; [|done]. by eapply mkdirp_preserves.
  - unfold Disk.write, Disk.open_create in Hwr.
    destruct (Disk.lookup d p) as [[old|]|] eqn:Hold; simplify_eq/=.
    + apply insert_same_kinds. intros ?. rewrite Hold. by intros [= <-].
    + destruct (Disk.lookup d (Path.dirname p)) as [[|]|]; simplify_eq/=.
      apply insert_same_kinds. intros ?. by rewrite Hold.
  - unfold Disk.append, Disk.open_create in Hap.
    destruct (Disk.lookup d p) as [[old|]|] eqn:Hold; simplify_eq/=.
    + apply insert_same_kinds. intros ?. rewrite Hold. by intros [= <-].
    + destruct (Disk.lookup d (Path.dirname p)) as [[|]|]; simplify_eq/=.
      apply insert_same_kinds. intros ?. by rewrite Hold.
Qed.

End Frames.

(** Overwriting the note [x.md] leaves the directory [notes] in place. *)
Lemma tools_keep_other_entries_witness :
  let args := Args "x.md" "new" "" "" "" None in
  let w := World small_disk [] in
  "/data/vault/notes" ≠ Path.resolve "/data/vault" (path args)
  ∧ Disk.lookup (disk w) "/data/vault/notes" = Some Disk.Dir
  ∧ Disk.lookup (disk (callTool "/data/vault" "write_note" args w).2) "/data/vault/notes"
    = Some Disk.Dir.
Proof.
  assert ("/data/vault/notes" ≠ Path.resolve "/data/vault" "x.md") as Hq
    by (vm_compute; discriminate).
  split; [exact Hq|]. split; [reflexivity|].
  exact (tools_keep_other_entries "/data/vault" "write_note"
           (Args "x.md" "new" "" "" "" None) (World small_disk [])
           "/data/vault/notes" Disk.Dir Hq eq_refl).
Defined.

(** A search leaves the disk as it was. *)
Lemma other_tools_leave_disk_witness :
  let args := Args "" "" "" "" "x" None in
  ("search_notes" ∉ writers)
  ∧ disk (callTool "/data/vault" "search_notes" args (World small_disk [])).2 = small_disk.
Proof.
  assert ("search_notes" ∉ writers) as Hname.
  { unfold writers. repeat (apply not_elem_of_cons; split; [discriminate|]).
    apply not_elem_of_nil. }
  split; [exact Hname|].
  exact (other_tools_leave_disk "/data/vault" "search_notes"
           (Args "" "" "" "" "x" None) (World small_disk []) Hname).
Defined.

(** Overwriting the note [x.md] leaves a note at [x.md]. *)
Lemma tools_never_delete_witness :
  let args := Args "x.md" "new" "" "" "" None in
  let w := World small_disk [] in
  Disk.lookup (disk w) "/data/vault/x.md" = Some (Disk.File "x x")
  ∧ ∃ n', Disk.lookup (disk (callTool "/data/vault" "write_note" args w).2)
            "/data/vault/x.md" = Some n'
          ∧ Fs.isFile n' = Fs.isFile (Disk.File "x x").
Proof.
  split; [reflexivity|].
  exact (tools_never_delete "/data/vault" "write_note"
           (Args "x.md" "new" "" "" "" None) (World small_disk [])
           "/data/vault/x.md" (Disk.File "x x") eq_refl).
Defined.

(** ** When the note tools succeed *)

Section Outcomes.

Variable root : string.

(** X8.  [read_note] always answers and never changes the disk; it
    answers without the error flag exactly when the path is accepted and
    names a regular file; and whenever the path is accepted and names a
    regular file, the answer is the text of that file, without the error
    flag. *)
Theorem read_note_succeeds_iff args w :
  ∃ r w',
    callTool root "read_note" args w = (Return r, w')
    ∧ disk w' = disk w
    ∧ (isError r = false ↔
       ∃ p data, getSafePath root (path args) = Return p
                 ∧ Disk.lookup (disk w) p = Some (Disk.File data))
    ∧ (∀ p data, getSafePath root (path args) = Return p →
                 Disk.lookup (disk w) p = Some (Disk.File data) →
                 r = ToolResult data false).
Proof.
  unfold callTool, try_catch. simpl.
  unfold read_note, mbind, M_bind, lift, try_catch.
  destruct (getSafePath root (path args)) as [p|e] eqn:Hp.
  - unfold Fs.stat, Fs.readFile, Fs.query, Disk.stat, Disk.read.
    destruct (Disk.lookup (disk w) p) as [[data|]|] eqn:Hl; simpl.
    + rewrite Hl. eexists _, _. split_and!; [done..| |].
      * split; [|done]. intros _. by exists p, data.
      * intros ? ? [= <-] ?. congruence.
    + eexists _, _. split_and!; [done..| |].
      * split; [done|]. intros (? & ? & ? & ?). congruence.
      * intros ? ? [= <-] ?. congruence.
    + eexists _, _. split_and!; [done..| |].
      * split; [done|]. intros (? & ? & ? & ?). congruence.
      * intros ? ? [= <-] ?. congruence.
  - eexists _, _. split_and!; [done..| |].
    + split; [done|]. intros (? & ? & ? & _). congruence.
    + intros ? ? ?. congruence.
Qed.

(** X9.  [patch_note] always answers; it answers without the error flag
    exactly when the path is accepted and names a regular file whose
    text contains [old_text]; and when it answers with the error flag the
    disk is as it was. *)
Theorem patch_note_succeeds_iff args w :
  ∃ r w',
    callTool root "patch_note" args w = (Return r, w')
    ∧ (isError r = false ↔
       ∃ p data, getSafePath root (path args) = Return p
                 ∧ Disk.lookup (disk w) p = Some (Disk.File data)
                 ∧ occurs (old_text args) data)
    ∧ (isError r = true → disk w' = disk w).
Proof.
  unfold callTool, try_catch. simpl.
  unfold patch_note, mbind, M_bind, lift.
  destruct (getSafePath root (path args)) as [p|e] eqn:Hp.
  - unfold Fs.readFile, Fs.query, Disk.read.
    destruct (Disk.lookup (disk w) p) as [[data|]|] eqn:Hl; simpl.
    + destruct (Js.includes data (old_text args)) eqn:Hinc; simpl.
      * unfold Fs.writeFile, Fs.update, Disk.write, Disk.open_create. simpl.
        rewrite Hl. simpl. eexists _, _. split_and!; [done| |done].
        split; [|done]. intros _. exists p, data. by rewrite <- includes_spec.
      * eexists _, _. split_and!; [done| |done]. split; [done|].
        intros (? & ? & ? & ? & Hocc%includes_spec). congruence.
    + eexists _, _. split_and!; [done| |done]. split; [done|].
      intros (? & ? & ? & ? & _). congruence.
    + eexists _, _. split_and!; [done| |done]. split; [done|].
      intros (? & ? & ? & ? & _). congruence.
  - eexists _, _. split_and!; [done| |done]. split; [done|].
    intros (? & ? & ? & _). congruence.
Qed.

(** X10.  [append_to_note] always answers.  When it answers without the
    error flag, the path was accepted and either named a regular file or
    named nothing in an existing directory.  When the path is accepted
    and names a regular file, it answers without the error flag.  And
    when it answers with the error flag the disk is as it was. *)
Theorem append_to_note_outcomes args w :
  ∃ r w',
    callTool root "append_to_note" args w = (Return r, w')
    ∧ (isError r = false →
       r = ToolResult ("Successfully appended to " +:+ path args) false
       ∧ ∃ p, getSafePath root (path args) = Return p
              ∧ (is_file (disk w) p = true
                 ∨ Disk.lookup (disk w) p = None
                   ∧ is_dir (disk w) (Path.dirname p) = true))
    ∧ (∀ p, getSafePath root (path args) = Return p →
            is_file (disk w) p = true → isError r = false)
    ∧ (isError r = true → disk w' = disk w).
Proof.
  unfold callTool, try_catch. simpl.
  unfold append_to_note, mbind, M_bind, lift.
  destruct (getSafePath root (path args)) as [p|e] eqn:Hp.
  - unfold Fs.appendFile, Fs.update, Disk.append, Disk.open_create, is_file, is_dir.
    destruct (Disk.lookup (disk w) p) as [[data|]|] eqn:Hl; simpl.
    + eexists _, _. split_and!; [done| |done..].
      intros _. split; [done|]. exists p. rewrite Hl. auto.
    + eexists _, _. split_and!; [done|done| |done].
      intros ? [= <-]. by rewrite Hl.
    + destruct (Disk.lookup (disk w) (Path.dirname p)) as [[|]|] eqn:Hd; simpl.
      * eexists _, _. split_and!; [done|done| |done].
        intros ? [= <-]. by rewrite Hl.
      * eexists _, _. split_and!; [done| |done..].
        intros _. split; [done|]. exists p. rewrite Hl, Hd. auto.
      * eexists _, _. split_and!; [done|done| |done].
        intros ? [= <-]. by rewrite Hl.
  - eexists _, _. split_and!; [done|done| |done]. intros ? ?. congruence.
Qed.

End Outcomes.

(** ** Writing twice, appending and patching *)

Section Writes.

Variable root : string.

(** X11.  Writing the same note twice: after a successful [write_note],
    the same call answers the same and leaves the disk as the first call
    left it. *)
Theorem write_note_idempotent args w r w1 :
  callTool root "write_note" args w = (Return r, w1) → isError r = false →
  ∃ w2, callTool root "write_note" args w1 = (Return r, w2) ∧ disk w2 = disk w1.
Proof.
  intros Hcall Hok.
  destruct (write_note_inv root _ _ _ _ Hcall Hok) as (p & d1 & Hp & Hdir & Hnodir & Hd & ->).
  assert (p ≠ "/") as Hroot by (intros ->; done).
  assert (Path.dirname p ≠ p) as Hne by congruence.
  unfold callTool, try_catch. simpl.
  unfold write_note, mbind, M_bind, lift. rewrite Hp.
  unfold Fs.mkdir, Fs.update at 1, Disk.mkdir_recursive.
  rewrite mkdirp_there by (rewrite Hd, lookup_insert_other; done).
  unfold Fs.writeFile, Fs.update, Disk.write, Disk.open_create. simpl.
  rewrite Hd, lookup_insert_same by done. simpl.
  eexists. split; [done|]. simpl. apply insert_insert_eq.
Qed.

(** X12.  After a successful [append_to_note], [read_note] on the same
    path returns the text the note had before (nothing, for a note the
    call created), a line feed, and the appended text.  The appended text
    is a string of this development, of code units up to U+00FF, which
    UTF-8 writes and reads back unchanged. *)
Theorem append_then_read args w r w1 :
  callTool root "append_to_note" args w = (Return r, w1) → isError r = false →
  ∃ p w2,
    getSafePath root (path args) = Return p
    ∧ callTool root "read_note" args w1 =
        (Return (ToolResult (text_at (disk w) p +:+ JSON.nl +:+ content args) false), w2)
    ∧ disk w2 = disk w1.
Proof.
  unfold callTool at 1, try_catch. simpl.
  unfold append_to_note, mbind, M_bind, lift.
  destruct (getSafePath root (path args)) as [p|e] eqn:Hp; [|by intros [= <- <-]].
  unfold Fs.appendFile, Fs.update, Disk.append, Disk.open_create, text_at.
  destruct (Disk.lookup (disk w) p) as [[old|]|] eqn:Hold; simpl.
  - intros [= <- <-] _. exists p. eexists. split; [done|].
    assert (p ≠ "/") as Hroot by (intros ->; done).
    rewrite Hold. split; [apply read_note_reads; [done|]|done].
    simpl. by apply lookup_insert_same.
  - by intros [= <- <-].
  - destruct (Disk.lookup (disk w) (Path.dirname p)) as [[|]|] eqn:Hd; simpl;
      try (by intros [= <- <-]).
    intros [= <- <-] _. exists p. eexists. split; [done|].
    assert (p ≠ "/") as Hroot by (intros ->; done).
    rewrite Hold. split; [apply read_note_reads; [done|]|done].
    simpl. by apply lookup_insert_same.
Qed.

(** X13.  [patch_note] rewrites the note around the first occurrence of
    [old_text] and nothing else: the text before and the text after it
    stay, and between them goes the expansion of [new_text] as a
    replacement template, which is [new_text] itself when it has no
    dollar sign; [read_note] then returns the patched text.  The texts
    are strings of this development, of code units up to U+00FF, which
    UTF-8 writes and reads back unchanged. *)
Theorem patch_note_replaces_first_occurrence args w p pre post :
  getSafePath root (path args) = Return p →
  Disk.lookup (disk w) p = Some (Disk.File (pre +:+ old_text args +:+ post)) →
  first_at (old_text args) (pre +:+ old_text args +:+ post) (String.length pre) →
  ∃ new w1 w2,
    callTool root "patch_note" args w =
      (Return (ToolResult ("Successfully patched " +:+ path args) false), w1)
    ∧ new = Js.GetSubstitution (old_text args) pre post (new_text args)
    ∧ (dollar_free (new_text args) = true → new = new_text args)
    ∧ disk w1 = <[p := Disk.File (pre +:+ new +:+ post)]> (disk w)
    ∧ callTool root "read_note" args w1 =
        (Return (ToolResult (pre +:+ new +:+ post) false), w2).
Proof.
  intros Hp Hold Hfirst.
  assert (p ≠ "/") as Hroot by (intros ->; done).
  eexists _, _, _. split; [by apply patch_first_occurrence|].
  split; [done|]. split; [apply GetSubstitution_literal|]. split; [done|].
  apply read_note_reads; [done|]. simpl. by apply lookup_insert_same.
Qed.

End Writes.

(** Writing [new] to the note [x.md], twice. *)
Lemma write_note_idempotent_witness :
  let args := Args "x.md" "new" "" "" "" None in
  let run := callTool "/data/vault" "write_note" args (World small_disk []) in
  let r := ToolResult "Successfully wrote to x.md" false in
  run = (Return r, run.2)
  ∧ isError r = false
  ∧ ∃ w2, callTool "/data/vault" "write_note" args run.2 = (Return r, w2)
          ∧ disk w2 = disk run.2.
Proof.
  assert (callTool "/data/vault" "write_note" (Args "x.md" "new" "" "" "" None)
            (World small_disk [])
          = (Return (ToolResult "Successfully wrote to x.md" false),
             (callTool "/data/vault" "write_note" (Args "x.md" "new" "" "" "" None)
                (World small_disk [])).2)) as Hrun by (vm_compute; reflexivity).
  split; [exact Hrun|]. split; [reflexivity|].
  exact (write_note_idempotent "/data/vault" (Args "x.md" "new" "" "" "" None)
           (World small_disk []) _ _ Hrun eq_refl).
Defined.

(** Appending [more] to the note [x.md], which holds [x x]. *)
Lemma append_then_read_witness :
  let args := Args "x.md" "more" "" "" "" None in
  let run := callTool "/data/vault" "append_to_note" args (World small_disk []) in
  let r := ToolResult "Successfully appended to x.md" false in
  run = (Return r, run.2)
  ∧ isError r = false
  ∧ text_at small_disk "/data/vault/x.md" = "x x"
  ∧ ∃ p w2,
      getSafePath "/data/vault" (path args) = Return p
      ∧ callTool "/data/vault" "read_note" args run.2 =
          (Return (ToolResult (text_at small_disk p +:+ JSON.nl +:+ "more") false), w2)
      ∧ disk w2 = disk run.2.
Proof.
  assert (callTool "/data/vault" "append_to_note" (Args "x.md" "more" "" "" "" None)
            (World small_disk [])
          = (Return (ToolResult "Successfully appended to x.md" false),
             (callTool "/data/vault" "append_to_note" (Args "x.md" "more" "" "" "" None)
                (World small_disk [])).2)) as Hrun by (vm_compute; reflexivity).
  split; [exact Hrun|]. split; [reflexivity|]. split; [reflexivity|].
  exact (append_then_read "/data/vault" (Args "x.md" "more" "" "" "" None)
           (World small_disk []) _ _ Hrun eq_refl).
Defined.

(** Patching the first [x] of [x x] by [y]. *)
Lemma patch_note_replaces_first_occurrence_witness :
  let args := Args "x.md" "" "x" "y" "" None in
  let w := World small_disk [] in
  getSafePath "/data/vault" (path args) = Return "/data/vault/x.md"
  ∧ Disk.lookup (disk w) "/data/vault/x.md" = Some (Disk.File ("" +:+ "x" +:+ " x"))
  ∧ first_at "x" ("" +:+ "x" +:+ " x") 0
  ∧ ∃ new w1 w2,
      callTool "/data/vault" "patch_note" args w =
        (Return (ToolResult ("Successfully patched " +:+ path args) false), w1)
      ∧ new = Js.GetSubstitution "x" "" " x" "y"
      ∧ (dollar_free "y" = true → new = "y")
      ∧ disk w1 = <[ "/data/vault/x.md" := Disk.File ("" +:+ new +:+ " x") ]> (disk w)
      ∧ callTool "/data/vault" "read_note" args w1 =
          (Return (ToolResult ("" +:+ new +:+ " x") false), w2).
Proof.
  assert (first_at "x" ("" +:+ "x" +:+ " x") 0) as Hfirst.
  { split; [by exists "", " x"|]. intros j Hj. lia. }
  split; [reflexivity|]. split; [reflexivity|]. split; [exact Hfirst|].
  exact (patch_note_replaces_first_occurrence "/data/vault"
           (Args "x.md" "" "x" "y" "" None) (World small_disk [])
           "/data/vault/x.md" "" " x" eq_refl eq_refl Hfirst).
Defined.

(** ** More on the search and the listings *)

Lemma context_snippet_lower content q1 q2 :
  Js.toLowerCase q1 = Js.toLowerCase q2 →
  String.length q1 = String.length q2 →
  context_snippet content q1 = context_snippet content q2.
Proof.
  intros Hq Hlen. unfold context_snippet, Js.length. by rewrite Hq, Hlen.
Qed.

Lemma search_loop_lower root q1 q2 files :
  Js.toLowerCase q1 = Js.toLowerCase q2 →
  String.length q1 = String.length q2 →
  ∀ results w, search_loop root q1 files results w = search_loop root q2 files results w.
Proof.
  intros Hq Hlen. induction files as [|file files IH]; intros results w; [done|].
  simpl. unfold mbind, M_bind.
  destruct (lift (getSafePath root file) w) as [[p|e] w1]; [|done].
  destruct (Fs.readFile p w1) as [[content|e] w2]; [|done].
  unfold is_match, search_hit. rewrite Hq, (context_snippet_lower content q1 q2 Hq Hlen).
  destruct (_ || _); [|apply IH].
  destruct (_ >=? _)%Z; [done|apply IH].
Qed.

(** X14.  The search does not look at the case of the query: two queries
    of the same length that agree after lower-casing get the same answer,
    snippets included, and leave the same world. *)
Theorem search_ignores_case_of_query root a1 a2 w :
  Js.toLowerCase (query a1) = Js.toLowerCase (query a2) →
  String.length (query a1) = String.length (query a2) →
  callTool root "search_notes" a1 w = callTool root "search_notes" a2 w.
Proof.
  intros Hq Hlen. rewrite !search_notes_result.
  unfold search_results, mbind, M_bind.
  destruct (Glob.glob _ _ w) as [[files|e] w1]; [|done].
  by rewrite (search_loop_lower root _ _ files Hq Hlen).
Qed.

(** The queries [Hello] and [hELLO]. *)
Lemma search_ignores_case_of_query_witness :
  Js.toLowerCase "Hello" = Js.toLowerCase "hELLO"
  ∧ String.length "Hello" = String.length "hELLO"
  ∧ callTool "/data/vault" "search_notes" (Args "" "" "" "" "Hello" None)
      (World hello_disk [])
    = callTool "/data/vault" "search_notes" (Args "" "" "" "" "hELLO" None)
        (World hello_disk []).
Proof.
  split; [reflexivity|]. split; [reflexivity|].
  exact (search_ignores_case_of_query "/data/vault" (Args "" "" "" "" "Hello" None)
           (Args "" "" "" "" "hELLO" None) (World hello_disk []) eq_refl eq_refl).
Defined.

Lemma single_line_app s t : single_line (s +:+ t) = single_line s && single_line t.
Proof.
  induction s as [|c s IH]; [done|]. rewrite string_app_cons. simpl.
  by rewrite IH, andb_assoc.
Qed.

Lemma single_line_replace_newlines s : single_line (Js.replace_newlines s) = true.
Proof.
  induction s as [|c s IH]; [done|].
  change (Js.replace_newlines (String c s))
    with (String (if Ascii.eqb c "010" then " "%char else c) (Js.replace_newlines s)).
  change (single_line (String ?a ?t)) with (negb (Ascii.eqb a "010") && single_line t).
  rewrite IH, andb_true_r.
  destruct (Ascii.eqb c "010") eqn:Hc; [done|]. by rewrite Hc.
Qed.

Lemma search_hit_snippet file content query :
  single_line (snippet (search_hit file content query)) = true
  ∧ (String.length (snippet (search_hit file content query))
     ≤ String.length query + 106)%nat.
Proof.
  unfold search_hit. simpl.
  destruct (Js.StringIndexOf (Js.toLowerCase content) (Js.toLowerCase query)) as [i|] eqn:Hi.
  - rewrite (context_snippet_found _ _ _ Hi).
    destruct (truthy _); [|split; [done|simpl; lia]].
    rewrite !single_line_app, single_line_replace_newlines. split; [done|].
    rewrite !string_length_app. unfold Js.replace_newlines.
    rewrite string_length_map, length_context_window. simpl. lia.
  - rewrite context_snippet_absent by done. simpl. split; [done|lia].
Qed.

(** X15.  Every snippet of a search result is one line, and at most 106
    characters longer than the query: the 50 characters on either side of
    the match and the two ellipsis markers. *)
Theorem snippets_are_short_lines root query w rs w' :
  search_results root query w = (Return rs, w') →
  Forall (λ r, single_line (snippet r) = true
               ∧ (String.length (snippet r) ≤ String.length query + 106)%nat) rs.
Proof.
  intros (scanned & rest & _ & _ & -> & _)%search_results_spec.
  apply Forall_forall. intros r (file & _ & Hhit)%list_elem_of_omap.
  unfold hit_of in Hhit. destruct (content_of root (disk w) file) as [c|]; [|done].
  simpl in Hhit. destruct (is_match file c query); [|done]. injection Hhit as <-.
  apply search_hit_snippet.
Qed.

Lemma snippets_are_short_lines_witness :
  search_results "/data/vault" "hello" (World hello_disk [])
    = (Return [Hit "a.md" "...hello world..."; Hit "hello.md" "Matched in filename"],
       hello_run.2)
  ∧ Forall (λ r, single_line (snippet r) = true
                 ∧ (String.length (snippet r) ≤ String.length "hello" + 106)%nat)
      [Hit "a.md" "...hello world..."; Hit "hello.md" "Matched in filename"].
Proof.
  assert (search_results "/data/vault" "hello" (World hello_disk [])
          = (Return [Hit "a.md" "...hello world..."; Hit "hello.md" "Matched in filename"],
             hello_run.2)) as Hrun by (vm_compute; reflexivity).
  split; [exact Hrun|].
  exact (snippets_are_short_lines "/data/vault" "hello" (World hello_disk []) _ _ Hrun).
Defined.

Lemma hit_paths_sublist root d query scanned :
  hit_path <$> omap (hit_of root d query) scanned `sublist_of` scanned.
Proof.
  induction scanned as [|file scanned IH]; simpl; [done|].
  unfold hit_of at 1. destruct (content_of root d file) as [c|]; simpl;
    [|by apply sublist_cons].
  destruct (is_match file c query); simpl; [by apply sublist_skip|by apply sublist_cons].
Qed.

(** X16.  A search reports every note at most once. *)
Theorem search_reports_no_note_twice root query w rs w' :
  search_results root query w = (Return rs, w') → NoDup (hit_path <$> rs).
Proof.
  intros (scanned & rest & Hc & _ & -> & _)%search_results_spec.
  eapply sublist_NoDup; [|apply hit_paths_sublist].
  pose proof (NoDup_matches "**/*.md" (Glob.Options root ["node_modules/**"]) (disk w)) as Hnd.
  unfold search_candidates in Hc. rewrite Hc in Hnd. by apply NoDup_app in Hnd as [? _].
Qed.

Lemma search_reports_no_note_twice_witness :
  search_results "/data/vault" "todo" (World crowded_disk [])
    = (Return crowded_hits, crowded_run.2)
  ∧ NoDup (hit_path <$> crowded_hits).
Proof.
  assert (search_results "/data/vault" "todo" (World crowded_disk [])
          = (Return crowded_hits, crowded_run.2)) as Hrun by (vm_compute; reflexivity).
  split; [exact Hrun|].
  exact (search_reports_no_note_twice "/data/vault" "todo" (World crowded_disk []) _ _ Hrun).
Defined.

(** X17.  The resource listing scans the vault and changes nothing; the
    resources it returns have pairwise distinct URIs, each the path of a
    note of the listing after [obsidian:///], with the type
    [text/markdown]. *)
Theorem resources_are_distinct root w :
  ∃ rs, listResources root w = (Return rs, log (SysScan root) w)
        ∧ NoDup (uri <$> rs)
        ∧ Forall (λ r, uri r = "obsidian:///" +:+ name r
                       ∧ mimeType r = "text/markdown"
                       ∧ name r ∈ list_candidates root (disk w)) rs.
Proof.
  eexists. split; [done|]. split.
  - rewrite <- list_fmap_compose. apply NoDup_fmap_2_strong; [|apply NoDup_matches].
    intros x y _ _ Heq. simpl in Heq. by simplify_eq.
  - apply Forall_fmap, Forall_forall. by intros file Hfile.
Qed.

(** X18.  For a request with an arguments object whose [limit], when it
    is present, is an integer, [list_notes] returns a beginning of the
    notes in enumeration order: at most [limit] of them, at most 50 when
    the arguments have no limit, and, for a negative limit, all but the
    last [-limit]. *)
Theorem list_notes_limit root args w :
  ∃ sliced,
    list_results root args w = (Return sliced, log (SysScan root) w)
    ∧ sliced `prefix_of` list_candidates root (disk w)
    ∧ Z.of_nat (length sliced) =
        let n := Z.of_nat (length (list_candidates root (disk w))) in
        match limit args with
        | None => Z.min 50 n
        | Some k => if (k <? 0)%Z then Z.max (n + k) 0 else Z.min k n
        end.
Proof.
  eexists. split; [done|]. fold (list_candidates root (disk w)).
  set (files := list_candidates root (disk w)). unfold slice0. split.
  - destruct (_ <? _)%Z; apply prefix_take.
  - destruct (limit args) as [k|]; simpl.
    + destruct (Z.ltb_spec k 0); rewrite length_take; lia.
    + rewrite length_take. lia.
Qed.

(** ** No call around the guard *)

Section Logs.

Context (P : fs_call → Prop).

Lemma logs_ret {A} (a : A) : logs P (mret a).
Proof. intros w. exists []. by rewrite app_nil_r. Qed.

Lemma logs_throw {A} e : logs P (@throw A e).
Proof. intros w. exists []. by rewrite app_nil_r. Qed.

Lemma logs_bind {A B} (m : M A) (k : A → M B) :
  logs P m → (∀ a, logs P (k a)) → logs P (m ≫= k).
Proof.
  intros Hm Hk w. unfold mbind, M_bind. destruct (Hm w) as (cs & Hcs & HP).
  destruct (m w) as [[a|e] w1]; [|by exists cs].
  destruct (Hk a w1) as (cs' & Hcs' & HP'). exists (cs ++ cs').
  simpl in *. rewrite Hcs', Hcs, (assoc_L (++)). split; [done|by apply Forall_app].
Qed.

Lemma logs_bind_lift {A B} (o : outcome A) (k : A → M B) :
  (∀ a, o = Return a → logs P (k a)) → logs P (lift o ≫= k).
Proof.
  intros Hk w. unfold mbind, M_bind, lift. destruct o as [a|e]; [by apply Hk|].
  exists []. by rewrite app_nil_r.
Qed.

Lemma logs_try_catch {A} (m : M A) (h : exn → M A) :
  logs P m → (∀ e, logs P (h e)) → logs P (try_catch m h).
Proof.
  intros Hm Hh w. unfold try_catch. destruct (Hm w) as (cs & Hcs & HP).
  destruct (m w) as [[a|e] w1]; [by exists cs|].
  destruct (Hh e w1) as (cs' & Hcs' & HP'). exists (cs ++ cs').
  simpl in *. rewrite Hcs', Hcs, (assoc_L (++)). split; [done|by apply Forall_app].
Qed.

Lemma logs_query {A} c (f : gmap string Disk.node → Disk.error + A) :
  P c → logs P (Fs.query c f).
Proof.
  intros Hc w. exists [c]. unfold Fs.query.
  destruct (f (disk w)); simpl; by repeat constructor.
Qed.

Lemma logs_update c f : P c → logs P (Fs.update c f).
Proof.
  intros Hc w. exists [c]. unfold Fs.update.
  destruct (f (disk w)); simpl; by repeat constructor.
Qed.

End Logs.

Section Confinement.

Variable root : string.

Lemma search_loop_logs query files :
  ∀ results, logs (guarded root) (search_loop root query files results).
Proof.
  induction files as [|file files IH]; intros results; [apply logs_ret|].
  simpl. apply logs_bind_lift. intros p Hp.
  apply logs_bind; [apply logs_query; by exists file|]. intros content.
  destruct (is_match file content query); [|apply IH].
  destruct (_ >=? _)%Z; [apply logs_ret|apply IH].
Qed.

Lemma glob_logs pattern ignore :
  logs (guarded root) (Glob.glob pattern (Glob.Options root ignore)).
Proof. intros w. exists [SysScan root]. simpl. by repeat constructor. Qed.

(** X19.  Every file-system call a tool makes is guarded: it is the scan
    of the vault, or it is made on the very path [getSafePath] returned,
    or, for the [mkdir] of [write_note], on the directory of that path.
    No handler of a tool reaches the file system around the guard. *)
Theorem tool_calls_are_guarded name args w :
  ∃ calls,
    trace (callTool root name args w).2 = trace w ++ calls
    ∧ Forall (guarded root) calls.
Proof.
  revert w. change (logs (guarded root) (callTool root name args)).
  unfold callTool. apply logs_try_catch; [|intros; apply logs_ret].
  repeat case_match.
  - unfold read_note. apply logs_bind_lift. intros p Hp.
    apply logs_try_catch; [|intros; apply logs_ret].
    apply logs_bind; [apply logs_query; by eexists|]. intros stats.
    case_match; [apply logs_throw|].
    apply logs_bind; [apply logs_query; by eexists|]. intros. apply logs_ret.
  - unfold write_note. apply logs_bind_lift. intros p Hp.
    apply logs_bind; [apply logs_update; by eexists _, _|]. intros _.
    apply logs_bind; [apply logs_update; by eexists|]. intros. apply logs_ret.
  - unfold append_to_note. apply logs_bind_lift. intros p Hp.
    apply logs_bind; [apply logs_update; by eexists|]. intros. apply logs_ret.
  - unfold patch_note. apply logs_bind_lift. intros p Hp.
    apply logs_bind; [apply logs_query; by eexists|]. intros content.
    case_match; [apply logs_throw|].
    apply logs_bind; [apply logs_update; by eexists|]. intros. apply logs_ret.
  - unfold search_notes, search_results.
    apply logs_bind; [|intros; apply logs_ret].
    apply logs_bind; [apply glob_logs|]. intros. apply search_loop_logs.
  - unfold list_notes, list_results.
    apply logs_bind; [|intros; apply logs_ret].
    apply logs_bind; [apply glob_logs|]. intros. apply logs_ret.
  - apply logs_throw.
Qed.

End Confinement.

(** ** The errors of the dispatcher *)

Section Catalogue.

Variable root : string.

Lemma search_loop_throws query files : ∀ results w e w',
  search_loop root query files results w = (Throw e, w') →
  e = Error "Access denied: Path is outside the vault" ∨ ∃ err, e = SystemError err.
Proof.
  induction files as [|file files IH]; intros results w e w'; [done|].
  simpl. unfold mbind, M_bind, lift, Fs.readFile, Fs.query.
  destruct (getSafePath root file) as [p|e0] eqn:Hp.
  - destruct (Disk.read (disk w) p) as [err|content]; [intros [= <- _]; eauto|].
    destruct (is_match file content query); [|apply IH].
    destruct (_ >=? _)%Z; [done|apply IH].
  - intros [= <- _]. left. by apply getSafePath_Throw in Hp as [_ ?].
Qed.

(** What a tool can throw at the outer [catch], and what it can return
    with the error flag on its own. *)
Lemma tool_body_outcomes name args w :
  match (if String.eqb name "read_note" then read_note root args
         else if String.eqb name "write_note" then write_note root args
         else if String.eqb name "append_to_note" then append_to_note root args
         else if String.eqb name "patch_note" then patch_note root args
         else if String.eqb name "search_notes" then search_notes root args
         else if String.eqb name "list_notes" then list_notes root args
         else throw (McpError MethodNotFound ("Unknown tool: " +:+ name))) w with
  | (Return r, _) =>
      (isError r = true →
       name = "read_note" ∧ ∃ e, text r = "Error reading file: " +:+ message e)
  | (Throw e, _) =>
      ((name ∈ tools ∧ e = Error "Access denied: Path is outside the vault")
       ∨ (name = "patch_note" ∧ e = Error "Could not find old_text in file")
       ∨ (name ∈ tools ∧ ∃ err, e = SystemError err)
       ∨ ((name ∉ tools) ∧ e = McpError MethodNotFound ("Unknown tool: " +:+ name)))
  end.
Proof.
  assert (∀ t, t ∈ ["read_note"; "write_note"; "append_to_note"; "patch_note";
                    "search_notes"; "list_notes"] → t ∈ tools) as Hin by done.
  destruct (String.eqb_spec name "read_note") as [->|N1].
  { unfold read_note, mbind, M_bind, lift, try_catch.
    repeat case_match; unfold mret, M_ret, throw in *; simplify_eq/=; settle_outcome getSafePath_Throw Hin. }
  destruct (String.eqb_spec name "write_note") as [->|N2].
  { unfold write_note, mbind, M_bind, lift.
    unfold Fs.mkdir, Fs.writeFile, Fs.update.
    repeat case_match; unfold mret, M_ret, throw in *; simplify_eq/=; settle_outcome getSafePath_Throw Hin. }
  destruct (String.eqb_spec name "append_to_note") as [->|N3].
  { unfold append_to_note, mbind, M_bind, lift.
    unfold Fs.appendFile, Fs.update.
    repeat case_match; unfold mret, M_ret, throw in *; simplify_eq/=; settle_outcome getSafePath_Throw Hin. }
  destruct (String.eqb_spec name "patch_note") as [->|N4].
  { unfold patch_note, mbind, M_bind, lift.
    unfold Fs.readFile, Fs.writeFile, Fs.update, Fs.query.
    repeat case_match; unfold mret, M_ret, throw in *; simplify_eq/=; settle_outcome getSafePath_Throw Hin. }
  destruct (String.eqb_spec name "search_notes") as [->|N5].
  { unfold search_notes, mbind, M_bind at 1.
    destruct (search_results root (query args) w) as [[rs|e] w'] eqn:Hrun; [done|].
    unfold search_results, mbind, M_bind, Glob.glob in Hrun.
    apply search_loop_throws in Hrun as [->|[err ->]].
    - left. split; [apply Hin; repeat constructor|done].
    - right; right; left. split; [apply Hin; repeat constructor|by eexists]. }
  destruct (String.eqb_spec name "list_notes") as [->|N6]; [done|].
  right. right. right. split; [|done]. unfold tools, path_tools. simpl. intros Hname.
  repeat (apply elem_of_cons in Hname as [?|Hname]; [done|]). by apply elem_of_nil in Hname.
Qed.

Lemma errno_text_E c : ∃ t, errno_text c = String "E" t.
Proof. destruct c; by eexists. Qed.

(** X20.  The dispatcher never rejects: whatever the tool name and the
    arguments, the call is answered with a result.  A result without the
    error flag comes from one of the six tools.  A result with the error
    flag has a text that starts with [Error: ], or, from [read_note]
    only, with [Error reading file: ].  And a name outside the list of
    tools gets the message for an unknown tool. *)
Theorem callTool_never_rejects name args w :
  ∃ r w',
    callTool root name args w = (Return r, w')
    ∧ (isError r = false → name ∈ tools)
    ∧ (isError r = true →
       ∃ m, text r = "Error: " +:+ m
            ∨ (name = "read_note" ∧ text r = "Error reading file: " +:+ m))
    ∧ ((name ∉ tools) → r = unknown_tool_result name).
Proof.
  unfold callTool, try_catch. pose proof (tool_body_outcomes name args w) as Hbody.
  match goal with |- context [ match ?b w with _ => _ end ] => destruct (b w) as [[r|e] w'] eqn:Hb end;
    eexists _, _; (split; [done|]).
  - split_and!.
    + intros _. destruct (decide (name ∈ tools)) as [|Hname]; [done|]. exfalso.
      revert Hb. unfold tools, path_tools in Hname.
      repeat (apply not_elem_of_cons in Hname as [?%String.eqb_neq Hname]).
      by repeat case_match.
    + intros Herr. destruct (Hbody Herr) as [-> [e He]]. exists (message e). by right.
    + intros Hname. exfalso. revert Hb. unfold tools, path_tools in Hname.
      repeat (apply not_elem_of_cons in Hname as [?%String.eqb_neq Hname]).
      by repeat case_match.
  - split_and!; [done| |].
    + intros _. exists (message e). by left.
    + intros Hname. destruct Hbody as [[? _]|[[-> _]|[[? _]|[_ ->]]]]; [done| |done|done].
      destruct Hname. unfold tools, path_tools. simpl.
      repeat first [by apply list_elem_of_here | apply list_elem_of_further].
Qed.

(** X21.  The tools [ListTools] advertises are the tools the dispatcher
    knows: a call is answered with the message for an unknown tool
    exactly when its name is not advertised. *)
Theorem advertised_tools_are_dispatched name args w :
  (callTool root name args w).1 = Return (unknown_tool_result name)
  ↔ name ∉ tool_name <$> listTools.
Proof.
  change (tool_name <$> listTools) with tools. split.
  - unfold callTool, try_catch. pose proof (tool_body_outcomes name args w) as Hbody.
    match goal with |- context [ match ?b w with _ => _ end ] => destruct (b w) as [[r|e] w'] end;
      simpl.
    + intros [= ->]. by destruct (Hbody eq_refl) as [_ [e He]].
    + intros [= Htext]. destruct Hbody as [[_ ->]|[[_ ->]|[[_ [err ->]]|[Hname _]]]];
        [done|done| |done].
      destruct err as [c call target]. simpl in Htext.
      destruct (errno_text_E c) as [t Ht]. by rewrite Ht in Htext.
  - intros Hname. by rewrite unknown_tool.
Qed.

End Catalogue.

(** ** When the search fails *)

Section Candidates.

Variable rs : list string.
Hypothesis Hrs : Forall plain rs.

Local Abbreviation root := ("/" +:+ Path.join rs).

(** On a disk with normal keys, what [glob] lists below the root passes
    the guard and resolves to the entry it was listed for. *)
Lemma entry_resolves ign d file :
  normal_keys d = true →
  file ∈ Glob.entries (Glob.Options root ign) d →
  ∃ key n, Disk.lookup d key = Some n ∧ getSafePath root file = Return key.
Proof.
  intros Hd (key & Hkey & Hrel)%list_elem_of_omap.
  apply list_elem_of_fmap in Hkey as ([key' n] & -> & Hn).
  apply relative_inv in Hrel as [Hstart Hfile_ne].
  change (Glob.cwd _) with root in Hstart. change ((key', n).1) with key' in Hstart.
  exists key', n.
  assert (normal key' = true) as Hnormal.
  { unfold normal_keys in Hd. rewrite forallb_forall in Hd. apply Hd.
    apply list_elem_of_In, list_elem_of_fmap. by exists (key', n). }
  apply elem_of_map_to_list in Hn.
  apply normal_spec in Hnormal as (ks & Hks & ->).
  assert (∃ segs, Forall plain segs ∧ segs ≠ [] ∧ file = Path.join segs ∧ ks = rs ++ segs)
    as (segs & Hsegs & Hsegs_ne & -> & ->).
  { destruct (decide (rs = [])) as [Hnil|Hcons].
    - exists ks. assert (root = "/") as Hroot by (by rewrite Hnil).
      rewrite Hroot, bool_decide_eq_true_2 in Hstart by done.
      injection Hstart as Hstart. change (Path.join ks = file) in Hstart.
      rewrite Hnil. split_and!; [done| |done|done]. intros ->. by rewrite <- Hstart in Hfile_ne.
    - assert (root ≠ "/") as Hroot.
      { intros [= Hj]. by apply (join_plain_nonempty rs). }
      rewrite (bool_decide_eq_false_2 _ Hroot) in Hstart.
      rewrite !string_app_assoc in Hstart. injection Hstart as Hstart.
      change (Path.join ks = Path.join rs +:+ "/" +:+ file) in Hstart.
      assert (ks ≠ []) as Hks_ne.
      { intros ->. symmetry in Hstart. apply string_app_nil_inv in Hstart as [Hj _].
        by apply (join_plain_nonempty rs). }
      assert (ks = rs ++ Path.split file) as Heq.
      { rewrite <- (split_join ks) by (done || by apply plain_no_sep).
        rewrite Hstart, split_sep. by rewrite split_join by (done || by apply plain_no_sep). }
      exists (Path.split file). rewrite Heq in Hks. apply Forall_app in Hks as [_ Hks].
      split_and!; [done|apply split_nonempty|by rewrite join_split|done]. }
  split.
  2:{ apply getSafePath_Return. rewrite resolve_plain by done.
      split; [done|by apply below_root_extends_root]. }
  unfold Disk.lookup. rewrite bool_decide_eq_false_2; [done|].
  intros [= Hj]. apply (join_plain_nonempty (rs ++ segs)); [by apply Forall_app| |done].
  by destruct rs, segs.
Qed.

Lemma search_loop_throws_on_directory query d files : ∀ results w e w',
  Forall (λ file, ∃ key n, Disk.lookup d key = Some n ∧ getSafePath root file = Return key)
    files →
  disk w = d →
  search_loop root query files results w = (Throw e, w') →
  e = SystemError (Disk.Err Disk.EISDIR "read" None)
  ∧ ∃ file, file ∈ files ∧ is_dir d (Path.resolve root file) = true.
Proof.
  induction files as [|file files IH]; intros results w e w' Hall Hd; [done|].
  apply Forall_cons in Hall as [(key & n & Hn & Hp) Hall].
  simpl. unfold mbind, M_bind, lift. rewrite Hp.
  pose proof Hp as [-> _]%getSafePath_Return.
  unfold Fs.readFile, Fs.query, Disk.read. rewrite Hd, Hn.
  assert (∀ results w1, disk w1 = d →
            search_loop root query files results w1 = (Throw e, w') →
            e = SystemError (Disk.Err Disk.EISDIR "read" None)
            ∧ ∃ f, f ∈ file :: files ∧ is_dir d (Path.resolve root f) = true) as Hrest.
  { intros results1 w1 Hd1 Hrun.
    destruct (IH results1 w1 e w' Hall Hd1 Hrun) as (? & f & ? & ?).
    split; [done|]. exists f. split; [by right|done]. }
  destruct n as [data|].
  - destruct (is_match file data query); [|by apply Hrest].
    destruct (_ >=? _)%Z; [done|by apply Hrest].
  - intros [= <- _]. split; [done|]. exists file. split; [by left|].
    unfold is_dir. by rewrite Hn.
Qed.

(** X22.  On a disk with normal keys and for a root in normal form, a
    search is never refused by the guard and never misses a file it was
    given: it fails only by reading a directory whose name ends in
    [.md], and when no candidate is a directory it succeeds. *)
Theorem search_fails_only_on_directories args w :
  normal_keys (disk w) = true →
  ∃ r w',
    callTool root "search_notes" args w = (Return r, w')
    ∧ (isError r = true →
       text r = "Error: EISDIR: illegal operation on a directory, read"
       ∧ ∃ file, file ∈ search_candidates root (disk w)
                 ∧ is_dir (disk w) (Path.resolve root file) = true)
    ∧ (Forall (λ file, is_dir (disk w) (Path.resolve root file) = false)
         (search_candidates root (disk w)) → isError r = false).
Proof.
  intros Hd. rewrite search_notes_result.
  assert (Forall (λ file, ∃ key n, Disk.lookup (disk w) key = Some n
                                   ∧ getSafePath root file = Return key)
            (search_candidates root (disk w))) as Hall.
  { apply Forall_forall. intros file [Hfile _]%list_elem_of_In%filter_In.
    apply list_elem_of_In in Hfile. by eapply entry_resolves. }
  destruct (search_results root (query args) w) as [[rs'|e] w'] eqn:Hrun;
    eexists _, _; (split; [done|]); simpl.
  - done.
  - unfold search_results, mbind, M_bind, Glob.glob in Hrun.
    apply (search_loop_throws_on_directory _ (disk w)) in Hrun as [-> (file & Hfile & Hdir)];
      [|done|done].
    split.
    + intros _. split; [done|]. by exists file.
    + intros Hnone. rewrite Forall_forall in Hnone.
      specialize (Hnone file Hfile). congruence.
Qed.

End Candidates.

(** The vault with the directory [archive.md]. *)
Lemma search_fails_only_on_directories_witness :
  Forall plain ["data"; "vault"]
  ∧ normal_keys directory_note_disk = true
  ∧ ∃ r w',
      callTool "/data/vault" "search_notes" (Args "" "" "" "" "todo" None)
        (World directory_note_disk []) = (Return r, w')
      ∧ (isError r = true →
         text r = "Error: EISDIR: illegal operation on a directory, read"
         ∧ ∃ file, file ∈ search_candidates "/data/vault" directory_note_disk
                   ∧ is_dir directory_note_disk (Path.resolve "/data/vault" file) = true)
      ∧ (Forall (λ file, is_dir directory_note_disk (Path.resolve "/data/vault" file) = false)
           (search_candidates "/data/vault" directory_note_disk) → isError r = false).
Proof.
  assert (Forall plain ["data"; "vault"]) as Hrs
    by (repeat (constructor; [done|]); constructor).
  split; [exact Hrs|]. split; [vm_compute; reflexivity|].
  exact (search_fails_only_on_directories ["data"; "vault"] Hrs
           (Args "" "" "" "" "todo" None) (World directory_note_disk [])
           ltac:(vm_compute; reflexivity)).
Defined.

(** ** A written note is listed *)

Lemma match_tokens_star ts s :
  Glob.match_tokens (Glob.Star :: ts) s =
    Glob.match_tokens ts s
    || match s with
       | String _ s' => Glob.match_tokens (Glob.Star :: ts) s'
       | "" => false
       end.
Proof. by destruct s. Qed.

(** [*.md] matches every name that ends in [.md]. *)
Lemma match_tokens_md stem :
  Glob.match_tokens [Glob.Star; Glob.Lit "."; Glob.Lit "m"; Glob.Lit "d"] (stem +:+ ".md")
  = true.
Proof.
  induction stem as [|c stem IH]; [done|].
  rewrite string_app_cons, match_tokens_star, IH. apply orb_true_r.
Qed.

Lemma match_path_md dirs note :
  Forall (λ seg, Glob.hidden seg = false) (dirs ++ [note]) →
  Glob.match_tokens [Glob.Star; Glob.Lit "."; Glob.Lit "m"; Glob.Lit "d"] note = true →
  Glob.match_path false md_pattern (dirs ++ [note]) = true.
Proof.
  intros Hvisible Hnote. unfold md_pattern.
  induction dirs as [|dir dirs IH]; rewrite match_path_globstar.
  - apply Forall_cons in Hvisible as [Hv _]. apply orb_true_iff. left.
    simpl. unfold Glob.match_segment. by rewrite Hv, Hnote.
  - apply Forall_cons in Hvisible as [Hv Hvisible]. apply orb_true_iff. right.
    simpl app. cbv beta iota. rewrite Hv. by apply IH.
Qed.

(** A pattern segment without star matches its own text only. *)
Lemma match_tokens_literal t s :
  Glob.match_tokens (Glob.Lit <$> String.list_ascii_of_string t) s = true → s = t.
Proof.
  revert s. induction t as [|c t IH]; intros s; simpl.
  - by intros ?%bool_decide_eq_true.
  - destruct s as [|c' s]; [done|].
    intros [Hc Hs]%andb_true_iff. apply Ascii.eqb_eq in Hc as ->. f_equal. by apply IH.
Qed.

Lemma minimatch_node_modules p :
  Glob.minimatch true "node_modules/**" p = true → head (Path.split p) = Some "node_modules".
Proof.
  unfold Glob.minimatch.
  change (Glob.parse "node_modules/**")
    with [Glob.Seg (Glob.Lit <$> String.list_ascii_of_string "node_modules"); Glob.GlobStar].
  destruct (Path.split p) as [|s segs]; [done|].
  cbn [Glob.match_path]. intros [Hs _]%andb_true_iff.
  unfold Glob.match_segment in Hs. apply andb_true_iff in Hs as [_ Hs].
  apply match_tokens_literal in Hs as ->. done.
Qed.

Lemma string_app_inv_nil s t : s +:+ t = s → t = "".
Proof.
  induction s as [|c s IH]; [done|]. rewrite string_app_cons. intros [= H]. by apply IH.
Qed.

Section Listed.

Variable rs : list string.
Hypothesis Hrs : Forall plain rs.

Local Abbreviation root := ("/" +:+ Path.join rs).

(** The entry of plain segments below the root is listed under these
    segments. *)
Lemma relative_below segs :
  Forall plain segs → segs ≠ [] →
  Glob.relative root ("/" +:+ Path.join (rs ++ segs)) = Some (Path.join segs).
Proof.
  intros Hsegs Hne. unfold Glob.relative.
  pose proof (join_plain_nonempty segs Hsegs Hne) as Hjoin.
  assert (∃ base, (if bool_decide (root = "/") then "/" else root +:+ "/") = base
                  ∧ "/" +:+ Path.join (rs ++ segs) = base +:+ Path.join segs)
    as (base & -> & ->).
  { destruct (decide (rs = [])) as [Hnil|Hcons].
    - exists "/". rewrite Hnil. done.
    - exists (root +:+ "/"). rewrite bool_decide_eq_false_2.
      + split; [done|]. rewrite join_app by done. by rewrite !string_app_assoc.
      + intros [= Hj]. by apply (join_plain_nonempty rs). }
  rewrite startsWith_app, string_drop_app_length. simpl.
  rewrite bool_decide_eq_false_2; [done|]. by intros ?%string_app_inv_nil.
Qed.

(** X23.  A note written with [write_note] is listed: when the path is
    made of plain segments none of which starts with a dot, its name ends
    in [.md] and it does not lie under [node_modules], the note is among
    the candidates of the listings and of the search after a successful
    call. *)
Theorem written_note_is_listed dirs stem args w r w1 :
  Forall plain (dirs ++ [stem +:+ ".md"]) →
  Forall (λ seg, Glob.hidden seg = false) (dirs ++ [stem +:+ ".md"]) →
  head dirs ≠ Some "node_modules" →
  path args = Path.join (dirs ++ [stem +:+ ".md"]) →
  callTool root "write_note" args w = (Return r, w1) → isError r = false →
  path args ∈ list_candidates root (disk w1)
  ∧ path args ∈ search_candidates root (disk w1).
Proof.
  intros Hplain Hvisible Hnm Hpath Hcall Hok.
  set (segs := dirs ++ [stem +:+ ".md"]) in *.
  assert (segs ≠ []) as Hne by (unfold segs; by destruct dirs).
  destruct (write_note_inv _ _ _ _ _ Hcall Hok) as (p & d1 & Hp & _ & _ & Hd & _).
  apply getSafePath_Return in Hp as [-> _].
  rewrite Hpath, resolve_plain in Hd by done.
  assert (Path.join segs ∈ search_candidates root (disk w1)) as Hin.
  { unfold search_candidates, Glob.matches.
    apply list_elem_of_In, filter_In. split.
    - apply list_elem_of_In. unfold Glob.entries. apply list_elem_of_omap.
      exists ("/" +:+ Path.join (rs ++ segs)). split; [|by apply relative_below].
      apply list_elem_of_fmap. eexists (_, _). split; [done|].
      apply elem_of_map_to_list. rewrite Hd. apply lookup_insert_eq.
    - unfold Glob.selected. apply andb_true_iff. split.
      + unfold Glob.minimatch. rewrite parse_md, split_join by (done || by apply plain_no_sep).
        apply match_path_md; [done|apply match_tokens_md].
      + simpl. rewrite orb_false_r. apply negb_true_iff.
        destruct (Glob.minimatch true "node_modules/**" (Path.join segs)) eqn:Hm; [|done].
        apply minimatch_node_modules in Hm.
        rewrite split_join in Hm by (done || by apply plain_no_sep).
        unfold segs in Hm. destruct dirs as [|dir dirs']; [|done].
        simpl in Hm. injection Hm as Hm.
        assert (String.length (stem +:+ ".md") = String.length "node_modules") as Hlen
          by (by rewrite Hm).
        rewrite string_length_app in Hlen. simpl in Hlen.
        assert (Js.drop (String.length stem) (stem +:+ ".md") = ".md") as Hdrop
          by apply string_drop_app_length.
        rewrite Hm in Hdrop. replace (String.length stem) with 9%nat in Hdrop by lia.
        done. }
  rewrite Hpath. split; [|done].
  unfold list_candidates. by rewrite <- matches_same.
Qed.

End Listed.

(** The note [Daily/note.md], written into a vault without a directory
    [Daily]. *)
Lemma written_note_is_listed_witness :
  let args := Args "Daily/note.md" "text" "" "" "" None in
  let run := callTool "/data/vault" "write_note" args (World small_disk []) in
  let r := ToolResult "Successfully wrote to Daily/note.md" false in
  Forall plain ["data"; "vault"]
  ∧ Forall plain (["Daily"] ++ ["note" +:+ ".md"])
  ∧ Forall (λ seg, Glob.hidden seg = false) (["Daily"] ++ ["note" +:+ ".md"])
  ∧ head ["Daily"] ≠ Some "node_modules"
  ∧ path args = Path.join (["Daily"] ++ ["note" +:+ ".md"])
  ∧ run = (Return r, run.2)
  ∧ isError r = false
  ∧ path args ∈ list_candidates "/data/vault" (disk run.2)
  ∧ path args ∈ search_candidates "/data/vault" (disk run.2).
Proof.
  assert (Forall plain ["data"; "vault"]) as Hrs
    by (repeat (constructor; [done|]); constructor).
  assert (Forall plain (["Daily"] ++ ["note" +:+ ".md"])) as Hplain
    by (repeat (constructor; [done|]); constructor).
  assert (Forall (λ seg, Glob.hidden seg = false) (["Daily"] ++ ["note" +:+ ".md"]))
    as Hvisible by (repeat (constructor; [done|]); constructor).
  assert (head ["Daily"] ≠ Some "node_modules") as Hnm by discriminate.
  assert (callTool "/data/vault" "write_note" (Args "Daily/note.md" "text" "" "" "" None)
            (World small_disk [])
          = (Return (ToolResult "Successfully wrote to Daily/note.md" false),
             (callTool "/data/vault" "write_note" (Args "Daily/note.md" "text" "" "" "" None)
                (World small_disk [])).2)) as Hrun by (vm_compute; reflexivity).
  split; [exact Hrs|]. split; [exact Hplain|]. split; [exact Hvisible|].
  split; [exact Hnm|]. split; [reflexivity|]. split; [exact Hrun|]. split; [reflexivity|].
  exact (written_note_is_listed ["data"; "vault"] Hrs ["Daily"] "note"
           (Args "Daily/note.md" "text" "" "" "" None) (World small_disk []) _ _
           Hplain Hvisible Hnm eq_refl Hrun eq_refl).
Defined.

(** ** Reading a resource *)

Section Resources.

Variable URL_pathname : string → outcome string.
Variable decodeURIComponent : string → outcome string.

(** X24.  Whatever [new URL] and [decodeURIComponent] return or throw,
    [ReadResource] never changes the disk and makes at most one
    file-system call, the read of a path the guard accepted.  When it
    answers, the text is the text of the regular file at that path, under
    the URI of the request and the type [text/markdown].  It has no
    [catch]: a refused path rejects the request with the error of the
    guard before any file-system call, and a failed read rejects it
    too. *)
Theorem readResource_reads_through_the_guard root uri w :
  ∃ calls,
    disk (readResource root URL_pathname decodeURIComponent uri w).2 = disk w
    ∧ trace (readResource root URL_pathname decodeURIComponent uri w).2 = trace w ++ calls
    ∧ Forall (guarded root) calls
    ∧ match (readResource root URL_pathname decodeURIComponent uri w).1 with
      | Return c =>
          (∃ p, calls = [SysReadFile p]
                ∧ Disk.lookup (disk w) p = Some (Disk.File (contents_text c))
                ∧ contents_uri c = uri ∧ contents_mimeType c = "text/markdown")
      | Throw e =>
          (calls = []
           ∨ ∃ p err, calls = [SysReadFile p] ∧ e = SystemError err
                      ∧ Disk.read (disk w) p = inl err)
      end.
Proof.
  unfold readResource, mbind, M_bind, lift.
  destruct (URL_pathname uri) as [pathname|e1];
    [|exists []; rewrite app_nil_r; split_and!; [done..|by left]].
  destruct (decodeURIComponent pathname) as [decoded|e2];
    [|exists []; rewrite app_nil_r; split_and!; [done..|by left]].
  destruct (getSafePath root (strip_leading_slash decoded)) as [p|e3] eqn:Hp;
    [|exists []; rewrite app_nil_r; split_and!; [done..|by left]].
  exists [SysReadFile p]. unfold Fs.readFile, Fs.query.
  assert (guarded root (SysReadFile p)) as Hguarded by (by eexists).
  destruct (Disk.read (disk w) p) as [err|data] eqn:Hread; simpl.
  - split_and!; [done|done|by repeat constructor|]. right. by exists p, err.
  - split_and!; [done|done|by repeat constructor|]. exists p. split; [done|].
    unfold Disk.read in Hread. destruct (Disk.lookup (disk w) p) as [[data'|]|]; by simplify_eq.
Qed.

(** X25.  A listed resource can be read back.  For a root in normal form
    and a disk with normal keys, take a resource of the listing that is
    a regular file, and suppose that [new URL] gives for its URI the path
    of the note after a slash and that [decodeURIComponent] leaves this
    path as it is (as they do for names without reserved characters):
    then [ReadResource] on the URI of the resource answers with the text
    of the note. *)
Theorem listed_resource_is_readable rs resources w r :
  Forall plain rs →
  normal_keys (disk w) = true →
  (listResources ("/" +:+ Path.join rs) w).1 = Return resources →
  r ∈ resources →
  URL_pathname (uri r) = Return ("/" +:+ name r) →
  decodeURIComponent ("/" +:+ name r) = Return ("/" +:+ name r) →
  is_dir (disk w) (Path.resolve ("/" +:+ Path.join rs) (name r)) = false →
  ∃ data w',
    readResource ("/" +:+ Path.join rs) URL_pathname decodeURIComponent (uri r) w
      = (Return {| contents_uri := uri r; contents_mimeType := "text/markdown";
                   contents_text := data |}, w')
    ∧ Disk.lookup (disk w) (Path.resolve ("/" +:+ Path.join rs) (name r))
      = Some (Disk.File data).
Proof.
  intros Hrs Hd Hlist Hr Hurl Hdecode Hfile.
  unfold listResources, mbind, M_bind, Glob.glob in Hlist. simpl in Hlist.
  injection Hlist as <-.
  apply list_elem_of_fmap in Hr as (file & -> & Hin). simpl in *.
  apply list_elem_of_In, filter_In in Hin as [Hin _]. apply list_elem_of_In in Hin.
  destruct (entry_resolves rs Hrs _ _ _ Hd Hin) as (key & n & Hn & Hp).
  pose proof Hp as [-> _]%getSafePath_Return.
  unfold is_dir in Hfile. rewrite Hn in Hfile. destruct n as [data|]; [|done].
  exists data. eexists. split; [|done].
  unfold readResource, mbind, M_bind, lift. rewrite Hurl, Hdecode.
  change (strip_leading_slash ("/" +:+ file)) with file. rewrite Hp.
  unfold Fs.readFile, Fs.query, Disk.read. by rewrite Hn.
Qed.

End Resources.

(** The resource of the note [a.md], with a parser that cuts the path
    out of an [obsidian://] URI and a decoder that finds nothing to
    decode. *)
Lemma listed_resource_is_readable_witness :
  let pathname := λ uri, Return (Js.drop 11 uri) in
  let decode := λ s : string, Return s in
  let r := {| uri := "obsidian:///a.md"; name := "a.md"; mimeType := "text/markdown" |} in
  let w := World hello_disk [] in
  Forall plain ["data"; "vault"]
  ∧ normal_keys (disk w) = true
  ∧ (listResources "/data/vault" w).1
    = Return [r; {| uri := "obsidian:///hello.md"; name := "hello.md";
                   mimeType := "text/markdown" |}]
  ∧ r ∈ [r; {| uri := "obsidian:///hello.md"; name := "hello.md";
                mimeType := "text/markdown" |}]
  ∧ pathname (uri r) = Return ("/" +:+ name r)
  ∧ decode ("/" +:+ name r) = Return ("/" +:+ name r)
  ∧ is_dir (disk w) (Path.resolve "/data/vault" (name r)) = false
  ∧ ∃ data w',
      readResource "/data/vault" pathname decode (uri r) w
        = (Return {| contents_uri := uri r; contents_mimeType := "text/markdown";
                     contents_text := data |}, w')
      ∧ Disk.lookup (disk w) (Path.resolve "/data/vault" (name r)) = Some (Disk.File data).
Proof.
  assert (Forall plain ["data"; "vault"]) as Hrs
    by (repeat (constructor; [done|]); constructor).
  split; [exact Hrs|]. split; [vm_compute; reflexivity|].
  split; [vm_compute; reflexivity|]. split; [by left|].
  split; [reflexivity|]. split; [reflexivity|]. split; [reflexivity|].
  exact (listed_resource_is_readable (λ uri, Return (Js.drop 11 uri)) (λ s, Return s)
           ["data"; "vault"] _ (World hello_disk [])
           {| uri := "obsidian:///a.md"; name := "a.md"; mimeType := "text/markdown" |}
           Hrs ltac:(vm_compute; reflexivity) ltac:(vm_compute; reflexivity)
           ltac:(by left) eq_refl eq_refl eq_refl).
Defined.
